(** * adeft / deft: defining-pattern mining and recognition

    A shallow embedding of the two source files of the repository,

      - [src/deft/mine.py]       (class [ContinuousMiner], the Acromine trie)
      - [src/adeft/recognize.py] (classes [BaseRecognizer], [AdeftRecognizer],
                                  [OneShotRecognizer])

    followed by the properties of the specification that are stated about
    them.

    Conventions of the embedding.

      - A Python [str] is a [string].  [strip_defining_patterns] reads the
        characters of a str by their class ([str.split], [str.strip], [\s]
        and [\w] of [re]): there a character is a code point, the strs of
        the embedding are those whose code points are below 256, and the
        classes are the ones Python has on these code points.  All other
        code compares strs, looks them up in a dict or tests whether one
        occurs in another: for it a character can as well be read as a byte
        of the UTF-8 encoding of the str, which represents every str (a
        Greek letter among the tokens of the miner, for one).  The text
        algorithms of the Python standard library ([str.split],
        [str.replace], [re.sub], ...) are written over the list of
        characters of the string.
      - A Python [int] is a [Z].  The floats of [deft/mine.py] are the values
        of a type with the operations of the class [Mine.Arith], and the
        mining code is embedded once, for every such arithmetic.
        [Binary64.arithmetic] is the arithmetic of the code: IEEE 754
        binary64 with rounding to nearest, ties to even, the true division
        [a / b] of two ints being the float nearest to the quotient, or
        [OverflowError].  [Mine.exact_arithmetic] reads the operations over
        the real numbers, without rounding.  The division raises
        [ZeroDivisionError] when [b] is zero.
      - A [dict] whose order does not matter is a [gmap]; the grounding map,
        whose iteration order the trie construction depends on, is an
        association list in insertion order.  A [set] is a [gset].
      - Code that can raise returns a [result]; [None] is [None] of an
        [option].
      - Each trie node owns its children (a node is created once and stored
        under exactly one key of one parent), so the mutable node graph is
        the inductive tree it spans, and an in-place update of a node reached
        by a path is the rebuilding of that path.
      - Functions of modules that are not part of the two files
        ([deft.nlp.stem], [deft.resources], [adeft.nlp], [adeft.util],
        [adeft.score], [nltk]) are variables of the sections that use them. *)

From Stdlib Require Import Reals Lra ZArith Ascii String List.
From Stdlib Require PrimFloat SpecFloat FloatOps.
From stdpp Require Import gmap strings list fin_maps.

Set Warnings "-register-all,-clear-no-such-hyp".
Open Scope Z_scope.

(* ===================================================================== *)
(** * Python values and exceptions                                        *)
(* ===================================================================== *)

(** The exceptions the modelled code can raise.  [ReUnsupported] is not a
    Python exception, and not what Python does: it marks a regular
    expression outside the fragment of the [re] syntax that [PyRe.compile]
    covers, for which the embedding does not say what [re] does.  What is
    proved of [re.sub] is proved of patterns of the fragment, where it
    returns. *)
Inductive PyExc : Set :=
| TypeError
| AttributeError
| ZeroDivisionError
| OverflowError
| IndexError
| KeyError
| NameError
| NotImplementedError
| ReUnsupported
| OtherError (name : string).

Inductive result (A : Type) : Type :=
| Ok (a : A)
| Raise (e : PyExc).
Arguments Ok {A} a.
Arguments Raise {A} e.

#[global] Instance result_ret : MRet result := fun _ a => Ok a.
#[global] Instance result_bind : MBind result := fun _ _ f r =>
  match r with
  | Ok a => f a
  | Raise e => Raise e
  end.

Definition is_Ok {A} (r : result A) : Prop := ∃ a, r = Ok a.

(** [for x in xs: acc = body(acc, x)], stopping at the first exception. *)
Fixpoint for_each {A S : Type} (body : S → A → result S) (xs : list A) (acc : S)
  : result S :=
  match xs with
  | [] => Ok acc
  | x :: rest => acc' ← body acc x; for_each body rest acc'
  end.

(* ===================================================================== *)
(** * The part of the Python string library the code uses                 *)
(* ===================================================================== *)

Module PyStr.

Definition chars (s : string) : list ascii := list_ascii_of_string s.
Definition str (l : list ascii) : string := string_of_list_ascii l.

(** [string.punctuation]: the 32 ASCII punctuation characters, in code order. *)
Definition punctuation_chars : list ascii :=
  map ascii_of_nat
    [33; 34; 35; 36; 37; 38; 39; 40; 41; 42; 43; 44; 45; 46; 47;
     58; 59; 60; 61; 62; 63; 64;
     91; 92; 93; 94; 95; 96;
     123; 124; 125; 126]%nat.
Definition punctuation : string := str punctuation_chars.

(** [l[:len(p)] == p] *)
Fixpoint starts_with (p l : list ascii) : bool :=
  match p, l with
  | [], _ => true
  | _ :: _, [] => false
  | a :: p', b :: l' => bool_decide (a = b) && starts_with p' l'
  end.

(** [sub in s] for two strings: [sub] occurs in [s] as a contiguous run
    (the empty string occurs in every string). *)
Fixpoint contains (sub l : list ascii) : bool :=
  starts_with sub l ||
  match l with
  | [] => false
  | _ :: l' => contains sub l'
  end.
Definition str_in (sub s : string) : bool := contains (chars sub) (chars s).

(** [str.isspace] on a character below 256, which is also the class [\s]
    of [re] and the white space of [str.split] and [str.strip]: TAB, LF, VT,
    FF, CR, the four separators 0x1c-0x1f, the space, NEL (0x85) and the
    no-break space (0xa0). *)
Definition isspace (c : ascii) : bool :=
  let n := nat_of_ascii c in
  ((9 <=? n) && (n <=? 13) || (28 <=? n) && (n <=? 32)
   || (n =? 133) || (n =? 160))%nat.

(** [\w] on a character below 256: the underscore and the characters that
    are alphanumeric for [str.isalnum], which are the ASCII digits and
    letters, the ordinal indicators 0xaa and 0xba, the micro sign 0xb5, the
    superscript digits 0xb2, 0xb3 and 0xb9, the fractions 0xbc-0xbe, and the
    letters 0xc0-0xff without the signs 0xd7 and 0xf7. *)
Definition isword (c : ascii) : bool :=
  let n := nat_of_ascii c in
  ((48 <=? n) && (n <=? 57) || (65 <=? n) && (n <=? 90)
   || (97 <=? n) && (n <=? 122) || (n =? 95)
   || (n =? 170) || (n =? 178) || (n =? 179) || (n =? 181)
   || (n =? 185) || (n =? 186) || (188 <=? n) && (n <=? 190)
   || (192 <=? n) && (n <=? 214) || (216 <=? n) && (n <=? 246)
   || (248 <=? n) && (n <=? 255))%nat.

(** [str.split()] with no argument: the maximal runs of non-space
    characters.  [cur] holds the run being read, reversed. *)
Fixpoint split_go (cur : list ascii) (l : list ascii) : list (list ascii) :=
  match l with
  | [] => match cur with [] => [] | _ => [rev cur] end
  | c :: l' =>
      if isspace c
      then match cur with
           | [] => split_go [] l'
           | _ => rev cur :: split_go [] l'
           end
      else split_go (c :: cur) l'
  end.
Definition split_chars (l : list ascii) : list (list ascii) := split_go [] l.
Definition split (s : string) : list string := map str (split_chars (chars s)).

(** [sep.join(parts)] *)
Fixpoint join_chars (sep : list ascii) (parts : list (list ascii)) : list ascii :=
  match parts with
  | [] => []
  | [p] => p
  | p :: rest => p ++ sep ++ join_chars sep rest
  end.
Definition join (sep : string) (parts : list string) : string :=
  str (join_chars (chars sep) (map chars parts)).

(** [' '.join(s.split())] *)
Definition normalize_chars (l : list ascii) : list ascii :=
  join_chars [" "%char] (split_chars l).

(** [str.strip()] with no argument. *)
Fixpoint lstrip_chars (l : list ascii) : list ascii :=
  match l with
  | c :: l' => if isspace c then lstrip_chars l' else l
  | [] => []
  end.
Definition strip_chars (l : list ascii) : list ascii :=
  rev (lstrip_chars (rev (lstrip_chars l))).
Definition strip (s : string) : string := str (strip_chars (chars s)).

(** [s.replace(old, new)]: every non-overlapping occurrence of [old], from
    the left.  [skip] counts the characters of an occurrence still to be
    dropped.  With an empty [old], [new] is put before every character and
    at the end. *)
Fixpoint replace_go (old new : list ascii) (l : list ascii) (skip : nat)
  : list ascii :=
  match l with
  | [] => []
  | c :: l' =>
      match skip with
      | S k => replace_go old new l' k
      | O =>
          if starts_with old l
          then new ++ replace_go old new l' (length old - 1)
          else c :: replace_go old new l' 0
      end
  end.
Definition replace_chars (old new l : list ascii) : list ascii :=
  match old with
  | [] => new ++ flat_map (fun c => c :: new) l
  | _ => replace_go old new l 0
  end.
Definition replace (s old new : string) : string :=
  str (replace_chars (chars old) (chars new) (chars s)).

(** [re.match(r'\w+', s)] is not [None]: [s] starts with a word character. *)
Definition match_word (s : string) : bool :=
  match chars s with
  | c :: _ => isword c
  | [] => false
  end.

(** [xs[j]] with Python's negative indices. *)
Definition index {A} (xs : list A) (j : Z) : result A :=
  let n := Z.of_nat (length xs) in
  let k := if j <? 0 then j + n else j in
  if (k <? 0) || (n <=? k) then Raise IndexError
  else match xs !! Z.to_nat k with
       | Some x => Ok x
       | None => Raise IndexError
       end.

(** [xs[:stop]] with Python's negative and out-of-range bounds. *)
Definition slice_to {A} (xs : list A) (stop : Z) : list A :=
  let n := Z.of_nat (length xs) in
  let k := if stop <? 0 then Z.max 0 (stop + n) else stop in
  take (Z.to_nat k) xs.

End PyStr.

(* ===================================================================== *)
(** * src/deft/mine.py                                                    *)
(* ===================================================================== *)

Module Mine.

(** The arithmetic of the Python floats of the module: the operations the
    source applies to [LH] and [__length_penalty].  [fadd] and [fsub] are
    [x + y] and [x - y] on floats, [fzero] is the int [0] as the float it
    is added as, [fdiv a b] is the true division [a / b] of two ints with
    [b != 0], which returns a float or raises, and [flog n] is
    [math.log(n)] of the int [n].  [Binary64.arithmetic] below is the
    arithmetic of the code; [exact_arithmetic] reads the operations as those
    of the real numbers. *)
Class Arith (F : Type) : Type := {
  fadd : F → F → F;
  fsub : F → F → F;
  fzero : F;
  fdiv : Z → Z → result F;
  flog : nat → F
}.

(** What the properties below use of the true division: it raises no
    exception but [OverflowError], and does not raise it for a quotient of
    at most one. *)
Class ArithLaws (F : Type) {arith : Arith F} : Prop := {
  fdiv_raises : ∀ (a b : Z) e, fdiv a b = Raise e → e = OverflowError;
  fdiv_le : ∀ a b : Z, 0 ≤ a ≤ b → 0 < b → is_Ok (fdiv a b)
}.

(** The operations read as those of the real numbers: no rounding, no
    overflow. *)
#[global] Instance exact_arithmetic : Arith R := {|
  fadd := Rplus;
  fsub := Rminus;
  fzero := 0%R;
  fdiv := λ a b, Ok (IZR a / IZR b)%R;
  flog := λ n, ln (INR n)
|}.

(** The attributes [TrieNode.__init__] sets only for a non-empty longform.
    [count], [sum_ft] and [sum_ft2] are ints, [LH] and [__length_penalty]
    are floats. *)
Record Stats (F : Type) : Type := mkStats {
  count : Z;
  sum_ft : Z;
  sum_ft2 : Z;
  LH : F;
  length_penalty : F
}.
Arguments mkStats {F} _ _ _ _ _.
Arguments count {F} _.
Arguments sum_ft {F} _.
Arguments sum_ft2 {F} _.
Arguments LH {F} _.
Arguments length_penalty {F} _.

(** [class TrieNode].  [longform] is the tuple of tokens in reverse order;
    the root, created with the empty tuple, has no statistics. *)
Inductive TrieNode (F : Type) : Type := mkTrieNode {
  longform : list string;
  stats : option (Stats F);
  children : gmap string (TrieNode F)
}.
Arguments mkTrieNode {F} _ _ _.
Arguments longform {F} _.
Arguments stats {F} _.
Arguments children {F} _.

(** [class ContinuousMiner].  The [_snow] attribute (the stemmer with its
    word counts, read only by [top]) is the variable [stem] below. *)
Record ContinuousMiner (F : Type) : Type := mkContinuousMiner {
  shortform : string;
  _internal_trie : TrieNode F;
  _longforms : gmap (list string) F;
  exclude : gset string
}.
Arguments mkContinuousMiner {F} _ _ _ _.
Arguments shortform {F} _.
Arguments _internal_trie {F} _.
Arguments _longforms {F} _.
Arguments exclude {F} _.

Section Miner.

Context {F : Type} {arith : Arith F}.

(** [TrieNode.__init__(self, longform=())] *)
Definition TrieNode_init (longform : list string) : TrieNode F :=
  mkTrieNode longform
    match longform with
    | [] => None
    | _ :: _ =>
        let lp := flog (length longform) in
        Some (mkStats 1 0 0 lp lp)
    end
    ∅.

(** Reading an attribute of the statistics group: [AttributeError] on a
    node that has none. *)
Definition get_stats (self : TrieNode F) : result (Stats F) :=
  match stats self with
  | Some st => Ok st
  | None => Raise AttributeError
  end.

Definition set_stats (self : TrieNode F) (st : Stats F) : TrieNode F :=
  mkTrieNode (longform self) (Some st) (children self).

(** [current.children[token] = child] *)
Definition set_child (self : TrieNode F) (token : string) (child : TrieNode F)
  : TrieNode F :=
  mkTrieNode (longform self) (stats self) (<[token := child]> (children self)).

(** [TrieNode.increment_count(self)] *)
Definition increment_count (self : TrieNode F) : result (TrieNode F) :=
  st ← get_stats self;
  Ok (set_stats self
        (mkStats (count st + 1) (sum_ft st) (sum_ft2 st)
                 (fadd (LH st) (length_penalty st)) (length_penalty st))).

(** The true division [a / b] of two ints. *)
Definition truediv (a b : Z) : result F :=
  if b =? 0 then Raise ZeroDivisionError else fdiv a b.

(** [TrieNode.update_likelihood(self, count)] *)
Definition update_likelihood (self : TrieNode F) (child_count : Z)
  : result (TrieNode F) :=
  st ← get_stats self;
  old ← (if sum_ft2 st =? 0 then Ok fzero else truediv (sum_ft st) (sum_ft2 st));
  let lh1 := fadd (LH st) old in
  let ft := sum_ft st + 1 in
  let ft2 := sum_ft2 st + (2 * child_count - 1) in
  new ← truediv ft ft2;
  Ok (set_stats self (mkStats (count st) ft ft2 (fsub lh1 new) (length_penalty st))).

(** [ContinuousMiner.__init__(self, shortform, exclude=None)] *)
Definition ContinuousMiner_init (shortform : string) (exclude : option (gset string))
  : ContinuousMiner F :=
  mkContinuousMiner shortform (TrieNode_init []) ∅
    match exclude with
    | Some e => e
    | None => ∅
    end.

(** [self._snow.stem]: [deft.nlp.stem.SnowCounter.stem]. *)
Variable stem : string → string.
(** [resources.greek_alphabet]: a dict from a Greek letter to its name. *)
Variable greek_alphabet : gmap string string.
(** [str.lower] *)
Variable lower : string → string.

(** The body of the loop of [_add], from the node [current] on: the first
    token is looked up among the children of [current], and the loop goes
    on from that child.  The result is [current] as the loop leaves it,
    with the table. *)
Fixpoint _add_loop (tokens : list string) (current : TrieNode F)
    (longforms : gmap (list string) F) {struct tokens}
  : result (TrieNode F * gmap (list string) F) :=
  match tokens with
  | [] => Ok (current, longforms)
  | token :: rest =>
      match children current !! token with
      | None =>
          let new := TrieNode_init (longform current ++ [token]) in
          st ← get_stats new;
          let longforms := <[rev (longform new) := LH st]> longforms in
          '(new', longforms) ← _add_loop rest new longforms;
          Ok (set_child current token new', longforms)
      | Some child =>
          child ← increment_count child;
          st ← get_stats child;
          let longforms := <[rev (longform child) := LH st]> longforms in
          '(current, longforms) ←
            match longform current with
            | [] => Ok (current, longforms)
            | _ :: _ =>
                st ← get_stats child;
                current ← update_likelihood current (count st);
                cst ← get_stats current;
                Ok (current, <[rev (longform current) := LH cst]> longforms)
            end;
          '(child', longforms) ← _add_loop rest child longforms;
          Ok (set_child current token child', longforms)
      end
  end.

(** [ContinuousMiner._add(self, tokens)].  [tokens] is what
    [_get_candidates] returned: a list, or [None], over which the list
    comprehension of the first statement cannot iterate. *)
Definition _add (self : ContinuousMiner F) (tokens : option (list string))
  : result (ContinuousMiner F) :=
  match tokens with
  | None => Raise TypeError
  | Some tokens =>
      let tokens := map stem tokens in
      let tokens := rev tokens in
      '(trie, longforms) ← _add_loop tokens (_internal_trie self) (_longforms self);
      Ok (mkContinuousMiner (shortform self) trie longforms (exclude self))
  end.

(** The index the [for] loop of [_get_candidates] stops at: the first
    [index] of [range(len(tokens) - 3)] with [tokens[index:index+3]] equal
    to ["("; shortform; ")"]. *)
Definition pattern_at (shortform : string) (tokens : list string) (index : nat)
  : bool :=
  bool_decide (tokens !! index = Some "("%string)
  && bool_decide (tokens !! (index + 1)%nat = Some shortform)
  && bool_decide (tokens !! (index + 2)%nat = Some ")"%string).

Definition find_pattern (shortform : string) (tokens : list string) : option nat :=
  List.find (pattern_at shortform tokens) (seq 0 (length tokens - 3)).

(** The [while] loop of [_get_candidates]: [n] is [i + 1]; the result is
    the value of [i + 1] when the loop ends. *)
Fixpoint stop_index (exclude : gset string) (candidate : list string) (n : nat)
  : nat :=
  match n with
  | O => O
  | S i =>
      match candidate !! i with
      | Some token =>
          if bool_decide (token ∈ exclude) then S i
          else stop_index exclude candidate i
      | None => S i
      end
  end.

(** [ContinuousMiner._get_candidates(self, tokens)].  Falling off the end
    of the [for] loop returns [None].  (The [print] of the [while] loop
    writes to the standard output and is left out.) *)
Definition _get_candidates (self : ContinuousMiner F) (tokens : list string)
  : option (list string) :=
  match find_pattern (shortform self) tokens with
  | None => None
  | Some index =>
      let candidate :=
        filter (λ token, PyStr.str_in token PyStr.punctuation = false)
               (take index tokens) in
      let candidate :=
        map (λ token, match greek_alphabet !! token with
                      | Some name => name
                      | None => token
                      end) candidate in
      let candidate := map lower candidate in
      Some (drop (stop_index (exclude self) candidate (length candidate)) candidate)
  end.

(** [nltk.tokenize.sent_tokenize] and [word_tokenize]. *)
Variable sent_tokenize : string → list string.
Variable word_tokenize : string → list string.

(** [ContinuousMiner.consume(self, texts)] *)
Definition consume (self : ContinuousMiner F) (texts : list string)
  : result (ContinuousMiner F) :=
  let split := map sent_tokenize texts in
  let sentences :=
    filter (λ sentence,
              PyStr.str_in ("(" +:+ shortform self +:+ ")") sentence = true)
           (concat split) in
  let tokens := map word_tokenize sentences in
  let candidates := map (_get_candidates self) tokens in
  for_each _add candidates self.

End Miner.

(** The node a path of tokens leads to, from [node] down. *)
Fixpoint node_at {F : Type} (node : TrieNode F) (path : list string)
  : option (TrieNode F) :=
  match path with
  | [] => Some node
  | token :: rest =>
      match children node !! token with
      | Some child => node_at child rest
      | None => None
      end
  end.

End Mine.

(* ===================================================================== *)
(** * The floats of Python                                                *)
(* ===================================================================== *)

(** A Python [float] is an IEEE 754 binary64 number: the primitive floats
    of Rocq, with their addition and subtraction. *)
Module Binary64.
Import PrimFloat SpecFloat FloatOps.

(** An int as a floating-point number with a mantissa of any size. *)
Definition int_spec (z : Z) : spec_float :=
  match z with
  | Z0 => S754_zero false
  | Zpos p => S754_finite false p 0
  | Zneg p => S754_finite true p 0
  end.

(** Where [a / b] raises [OverflowError]: the quotient rounds to [2 ** 1024]
    or beyond. *)
Definition overflows (a b : Z) : bool :=
  (2 ^ 1024 - 2 ^ 970) * Z.abs b <=? Z.abs a.

(** [a / b] for two ints with [b != 0]: the float nearest to the quotient,
    ties to even, or [OverflowError]. *)
Definition truediv (a b : Z) : result float :=
  if overflows a b then Raise OverflowError
  else Ok (SF2Prim (SFdiv prec emax (int_spec a) (int_spec b))).

(** The arithmetic of the code.  [math_log n] is [math.log(n)], a function
    of the C library. *)
Definition arithmetic (math_log : nat → float) : Mine.Arith float := {|
  Mine.fadd := PrimFloat.add;
  Mine.fsub := PrimFloat.sub;
  Mine.fzero := 0%float;
  Mine.fdiv := truediv;
  Mine.flog := math_log
|}.

(** [int * float]: the int is converted, with [OverflowError] when it is
    too large, and multiplied. *)
Definition int_mul (c : Z) (x : float) : result float :=
  if 2 ^ 1024 - 2 ^ 970 <=? Z.abs c then Raise OverflowError
  else Ok (PrimFloat.mul (SF2Prim (binary_normalize prec emax c 0 false)) x).

(** What stands for [math.log] in the examples: its values at 1, 2 and 3,
    the floats nearest to the logarithms. *)
Definition log_table (n : nat) : float :=
  match n with
  | 1%nat => 0%float
  | 2%nat => 0x1.62e42fefa39efp-1%float
  | 3%nat => 0x1.193ea7aad030bp+0%float
  | _ => nan
  end.

(** The arithmetic of the examples. *)
Definition table_arithmetic : Mine.Arith float := arithmetic log_table.

End Binary64.

(* ===================================================================== *)
(** * The fragment of Python's [re] that [strip_defining_patterns] needs  *)
(* ===================================================================== *)

Module PyRe.

(** One character of the subject: a literal, [.], or [\s]. *)
Inductive atom : Set :=
| Lit (c : ascii)
| AnyChar
| Space.

(** A compiled pattern: a sequence of atoms, each one possibly under a
    greedy [*]. *)
Definition item : Set := (atom * bool)%type.

Definition atom_matches (a : atom) (c : ascii) : bool :=
  match a with
  | Lit d => bool_decide (c = d)
  | AnyChar => negb (bool_decide (c = ascii_of_nat 10))
  | Space => PyStr.isspace c
  end.

(** The characters with a meaning of their own in a pattern. *)
Definition special (c : ascii) : bool :=
  bool_decide (c ∈ PyStr.chars ".^$*+?{}[]\|()").

(** The atom a pattern starts with, and the rest of the pattern: [\(], [\)]
    and [\s] among the escapes, [.], and every character that is not
    special. *)
Definition parse_atom (p : list ascii) : option (atom * list ascii) :=
  match p with
  | [] => None
  | c :: p' =>
      if bool_decide (c = "\"%char) then
        match p' with
        | e :: p'' =>
            if bool_decide (e = "("%char) || bool_decide (e = ")"%char)
            then Some (Lit e, p'')
            else if bool_decide (e = "s"%char) then Some (Space, p'')
            else None
        | [] => None
        end
      else if bool_decide (c = "."%char) then Some (AnyChar, p')
      else if special c then None
      else Some (Lit c, p')
  end.

(** A repetition mark after an atom. *)
Definition repeats (c : ascii) : bool :=
  bool_decide (c ∈ PyStr.chars "*+?{").

(** [re.compile(pattern)], on the fragment above, with [fuel] at least the
    length of the pattern (every step reads a character).  A [*] directly
    after an atom is the greedy star; a second repetition mark after it
    ([**], [*?], [*+]) and every other construct are outside the
    fragment. *)
Fixpoint compile_go (fuel : nat) (p : list ascii) : result (list item) :=
  match p with
  | [] => Ok []
  | _ :: _ =>
      match fuel with
      | O => Raise ReUnsupported
      | S fuel =>
          match parse_atom p with
          | None => Raise ReUnsupported
          | Some (a, p') =>
              match p' with
              | c :: p'' =>
                  if bool_decide (c = "*"%char) then
                    match p'' with
                    | d :: _ =>
                        if repeats d then Raise ReUnsupported
                        else items ← compile_go fuel p''; Ok ((a, true) :: items)
                    | [] => Ok [(a, true)]
                    end
                  else if repeats c then Raise ReUnsupported
                  else items ← compile_go fuel p'; Ok ((a, false) :: items)
              | [] => Ok [(a, false)]
              end
          end
      end
  end.
Definition compile (pattern : string) : result (list item) :=
  compile_go (String.length pattern) (PyStr.chars pattern).

(** A starred atom, followed by the rest of the pattern [cont]: as the
    backtracking matcher does, it first takes as many characters as it can
    and gives them back one at a time. *)
Fixpoint match_star (a : atom) (cont : list ascii → option nat) (l : list ascii)
  : option nat :=
  match l with
  | c :: l' =>
      if atom_matches a c then
        match match_star a cont l' with
        | Some n => Some (S n)
        | None => cont l
        end
      else cont l
  | [] => cont l
  end.

(** The match of a pattern at the start of the subject: the result is the
    length of the match. *)
Fixpoint match_here (items : list item) : list ascii → option nat :=
  match items with
  | [] => λ _, Some O
  | (a, false) :: rest =>
      λ l, match l with
           | c :: l' => if atom_matches a c then S <$> match_here rest l' else None
           | [] => None
           end
  | (a, true) :: rest => match_star a (match_here rest)
  end.

(** A pattern that matches the empty string. *)
Definition nullable (items : list item) : bool := forallb snd items.

(** The scan of [re.sub] for a pattern that is not nullable: the leftmost
    match is replaced, and the scan goes on after it.  [skip] counts the
    characters of the last match still to be dropped. *)
Fixpoint sub_go (items : list item) (repl : list ascii) (l : list ascii) (skip : nat)
  : list ascii :=
  match l with
  | [] => []
  | c :: l' =>
      match skip with
      | S k => sub_go items repl l' k
      | O =>
          match match_here items l with
          | Some (S n) => repl ++ sub_go items repl l' n
          | _ => c :: sub_go items repl l' 0
          end
      end
  end.

(** [re.sub(pattern, repl, text)], for a pattern of the fragment that is not
    nullable and a replacement without a backslash (none of its characters
    is then an escape or a group reference). *)
Definition sub (pattern repl text : string) : result string :=
  items ← compile pattern;
  if nullable items then Raise ReUnsupported
  else if bool_decide ("\"%char ∈ PyStr.chars repl) then Raise ReUnsupported
  else Ok (PyStr.str (sub_go items (PyStr.chars repl) (PyStr.chars text) 0)).

End PyRe.

(* ===================================================================== *)
(** * src/adeft/recognize.py                                              *)
(* ===================================================================== *)

Module Recognize.

(** [class BaseRecognizer]: the attributes its constructor sets. *)
Record BaseRecognizer : Type := mkBaseRecognizer {
  shortform : string;
  window : Z;
  exclude : gset string
}.

(** [BaseRecognizer.__init__(self, shortform, window=100, exclude=None)] *)
Definition BaseRecognizer_init (shortform : string) (window : option Z)
    (exclude : option (gset string)) : BaseRecognizer :=
  mkBaseRecognizer shortform
    (default 100 window)
    match exclude with
    | None => ∅
    | Some e => e
    end.

(** What a recognizer class provides: the attributes of the base class and
    the two methods the subclasses override.  [_search] returns a longform
    or [None]. *)
Class Recognizer (T : Type) : Type := {
  base : T → BaseRecognizer;
  _search : T → list string → result (option string);
  _post_process : T → string → result string
}.

(** The base class itself: [_search] raises [NotImplementedError], and
    [_post_process] returns its argument. *)
#[global] Instance BaseRecognizer_methods : Recognizer BaseRecognizer := {|
  base := λ self, self;
  _search := λ _ _, Raise NotImplementedError;
  _post_process := λ _ text, Ok text
|}.

(** [class _TrieNode]: [longform] is [None] except at a node that ends a
    longform. *)
Inductive _TrieNode : Type := mk_TrieNode {
  longform : option string;
  children : gmap string _TrieNode
}.

(** [_TrieNode.__init__(self, longform=None)] *)
Definition _TrieNode_init (longform : option string) : _TrieNode :=
  mk_TrieNode longform ∅.

(** [current.children[token] = child] *)
Definition set_child (self : _TrieNode) (token : string) (child : _TrieNode)
  : _TrieNode :=
  mk_TrieNode (longform self) (<[token := child]> (children self)).

(** The node a path of tokens leads to, from [node] down. *)
Fixpoint node_at (node : _TrieNode) (path : list string) : option _TrieNode :=
  match path with
  | [] => Some node
  | token :: rest =>
      match children node !! token with
      | Some child => node_at child rest
      | None => None
      end
  end.

(** [d[key]] for a dict given by its items. *)
Fixpoint dict_get (items : list (string * string)) (key : string) : result string :=
  match items with
  | [] => Raise KeyError
  | (k, v) :: rest => if bool_decide (k = key) then Ok v else dict_get rest key
  end.

(** [class AdeftRecognizer] *)
Record AdeftRecognizer : Type := mkAdeftRecognizer {
  adeft_base : BaseRecognizer;
  grounding_map : list (string * string);
  _trie : _TrieNode
}.

(** [class OneShotRecognizer]: [scorer] is [None] when the constructor did
    not set the attribute. *)
Record OneShotRecognizer (Scorer : Type) : Type := mkOneShotRecognizer {
  oneshot_base : BaseRecognizer;
  scorer : option Scorer
}.
Arguments mkOneShotRecognizer {Scorer} _ _.
Arguments oneshot_base {Scorer} _.
Arguments scorer {Scorer} _.

(** The message both [logger] calls of the module write. *)
Definition not_available : string :=
  "OneShotRecognizer not available. AdeftLongformScorer has not been built successfully.".

Section Recognizers.

(** [_stemmer.stem]: [nltk.stem.snowball.EnglishStemmer.stem]. *)
Variable stem : string → string.
(** [adeft.nlp.tokenize] and [untokenize]: a token comes with its
    coordinates in the text, of type [span]. *)
Context {span : Type}.
Variable tokenize : string → list (string * span).
Variable untokenize : list (string * span) → string.
(** [adeft.util.get_candidate_fragments(text, shortform, window)], the
    window being [None] when the call leaves it out, and
    [adeft.util.get_candidate(fragment, exclude)]. *)
Variable get_candidate_fragments : string → string → option Z → list string.
Variable get_candidate : string → gset string → list string.

(** The inner loop of [_init_trie]: the path of [edges] is walked from
    [current], creating the nodes that are missing.  [index == len(edges) - 1]
    holds at the last edge. *)
Fixpoint insert_edges (lf : string) (edges : list string) (current : _TrieNode)
  : _TrieNode :=
  match edges with
  | [] => current
  | token :: rest =>
      match children current !! token with
      | None =>
          let new :=
            match rest with
            | [] => _TrieNode_init (Some lf)
            | _ :: _ => _TrieNode_init None
            end in
          set_child current token (insert_edges lf rest new)
      | Some child =>
          set_child current token (insert_edges lf rest child)
      end
  end.

(** [tuple(_stemmer.stem(token) for token, _ in tokenize(longform))[::-1]] *)
Definition edges_of (lf : string) : list string :=
  rev (map (λ t, stem (fst t)) (tokenize lf)).

(** [AdeftRecognizer._init_trie(self)], for the grounding map [gm]. *)
Definition _init_trie (gm : list (string * string)) : _TrieNode :=
  fold_left (λ root item, insert_edges (fst item) (edges_of (fst item)) root)
            gm (_TrieNode_init None).

(** [AdeftRecognizer.__init__(self, shortform, grounding_map, window=100,
    exclude=None)] *)
Definition AdeftRecognizer_init (shortform : string) (gm : list (string * string))
    (window : option Z) (exclude : option (gset string)) : AdeftRecognizer :=
  mkAdeftRecognizer (BaseRecognizer_init shortform window exclude) gm (_init_trie gm).

(** The loop of [AdeftRecognizer._search], over the stemmed tokens. *)
Fixpoint search_loop (current : _TrieNode) (edges : list string) : option string :=
  match edges with
  | [] => None
  | token :: rest =>
      match children current !! token with
      | None => None
      | Some child =>
          match longform child with
          | None => search_loop child rest
          | Some lf => Some lf
          end
      end
  end.

(** [AdeftRecognizer._search(self, tokens)] *)
Definition AdeftRecognizer_search (self : AdeftRecognizer) (tokens : list string)
  : option string :=
  search_loop (_trie self) (map stem (rev tokens)).

#[global] Instance AdeftRecognizer_methods : Recognizer AdeftRecognizer := {|
  base := adeft_base;
  _search := λ self tokens, Ok (AdeftRecognizer_search self tokens);
  _post_process := λ self lf, dict_get (grounding_map self) lf
|}.

(** [adeft.score.AdeftLongformScorer]: the type of its instances and of the
    keyword parameters of its constructor.  The name is bound in the module
    only when the import at its top succeeded; [score0 s tokens] is
    [s.score(tokens)[0]]. *)
Context {Scorer params : Type}.
Variable AdeftLongformScorer : option (string → params → result Scorer).
Variable score0 : Scorer → list string → result (option string).

(** The evaluation of [AdeftLongformScorer(shortform, **params)]. *)
Definition new_scorer (shortform : string) (ps : params) : result Scorer :=
  match AdeftLongformScorer with
  | None => Raise NameError
  | Some cls => cls shortform ps
  end.

(** [OneShotRecognizer.__init__(self, shortform, window=100, exclude=None,
    **params)].  The second component is what the constructor logs. *)
Definition OneShotRecognizer_init (shortform : string) (window : option Z)
    (exclude : option (gset string)) (ps : params)
  : result (OneShotRecognizer Scorer * list string) :=
  match new_scorer shortform ps with
  | Ok s =>
      Ok (mkOneShotRecognizer (BaseRecognizer_init shortform window exclude) (Some s),
          [])
  | Raise NameError =>
      Ok (mkOneShotRecognizer (BaseRecognizer_init shortform window exclude) None,
          [not_available])
  | Raise e => Raise e
  end.

(** [OneShotRecognizer._search(self, tokens)] *)
Definition OneShotRecognizer_search (self : OneShotRecognizer Scorer)
    (tokens : list string) : result (option string) :=
  match scorer self with
  | None => Raise AttributeError
  | Some s => score0 s tokens
  end.

#[global] Instance OneShotRecognizer_methods : Recognizer (OneShotRecognizer Scorer) := {|
  base := oneshot_base;
  _search := OneShotRecognizer_search;
  _post_process := λ _ text, Ok text
|}.

Section Base.

Context {T : Type} `{Recognizer T}.

(** The body of the loop of [recognize]. *)
Definition recognize_step (self : T) (expansions : gset string) (fragment : string)
  : result (gset string) :=
  if bool_decide (fragment = "") then Ok expansions
  else
    let tokens := get_candidate fragment (exclude (base self)) in
    lf ← _search self tokens;
    match lf with
    | None => Ok expansions
    | Some lf =>
        if bool_decide (lf = "") then Ok expansions
        else expansion ← _post_process self lf; Ok ({[expansion]} ∪ expansions)
    end.

(** [BaseRecognizer.recognize(self, text)] *)
Definition recognize (self : T) (text : string) : result (gset string) :=
  let fragments :=
    get_candidate_fragments text (shortform (base self)) (Some (window (base self))) in
  for_each (recognize_step self) fragments ∅.

(** The [while] loop of [strip_defining_patterns].  [n] is [j + len(tokens)
    + 1], the number of indices from [j] down that [tokens[j]] accepts; the
    result is the value of [j] when the loop ends. *)
Fixpoint strip_loop (tokens : list (string * span)) (num_words i : Z) (n : nat)
  : result Z :=
  let j := Z.of_nat n - Z.of_nat (length tokens) - 1 in
  if i <? num_words then
    match n with
    | O => Raise IndexError
    | S n' =>
        token ← PyStr.index tokens j;
        let i := if PyStr.match_word (fst token) then i + 1 else i in
        if 100 <? i then Ok (j - 1) else strip_loop tokens num_words i n'
    end
  else Ok j.

(** The body of the [for] loop of [strip_defining_patterns]. *)
Definition strip_step (self : T) (text : string) (fragment : string)
  : result string :=
  let tokens := tokenize fragment in
  lf ← _search self
         (filter (λ token, PyStr.str_in token PyStr.punctuation = false)
                 (map fst tokens));
  match lf with
  | None => Ok text
  | Some lf =>
      let num_words := Z.of_nat (length (PyStr.split lf)) in
      j ← strip_loop tokens num_words 0 (2 * length tokens);
      Ok (PyStr.replace text (PyStr.strip fragment)
                        (untokenize (PyStr.slice_to tokens (j + 1))))
  end.

(** [r'\(\s*%s\s*\)' % self.shortform] *)
Definition dp_pattern (shortform : string) : string :=
  "\(\s*" +:+ shortform +:+ "\s*\)".

(** [BaseRecognizer.strip_defining_patterns(self, text)] *)
Definition strip_defining_patterns (self : T) (text : string) : result string :=
  let sf := shortform (base self) in
  let fragments := get_candidate_fragments text sf None in
  text ← for_each (strip_step self) fragments text;
  stripped_text ← PyRe.sub (dp_pattern sf) (" " +:+ sf +:+ " ") text;
  Ok (PyStr.join " " (PyStr.split stripped_text)).

End Base.

End Recognizers.

End Recognize.

(* ===================================================================== *)
(** * What the properties are stated with *)
(* ===================================================================== *)

(** ** The mining trie *)

Module MineSpec.
Import Mine.

Section Generic.

Context {F : Type} {arith : Arith F}.


(** The miners a sequence of [_add] calls leads to, from a new miner. *)
Inductive reachable (stem : string → string) : ContinuousMiner F → Prop :=
| reachable_init shortform exclude :
    reachable stem (ContinuousMiner_init shortform exclude)
| reachable_add self tokens self' :
    reachable stem self →
    _add stem self tokens = Ok self' →
    reachable stem self'.

(** What holds of the node that the path [path] leads to. *)
Definition node_ok (path : list string) (node : TrieNode F) : Prop :=
  longform node = path ∧
  (path = [] → stats node = None) ∧
  (path ≠ [] →
   ∃ st, stats node = Some st ∧ 1 ≤ count st ∧
         0 ≤ sum_ft st ∧ sum_ft st ≤ sum_ft2 st ∧
         length_penalty st = flog (length path)).

(** Every node below [node], itself at [path], is as [node_ok] says. *)
Definition subtrie_ok (path : list string) (node : TrieNode F) : Prop :=
  ∀ p n, node_at node p = Some n → node_ok (path ++ p) n.

(** The float [a / b], where the division returns. *)
Definition ratio (a b : Z) : F :=
  match truediv a b with
  | Ok q => q
  | Raise _ => fzero
  end.

(** The likelihood of a node without children that was observed again [n]
    times after its creation: the penalty [lp], added [n] times. *)
Fixpoint added_LH (lp : F) (n : nat) : F :=
  match n with
  | O => lp
  | S m => fadd (added_LH lp m) lp
  end.

(** The likelihood of a node whose one child was observed again [n] times
    after its creation, as the node was: at each of these times
    [increment_count] adds the penalty and [update_likelihood] adds the
    old quotient [sum_ft / sum_ft2], or [0], and subtracts the new one. *)
Fixpoint updated_LH (lp : F) (n : nat) : F :=
  match n with
  | O => lp
  | S m =>
      let j := Z.of_nat m + 1 in
      let old := if j * j - 1 =? 0 then fzero else ratio (j - 1) (j * j - 1) in
      let new := ratio j ((j + 1) * (j + 1) - 1) in
      fsub (fadd (fadd (updated_LH lp m) lp) old) new
  end.

(** The statistics [increment_count] leaves. *)
Definition counted (st : Stats F) : Stats F :=
  mkStats (count st + 1) (sum_ft st) (sum_ft2 st)
          (fadd (LH st) (length_penalty st)) (length_penalty st).

(** The statistics of a node of longform [lf] that was observed again [n]
    times after its creation and, unless it is a leaf, has one child that
    was observed again [n] times as well. *)
Definition chain_stats (n : nat) (lf : list string) (leaf : bool) : Stats F :=
  let k := Z.of_nat n + 1 in
  let lp := flog (length lf) in
  if leaf then mkStats k 0 0 (added_LH lp n) lp
  else mkStats k (k - 1) (k * k - 1) (updated_LH lp n) lp.

(** The children of a node at [prefix] below which the trie is the single
    path [path], each node of it observed again [n] times. *)
Fixpoint chain (n : nat) (prefix path : list string) : gmap string (TrieNode F) :=
  match path with
  | [] => ∅
  | token :: rest =>
      let lf := prefix ++ [token] in
      {[ token := mkTrieNode lf (Some (chain_stats n lf (bool_decide (rest = []))))
                             (chain n lf rest) ]}
  end.

(** [k] calls of [_add] with the same tokens. *)
Definition add_times (stem : string → string) (k : nat) (tokens : list string)
    (self : ContinuousMiner F) : result (ContinuousMiner F) :=
  for_each (_add stem) (replicate k (Some tokens)) self.

End Generic.

(** The dispersion term of the likelihood in exact arithmetic:
    [sum_ft / sum_ft2], and [0] when [sum_ft2] is zero. *)
Definition dispersion (st : Stats R) : R :=
  if sum_ft2 st =? 0 then 0%R else (IZR (sum_ft st) / IZR (sum_ft2 st))%R.



End MineSpec.

(** ** The table of longforms *)

Module TableSpec.
Import Mine MineSpec.

(** The table holds the likelihood of every node below [node], itself at
    [path], under the node's longform in forward order. *)
Definition table_ok {F : Type} (path : list string) (node : TrieNode F)
    (longforms : gmap (list string) F) : Prop :=
  ∀ p n st, node_at node p = Some n → stats n = Some st →
            longforms !! rev (path ++ p) = Some (LH st).

End TableSpec.

(** ** The recognition trie *)

Module RecognizeSpec.
Import Recognize.

(** The children of a node below which the trie is the single path [edges],
    with the longform [lf] at its end. *)
Fixpoint single_path (lf : string) (edges : list string) : gmap string _TrieNode :=
  match edges with
  | [] => ∅
  | token :: rest =>
      {[ token := mk_TrieNode (match rest with [] => Some lf | _ :: _ => None end)
                              (single_path lf rest) ]}
  end.

(** A tokenizer for words separated by white space, with no coordinates:
    what stands for [adeft.nlp.tokenize] in the examples. *)
Definition words_tokenize (s : string) : list (string * unit) :=
  map (λ w, (w, tt)) (PyStr.split s).

(** The grounding map of the leaf-precedence example, in its order. *)
Definition nfkb_map : list (string * string) :=
  [("nuclear factor kappa b", "G1"); ("factor kappa b", "G2")]%string.

(** The tokens of the longer longform of that map. *)
Definition nfkb_tokens : list string :=
  ["nuclear"; "factor"; "kappa"; "b"]%string.

(** Modelled from the spec: [adeft.util.get_candidate_fragments], which is
    not among the source files, as the text within [window] characters
    before each occurrence of the shortform in parentheses.  [before] holds
    the text read so far, reversed. *)
Fixpoint fragments_go (pat : list ascii) (window : nat) (before l : list ascii)
  : list (list ascii) :=
  match l with
  | [] => []
  | c :: l' =>
      (if PyStr.starts_with pat l then [rev (take window before)] else [])
      ++ fragments_go pat window (c :: before) l'
  end.
Definition fragments_before (text shortform : string) (window : option Z)
  : list string :=
  map PyStr.str
      (fragments_go (PyStr.chars ("(" +:+ shortform +:+ ")"))
                    (Z.to_nat (default 100 window)) [] (PyStr.chars text)).

(** Modelled from the spec: [adeft.util.get_candidate], which is not among
    the source files, as the words of the fragment that are not punctuation,
    from the last excluded one on. *)
Definition words_candidate (fragment : string) (exclude : gset string)
  : list string :=
  let tokens :=
    filter (λ token, PyStr.str_in token PyStr.punctuation = false)
           (PyStr.split fragment) in
  drop (Mine.stop_index exclude tokens (length tokens)) tokens.

End RecognizeSpec.

(** ** The replacement of the shortform in parentheses *)

Module StripSpec.

(** A run of white space. *)
Definition spaces (ws : list ascii) : Prop := Forall (λ c, PyStr.isspace c = true) ws.

(** An occurrence of the shortform in parentheses: [(], white space or
    none, the shortform, white space or none, [)]. *)
Definition occurrence (sf m : list ascii) : Prop :=
  ∃ ws ws', spaces ws ∧ spaces ws' ∧
            m = "("%char :: ws ++ sf ++ ws' ++ [")"%char].

(** [replaced sf repl text out]: [out] is [text] with every occurrence of
    the shortform in parentheses replaced by [repl], from the left, and
    with every other character as it is. *)
Inductive replaced (sf repl : list ascii) : list ascii → list ascii → Prop :=
| replaced_end : replaced sf repl [] []
| replaced_occurrence m rest out :
    occurrence sf m → replaced sf repl rest out →
    replaced sf repl (m ++ rest) (repl ++ out)
| replaced_char c rest out :
    (∀ m rest', c :: rest = m ++ rest' → ¬ occurrence sf m) →
    replaced sf repl rest out →
    replaced sf repl (c :: rest) (c :: out).

(** The strings a compiled pattern matches. *)
Inductive matches : list PyRe.item → list ascii → Prop :=
| matches_nil : matches [] []
| matches_atom a items c m :
    PyRe.atom_matches a c = true → matches items m →
    matches ((a, false) :: items) (c :: m)
| matches_star a items ws m :
    Forall (λ c, PyRe.atom_matches a c = true) ws → matches items m →
    matches ((a, true) :: items) (ws ++ m).

(** A shortform that is a pattern for itself: none of its characters has a
    meaning in a regular expression. *)
Definition literal (sf : string) : Prop :=
  Forall (λ c, PyRe.special c = false) (PyStr.chars sf).

(** The compiled pattern of a literal shortform in parentheses. *)
Definition dp_items (sf : list ascii) : list PyRe.item :=
  [(PyRe.Lit "("%char, false); (PyRe.Space, true)]
  ++ map (λ c, (PyRe.Lit c, false)) sf
  ++ [(PyRe.Space, true); (PyRe.Lit ")"%char, false)].

(** A word: characters that are not white space, one at least. *)
Definition word (w : list ascii) : Prop :=
  w ≠ [] ∧ Forall (λ c, PyStr.isspace c = false) w.

(** A text that is empty or starts with white space. *)
Definition starts_spaced (l : list ascii) : Prop :=
  match l with
  | [] => True
  | c :: _ => PyStr.isspace c = true
  end.

(** [words_of l words]: the text [l] is the [words], in their order, with
    white space between them, and white space or none at its two ends. *)
Inductive words_of : list ascii → list (list ascii) → Prop :=
| words_of_end ws : spaces ws → words_of ws []
| words_of_word ws w rest words :
    spaces ws → word w → starts_spaced rest → words_of rest words →
    words_of (ws ++ w ++ rest) (w :: words).

(** The words with one space between them. *)
Fixpoint single_spaced (words : list (list ascii)) : list ascii :=
  match words with
  | [] => []
  | [w] => w
  | w :: rest => w ++ " "%char :: single_spaced rest
  end.

End StripSpec.

(** ** The sentences and the candidates of [consume] *)

Module ConsumeSpec.
Import Mine.

(** The sentences [consume] keeps: those of the texts, in their order, that
    contain the shortform in parentheses. *)
Definition kept_sentences (sent_tokenize : string → list string)
    (shortform : string) (texts : list string) : list string :=
  filter (λ sentence, PyStr.str_in ("(" +:+ shortform +:+ ")") sentence = true)
         (concat (map sent_tokenize texts)).

(** The tokens before the pattern at [index], as [_get_candidates] makes
    them: without those that occur in [string.punctuation], a Greek letter
    replaced by its name, in lower case. *)
Definition normalized (greek_alphabet : gmap string string) (lower : string → string)
    (tokens : list string) (index : nat) : list string :=
  map lower
      (map (λ token, default token (greek_alphabet !! token))
           (filter (λ token, PyStr.str_in token PyStr.punctuation = false)
                   (take index tokens))).

End ConsumeSpec.

(** ** The counts and the sums of the mining trie *)

Module CountSpec.
Import Mine.

(** [node.count] of the node at [path], and [0] where the trie has no node
    or the node no count. *)
Definition count_at {F : Type} (trie : TrieNode F) (path : list string) : Z :=
  match node_at trie path with
  | Some node =>
      match stats node with
      | Some st => count st
      | None => 0
      end
  | None => 0
  end.

(** The number of the candidates of [history] whose stemmed tokens, read
    from the last to the first, begin with [path]. *)
Definition occurrences (stem : string → string) (history : list (list string))
    (path : list string) : Z :=
  Z.of_nat (length (filter (λ tokens, path `prefix_of` rev (map stem tokens)) history)).

(** What one run of the loop of [_add] over [tokens] adds to the count at
    the path [p]: one on the path of the tokens, nothing elsewhere. *)
Definition hit (p tokens : list string) : Z :=
  if decide (p ≠ [] ∧ p `prefix_of` tokens) then 1 else 0.

End CountSpec.

Module SumSpec.
Import Mine CountSpec.

(** The sum of [f child.count] over the children of a node. *)
Definition child_sum {F : Type} (f : Z → Z) (node : TrieNode F) : Z :=
  map_fold (λ _ child acc, acc + f (count_at child [])) 0 (children node).

(** What the two sums of a node are, at every node below [node]. *)
Definition sums_ok {F : Type} (node : TrieNode F) : Prop :=
  ∀ p n st, node_at node p = Some n → stats n = Some st →
            sum_ft st = child_sum (λ c, c - 1) n ∧
            sum_ft2 st = child_sum (λ c, c * c - 1) n.

End SumSpec.

(** ** The longforms the recognition trie stores *)

Module TrieSpec.
Import Recognize.

(** The node at the end of [path] stores the longform [lf]. *)
Definition stored (trie : _TrieNode) (path : list string) (lf : string) : Prop :=
  ∃ node, node_at trie path = Some node ∧ longform node = Some lf.

(** Neither of two paths is the beginning of the other. *)
Definition incomparable (e e' : list string) : Prop :=
  ¬ e `prefix_of` e' ∧ ¬ e' `prefix_of` e.

(** The paths of a list are not empty, and no path is the beginning of
    another one of the list, or equal to it. *)
Fixpoint prefix_free (paths : list (list string)) : Prop :=
  match paths with
  | [] => True
  | e :: rest => e ≠ [] ∧ Forall (incomparable e) rest ∧ prefix_free rest
  end.

(** The path of an entry of the grounding map: the stems of the tokens of
    its longform, from the last to the first. *)
Definition path_of (stem : string → string) {span : Type}
    (tokenize : string → list (string * span)) (item : string * string)
  : list string :=
  edges_of stem tokenize (fst item).

(** What holds of the trie after the entries [done] are inserted, when no
    path of theirs is the beginning of another. *)
Definition trie_holds (stem : string → string) {span : Type}
    (tokenize : string → list (string * span))
    (trie : _TrieNode) (done : list (string * string)) : Prop :=
  (∀ p, is_Some (node_at trie p) →
        p = [] ∨ ∃ item, item ∈ done ∧ p `prefix_of` path_of stem tokenize item) ∧
  (∀ p lf, stored trie p lf → p = edges_of stem tokenize lf ∧ ∃ g, (lf, g) ∈ done) ∧
  (∀ item, item ∈ done → stored trie (path_of stem tokenize item) (fst item)).

End TrieSpec.

(** ** The words of a fragment *)

Module CutSpec.

(** The number of tokens that [re.match(r'\w+', token)] accepts. *)
Definition word_count {span : Type} (tokens : list (string * span)) : Z :=
  Z.of_nat (length (filter (λ t, PyStr.match_word (fst t) = true) tokens)).

End CutSpec.

(** ** Tokenizers of the examples *)

Module ExampleSpec.

(** A sentence tokenizer that takes a text for one sentence: what stands
    for [nltk.tokenize.sent_tokenize] in the examples. *)
Definition one_sentence (text : string) : list string := [text].

(** A word tokenizer that splits at white space and sets parentheses
    apart: what stands for [nltk.tokenize.word_tokenize] in the examples. *)
Definition paren_tokenize (sentence : string) : list string :=
  PyStr.split (PyStr.replace (PyStr.replace sentence "(" " ( ") ")" " ) ").

End ExampleSpec.

(* ===================================================================== *)
(** * The arithmetic of the floats *)
(* ===================================================================== *)

Section ArithmeticFacts.
Import Mine.

#[global] Instance exact_arithmetic_laws : ArithLaws R.
Proof. split; [done|]. intros a b _ _. by eexists. Qed.

Lemma binary64_truediv_returns (a b : Z) :
  0 ≤ a ≤ b → 0 < b → is_Ok (Binary64.truediv a b).
Proof.
  intros Ha Hb. unfold Binary64.truediv, Binary64.overflows.
  assert (1 < 2 ^ 1024 - 2 ^ 970) as Hc by (vm_compute; reflexivity).
  set (c := 2 ^ 1024 - 2 ^ 970) in *.
  destruct (Z.leb_spec (c * Z.abs b) (Z.abs a)) as [Hle|_]; [|by eexists].
  exfalso. rewrite !Z.abs_eq in Hle by lia. nia.
Qed.

Lemma binary64_truediv_raises (a b : Z) e :
  Binary64.truediv a b = Raise e → e = OverflowError.
Proof. unfold Binary64.truediv. destruct (Binary64.overflows a b); congruence. Qed.

#[global] Instance binary64_laws (math_log : nat → PrimFloat.float) :
  ArithLaws PrimFloat.float (arith := Binary64.arithmetic math_log).
Proof.
  split; [apply binary64_truediv_raises|apply binary64_truediv_returns].
Qed.

End ArithmeticFacts.

(* ===================================================================== *)
(** * The mining trie of [deft/mine.py] *)
(* ===================================================================== *)

Section MineFacts.
Import Mine MineSpec.

Context {F : Type} {arith : Arith F} {laws : ArithLaws F}.
Variable stem : string → string.

Implicit Types (node current child : TrieNode F) (st : Stats F).
Implicit Types (self : ContinuousMiner F) (longforms : gmap (list string) F).

Lemma get_stats_Some node st : stats node = Some st → get_stats node = Ok st.
Proof. unfold get_stats. by intros ->. Qed.

Lemma node_at_cons node token rest :
  node_at node (token :: rest) = children node !! token ≫= λ c, node_at c rest.
Proof. simpl. by destruct (children node !! token). Qed.

Lemma node_at_set_child node token child t p :
  node_at (set_child node token child) (t :: p) =
  if decide (token = t) then node_at child p else node_at node (t :: p).
Proof.
  simpl. rewrite lookup_insert. by destruct (decide (token = t)).
Qed.

Lemma subtrie_ok_set_child path node token child :
  subtrie_ok path node →
  subtrie_ok (path ++ [token]) child →
  subtrie_ok path (set_child node token child).
Proof.
  intros Hn Hc [|t p] n.
  - simpl. intros [= <-]. destruct (Hn [] node eq_refl) as (Hl & Hs & Hst).
    split; [done|]. split; [exact Hs|exact Hst].
  - rewrite node_at_set_child. destruct (decide (token = t)) as [->|Hne].
    + intros Hp. specialize (Hc p n Hp). by rewrite <- app_assoc in Hc.
    + apply Hn.
Qed.

Lemma subtrie_ok_same_children path node node' :
  children node' = children node →
  node_ok path node' →
  subtrie_ok path node →
  subtrie_ok path node'.
Proof.
  intros Hch Hok Hn [|t p] n.
  - simpl. intros [= <-]. by rewrite app_nil_r.
  - rewrite node_at_cons, Hch, <- node_at_cons. apply Hn.
Qed.

Lemma subtrie_ok_init path token :
  subtrie_ok (path ++ [token]) (TrieNode_init (path ++ [token])).
Proof.
  intros [|t p] n; simpl.
  - intros [= <-]. rewrite app_nil_r. split; [done|].
    split; [by destruct path|]. intros _.
    destruct (path ++ [token]) as [|a l] eqn:E; [by destruct path|].
    eexists. split; [done|]. simpl. repeat split; lia.
  - by rewrite lookup_empty.
Qed.



(** A quotient of at most one is a float: no exception. *)
Lemma truediv_le (a b : Z) : 0 ≤ a ≤ b → 0 < b → is_Ok (truediv (F := F) a b).
Proof.
  intros Ha Hb. unfold truediv. rewrite (proj2 (Z.eqb_neq b 0)) by lia.
  by apply fdiv_le.
Qed.

Lemma increment_count_ok path node :
  path ≠ [] → node_ok path node →
  ∃ node', increment_count node = Ok node' ∧ node_ok path node' ∧
           children node' = children node ∧
           ∃ st st', stats node = Some st ∧ stats node' = Some st' ∧
                     count st' = count st + 1.
Proof.
  intros Hne (Hl & _ & Hst). destruct (Hst Hne) as (st & Hs & Hc & Hf & Hf2 & Hlp).
  unfold increment_count, get_stats. rewrite Hs. simpl.
  eexists. split; [done|]. split; [|split; [done|]].
  - split; [done|]. split; [done|]. intros _. eexists. split; [done|]. simpl.
    repeat split; try lia; try done.
  - by exists st; eexists.
Qed.

Lemma update_likelihood_ok path node c :
  path ≠ [] → node_ok path node → 1 ≤ c →
  ∃ node', update_likelihood node c = Ok node' ∧ node_ok path node' ∧
           children node' = children node.
Proof.
  intros Hne (Hl & _ & Hst) Hc1.
  destruct (Hst Hne) as (st & Hs & Hc & Hf & Hf2 & Hlp).
  unfold update_likelihood. rewrite (get_stats_Some _ _ Hs). cbn [mbind result_bind].
  assert (∃ old, (if sum_ft2 st =? 0 then Ok fzero
                  else truediv (sum_ft st) (sum_ft2 st)) = Ok old) as [old ->].
  { destruct (Z.eqb_spec (sum_ft2 st) 0); [by eexists|].
    apply truediv_le; lia. }
  cbn [mbind result_bind].
  destruct (truediv_le (sum_ft st + 1) (sum_ft2 st + (2 * c - 1))) as [new ->];
    [lia|lia|].
  cbn [mbind result_bind].
  eexists. split; [done|]. split; [|done].
  split; [done|]. split; [done|]. intros _. eexists. split; [done|]. simpl.
  repeat split; try lia; try done.
Qed.

Lemma _add_loop_ok tokens : ∀ path current longforms,
  subtrie_ok path current →
  ∃ current' longforms',
    _add_loop tokens current longforms = Ok (current', longforms') ∧
    subtrie_ok path current'.
Proof.
  induction tokens as [|token rest IH]; intros path current longforms Hok.
  - by exists current, longforms.
  - pose proof (Hok [] current eq_refl) as Hcur. rewrite app_nil_r in Hcur.
    pose proof Hcur as (Hlf & _ & _).
    simpl. destruct (children current !! token) as [child|] eqn:Hch.
    + assert (subtrie_ok (path ++ [token]) child) as Hchild.
      { intros p n Hp. rewrite <- app_assoc. apply Hok. simpl. by rewrite Hch. }
      assert (path ++ [token] ≠ []) as Hne by (by destruct path).
      pose proof (Hchild [] child eq_refl) as Hc0. rewrite app_nil_r in Hc0.
      destruct (increment_count_ok _ _ Hne Hc0)
        as (child1 & -> & Hok1 & Hch1 & st & st1 & Hs & Hs1 & Hcnt).
      simpl. rewrite (get_stats_Some _ _ Hs1). simpl.
      assert (subtrie_ok (path ++ [token]) child1) as Hsub1
        by (by eapply subtrie_ok_same_children).
      assert (1 ≤ count st1) as Hc1.
      { destruct Hc0 as (_ & _ & H0). destruct (H0 Hne) as (st0 & Hs0 & ? & _).
        rewrite Hs in Hs0. injection Hs0 as <-. lia. }
      destruct (longform current) as [|a l] eqn:Hlc.
      * simpl.
        destruct (IH (path ++ [token]) child1
                     (<[rev (longform child1) := LH st1]> longforms) Hsub1)
          as (child' & lfs' & -> & Hsub'). simpl.
        eexists _, _. split; [done|]. by apply subtrie_ok_set_child.
      * assert (path ≠ []) as Hpne by (rewrite <- Hlf; done).
        simpl.
        destruct (update_likelihood_ok path current (count st1) Hpne Hcur Hc1)
          as (current1 & -> & Hcok1 & Hcch1). simpl.
        destruct Hcok1 as (Hl1 & Hn1 & Hst1). destruct (Hst1 Hpne) as (cst & Hcs & Hrest).
        rewrite (get_stats_Some _ _ Hcs). simpl.
        destruct (IH (path ++ [token]) child1
                     (<[rev (longform current1) := LH cst]>
                        (<[rev (longform child1) := LH st1]> longforms)) Hsub1)
          as (child' & lfs' & -> & Hsub'). simpl.
        eexists _, _. split; [done|]. apply subtrie_ok_set_child; [|done].
        eapply subtrie_ok_same_children; [done| |done].
        split; [done|]. split; [done|]. intros _. by exists cst.
    + rewrite Hlf.
      pose proof (subtrie_ok_init path token) as Hnew.
      pose proof (Hnew [] _ eq_refl) as (_ & _ & Hst0).
      destruct Hst0 as (st0 & Hs0 & _); [by destruct path|].
      rewrite (get_stats_Some _ _ Hs0). simpl.
      destruct (IH (path ++ [token]) (TrieNode_init (path ++ [token]))
                   (<[rev (path ++ [token]) := LH st0]> longforms) Hnew)
        as (new' & lfs' & -> & Hsub'). simpl.
      eexists _, _. split; [done|]. by apply subtrie_ok_set_child.
Qed.

Lemma subtrie_ok_root : subtrie_ok [] (TrieNode_init (F := F) []).
Proof.
  intros [|t p] n; simpl.
  - intros [= <-]. by split.
  - by rewrite lookup_empty.
Qed.

Lemma reachable_ok self : reachable stem self → subtrie_ok [] (_internal_trie self).
Proof.
  induction 1 as [sf ex|self tokens self' _ IH Hadd].
  - apply subtrie_ok_root.
  - destruct tokens as [tokens|]; [|done]. simpl in Hadd.
    destruct (_add_loop_ok (rev (map stem tokens)) [] (_internal_trie self)
                (_longforms self) IH) as (trie' & lfs' & Heq & Hok).
    rewrite Heq in Hadd. simpl in Hadd. by injection Hadd as <-.
Qed.

(** [_add] on a list of tokens never raises, whatever was added before. *)
Lemma _add_total self tokens :
  reachable stem self → is_Ok (_add stem self (Some tokens)).
Proof.
  intros Hr. simpl.
  destruct (_add_loop_ok (rev (map stem tokens)) [] (_internal_trie self)
              (_longforms self) (reachable_ok _ Hr)) as (trie' & lfs' & -> & _).
  by eexists.
Qed.

(** The guard of [update_likelihood] covers its first division only: with a
    count of zero the second one can fail. *)
Example update_likelihood_second_division :
  update_likelihood (mkTrieNode ["a"%string] (Some (mkStats 1 1 1 fzero fzero)) ∅) 0
  = Raise ZeroDivisionError.
Proof.
  unfold update_likelihood. cbn [get_stats stats mbind result_bind sum_ft sum_ft2].
  destruct (truediv_le 1 1) as [q Hq]; [lia..|].
  change (1 =? 0) with false. cbn iota. rewrite Hq. reflexivity.
Qed.

(** ** Adding the same tokens again and again *)

Lemma mkStats_ext c c' f f' g g' (h h' l l' : F) :
  c = c' → f = f' → g = g' → h = h' → l = l' →
  mkStats c f g h l = mkStats c' f' g' h' l'.
Proof. by intros -> -> -> -> ->. Qed.

Lemma ratio_ok (a b : Z) : 0 ≤ a ≤ b → 0 < b → truediv a b = Ok (ratio (F := F) a b).
Proof.
  intros Ha Hb. unfold ratio. by destruct (truediv_le a b Ha Hb) as [q ->].
Qed.

Lemma chain_stats_first lf leaf :
  chain_stats 0 lf leaf
  = mkStats 1 0 0 (flog (length lf)) (flog (length lf)).
Proof. by destruct leaf. Qed.

Lemma TrieNode_init_first lf leaf :
  lf ≠ [] →
  TrieNode_init lf = mkTrieNode lf (Some (chain_stats 0 lf leaf)) ∅.
Proof.
  intros Hne. rewrite chain_stats_first. by destruct lf.
Qed.

(** The first call creates the path. *)
Lemma _add_loop_first path : ∀ prefix s longforms,
  ∃ longforms',
    _add_loop path (mkTrieNode prefix s ∅) longforms
    = Ok (mkTrieNode prefix s (chain 0 prefix path), longforms').
Proof.
  induction path as [|token rest IH]; intros prefix s longforms.
  - by eexists.
  - cbn [_add_loop children]. rewrite lookup_empty. cbn [longform].
    rewrite (TrieNode_init_first (prefix ++ [token]) (bool_decide (rest = [])))
      by (by destruct prefix).
    cbn [get_stats stats mbind result_bind longform].
    edestruct IH as (lfs' & ->). cbn [mbind result_bind].
    by eexists.
Qed.

Lemma increment_chain_stats (n : nat) lf leaf rest_children :
  increment_count (mkTrieNode lf (Some (chain_stats n lf leaf)) rest_children)
  = Ok (mkTrieNode lf (Some (counted (chain_stats n lf leaf))) rest_children).
Proof. reflexivity. Qed.

(** A node without children: counted once more, it is as after one more
    call. *)
Lemma counted_leaf (n : nat) lf :
  counted (chain_stats n lf true) = chain_stats (S n) lf true.
Proof.
  unfold counted, chain_stats. cbn [count sum_ft sum_ft2 LH length_penalty added_LH].
  apply mkStats_ext; try done. lia.
Qed.

(** A node with its child: counted once more and updated with the count
    of the child, it is as after one more call. *)
Lemma update_chain_stats (n : nat) lf cs :
  update_likelihood (mkTrieNode lf (Some (counted (chain_stats n lf false))) cs)
                    (Z.of_nat n + 1 + 1)
  = Ok (mkTrieNode lf (Some (chain_stats (S n) lf false)) cs).
Proof.
  unfold update_likelihood, counted, chain_stats.
  cbn [get_stats stats mbind result_bind count sum_ft sum_ft2 LH length_penalty
       updated_LH].
  set (k := Z.of_nat n + 1).
  assert (1 ≤ k) as Hk by lia.
  assert (k - 1 + 1 = k) as E1 by lia.
  assert (k * k - 1 + (2 * (k + 1) - 1) = (k + 1) * (k + 1) - 1) as E2 by lia.
  rewrite E1, E2.
  assert ((if k * k - 1 =? 0 then Ok fzero else truediv (k - 1) (k * k - 1))
          = Ok (if k * k - 1 =? 0 then fzero else ratio (F := F) (k - 1) (k * k - 1)))
    as ->.
  { destruct (Z.eqb_spec (k * k - 1) 0); [done|]. apply ratio_ok; nia. }
  cbn [mbind result_bind]. rewrite ratio_ok by nia. cbn [mbind result_bind].
  unfold set_stats. cbn [longform children]. do 3 f_equal.
  apply mkStats_ext; try done; lia.
Qed.

(** A later call, from a node that is not the root: the node was counted
    once more by the step before, and its child is counted by this one. *)
Lemma _add_loop_again path : ∀ prefix (n : nat) longforms,
  prefix ≠ [] →
  ∃ longforms',
    _add_loop path
      (mkTrieNode prefix
                  (Some (counted (chain_stats n prefix (bool_decide (path = [])))))
                  (chain n prefix path)) longforms
    = Ok (mkTrieNode prefix
            (Some (chain_stats (S n) prefix (bool_decide (path = []))))
            (chain (S n) prefix path), longforms').
Proof.
  induction path as [|token rest IH]; intros prefix n longforms Hne.
  - eexists. cbn [_add_loop chain]. rewrite bool_decide_eq_true_2 by done.
    by rewrite counted_leaf.
  - assert (prefix ++ [token] ≠ []) as Hne' by (by destruct prefix).
    cbn [_add_loop chain children]. rewrite lookup_singleton_eq.
    rewrite increment_chain_stats. cbn [mbind result_bind get_stats stats longform].
    destruct prefix as [|a l] eqn:E; [done|]. rewrite <- E in *.
    rewrite (bool_decide_eq_false_2 (token :: rest = [])) by done.
    replace (count (counted (chain_stats n (prefix ++ [token]) (bool_decide (rest = [])))))
      with (Z.of_nat n + 1 + 1) by (by destruct (bool_decide (rest = []))).
    rewrite update_chain_stats. cbn [mbind result_bind get_stats stats].
    edestruct (IH (prefix ++ [token]) n) as (lfs' & ->); [done|].
    cbn [mbind result_bind]. eexists. do 2 f_equal.
    unfold set_child. cbn [longform stats children]. f_equal.
    by rewrite insert_singleton_eq.
Qed.

(** A later call, from the root, which has no statistics to update. *)
Lemma _add_loop_again_root path (n : nat) longforms :
  ∃ longforms',
    _add_loop path (mkTrieNode [] None (chain n [] path)) longforms
    = Ok (mkTrieNode [] None (chain (S n) [] path), longforms').
Proof.
  destruct path as [|token rest]; [by eexists|].
  cbn [_add_loop chain children]. rewrite lookup_singleton_eq.
  rewrite increment_chain_stats. cbn [mbind result_bind get_stats stats longform].
  edestruct (_add_loop_again rest ([] ++ [token]) n) as (lfs' & ->); [done|].
  cbn [mbind result_bind]. eexists. do 2 f_equal.
  unfold set_child. cbn [longform stats children]. f_equal.
  by rewrite insert_singleton_eq.
Qed.

Lemma _add_chain_first tokens self :
  _internal_trie self = TrieNode_init [] →
  ∃ self', _add stem self (Some tokens) = Ok self' ∧
           _internal_trie self'
           = mkTrieNode [] None (chain 0 [] (rev (map stem tokens))).
Proof.
  intros Ht. cbn [_add]. rewrite Ht. unfold TrieNode_init.
  edestruct (_add_loop_first (rev (map stem tokens)) [] None) as (lfs' & ->).
  cbn [mbind result_bind]. by eexists.
Qed.

Lemma _add_chain_again tokens self (n : nat) :
  _internal_trie self = mkTrieNode [] None (chain n [] (rev (map stem tokens))) →
  ∃ self', _add stem self (Some tokens) = Ok self' ∧
           _internal_trie self'
           = mkTrieNode [] None (chain (S n) [] (rev (map stem tokens))).
Proof.
  intros Ht. cbn [_add]. rewrite Ht.
  edestruct (_add_loop_again_root (rev (map stem tokens)) n) as (lfs' & ->).
  cbn [mbind result_bind]. by eexists.
Qed.

Lemma add_times_chain_from tokens (m : nat) : ∀ self (n : nat),
  _internal_trie self = mkTrieNode [] None (chain n [] (rev (map stem tokens))) →
  ∃ self', add_times stem m tokens self = Ok self' ∧
           _internal_trie self'
           = mkTrieNode [] None (chain (n + m) [] (rev (map stem tokens))).
Proof.
  unfold add_times. induction m as [|m IH]; intros self n Ht.
  - exists self. split; [done|]. by rewrite Nat.add_0_r.
  - cbn [replicate for_each].
    destruct (_add_chain_again tokens self n Ht) as (self1 & -> & Ht1).
    cbn [mbind result_bind].
    destruct (IH self1 (S n)) as (self' & -> & Ht'); [done|].
    exists self'. split; [done|]. rewrite Ht'. do 2 f_equal. lia.
Qed.

(** [S n] calls on a new miner: every node of the path was observed again
    [n] times. *)
Lemma add_times_chain tokens shortform exclude (n : nat) :
  ∃ self,
    add_times stem (S n) tokens (ContinuousMiner_init shortform exclude) = Ok self ∧
    _internal_trie self = mkTrieNode [] None (chain n [] (rev (map stem tokens))).
Proof.
  unfold add_times. cbn [replicate for_each].
  destruct (_add_chain_first tokens (ContinuousMiner_init shortform exclude) eq_refl)
    as (self1 & -> & Ht1).
  cbn [mbind result_bind].
  destruct (add_times_chain_from tokens n self1 0) as (self' & Heq & Ht'); [done|].
  exists self'. by split.
Qed.

Lemma node_at_chain path : ∀ prefix s (n : nat) p node,
  node_at (mkTrieNode prefix s (chain n prefix path)) p = Some node →
  p ≠ [] →
  ∃ q, path = p ++ q ∧ longform node = prefix ++ p ∧
       stats node = Some (chain_stats n (prefix ++ p) (bool_decide (q = []))).
Proof.
  induction path as [|token rest IH]; intros prefix s n [|t p] node Hat Hne;
    try done.
  cbn [node_at children chain] in Hat.
  destruct (decide (token = t)) as [->|Hnt].
  - rewrite lookup_singleton_eq in Hat.
    destruct p as [|t' p'].
    + injection Hat as <-. by exists rest.
    + apply IH in Hat as (q & -> & Hl & Hs); [|done].
      exists q. rewrite <- app_assoc in Hl, Hs. by split.
  - by rewrite lookup_singleton_ne in Hat.
Qed.

Lemma node_at_chain_prefix path : ∀ prefix s (n : nat) p q,
  path = p ++ q → is_Some (node_at (mkTrieNode prefix s (chain n prefix path)) p).
Proof.
  induction path as [|token rest IH]; intros prefix s n [|t p] q Heq; try done.
  injection Heq as <- ->. cbn [node_at children chain].
  rewrite lookup_singleton_eq. by eapply IH.
Qed.

Lemma node_at_chain_iff path prefix s (n : nat) p :
  is_Some (node_at (mkTrieNode prefix s (chain n prefix path)) p) ↔ p `prefix_of` path.
Proof.
  split.
  - intros [node Hat]. destruct p as [|t p]; [by exists path|].
    apply node_at_chain in Hat as (q & -> & _); [|done]. by exists q.
  - intros [q ->]. by eapply node_at_chain_prefix.
Qed.

Lemma add_times_reachable (n : nat) tokens : ∀ self self',
  reachable stem self → add_times stem n tokens self = Ok self' →
  reachable stem self'.
Proof.
  unfold add_times. induction n as [|n IH]; intros self self' Hr; cbn [replicate for_each].
  - by intros [= <-].
  - destruct (_add stem self (Some tokens)) as [self1|e] eqn:E; [|done].
    cbn [mbind result_bind]. apply IH. by eapply reachable_add.
Qed.

(** ** Candidate extraction *)

Variable greek_alphabet : gmap string string.
Variable lower : string → string.

Lemma find_seq_none (f : nat → bool) (n : nat) : ∀ a,
  (∀ j, (a ≤ j < a + n)%nat → f j = false) → List.find f (seq a n) = None.
Proof.
  induction n as [|n IH]; intros a Hf; [done|].
  cbn [seq List.find]. rewrite Hf by lia. apply IH. intros j Hj. apply Hf. lia.
Qed.

Lemma find_seq_first (f : nat → bool) (n : nat) : ∀ a i,
  (a ≤ i < a + n)%nat → f i = true → (∀ j, (a ≤ j < i)%nat → f j = false) →
  List.find f (seq a n) = Some i.
Proof.
  induction n as [|n IH]; intros a i Hi Ht Hf; [lia|].
  cbn [seq List.find]. destruct (decide (a = i)) as [->|Hne].
  - by rewrite Ht.
  - rewrite Hf by lia. apply IH; [lia|done|]. intros j Hj. apply Hf. lia.
Qed.

(** The index the [for] loop returns at: the first place of the pattern,
    when a token follows it. *)
Lemma find_pattern_first shortform tokens index :
  (index + 3 < length tokens)%nat →
  pattern_at shortform tokens index = true →
  (∀ j, (j < index)%nat → pattern_at shortform tokens j = false) →
  find_pattern shortform tokens = Some index.
Proof.
  intros Hlen Hat Hfirst. unfold find_pattern.
  rewrite (find_seq_first _ _ 0%nat index); [done|lia|done|].
  intros j Hj. apply Hfirst. lia.
Qed.

(** C2, where the code departs from it.  When the first (and only) place of
    the pattern [( shortform )] is the end of the token list, the loop over
    [range(len(tokens) - 3)] stops one index short of it, and
    [_get_candidates] returns [None] instead of the tokens before the
    pattern. *)
Theorem _get_candidates_misses_final_pattern self tokens :
  (3 ≤ length tokens)%nat →
  pattern_at (shortform self) tokens (length tokens - 3) = true →
  (∀ j, (j < length tokens - 3)%nat → pattern_at (shortform self) tokens j = false) →
  _get_candidates greek_alphabet lower self tokens = None.
Proof.
  intros _ _ Hfirst. unfold _get_candidates, find_pattern.
  rewrite find_seq_none; [done|]. intros j Hj. apply Hfirst. lia.
Qed.

End MineFacts.

(* ===================================================================== *)
(** * The likelihood in exact arithmetic *)
(* ===================================================================== *)

Section ExactFacts.
Import Mine MineSpec.

Variable stem : string → string.

Lemma truediv_exact (a b : Z) :
  b ≠ 0 → truediv (F := R) a b = Ok (IZR a / IZR b)%R.
Proof. intros Hb. unfold truediv. by rewrite (proj2 (Z.eqb_neq b 0)). Qed.

Lemma ratio_exact (a b : Z) : b ≠ 0 → ratio (F := R) a b = (IZR a / IZR b)%R.
Proof. intros Hb. unfold ratio. by rewrite truediv_exact. Qed.

(** The penalty added [n] times is [n + 1] times the penalty. *)
Lemma added_LH_exact (lp : R) (n : nat) : added_LH lp n = (INR (S n) * lp)%R.
Proof.
  induction n as [|n IH].
  - cbn [added_LH]. simpl. lra.
  - cbn [added_LH fadd exact_arithmetic]. rewrite IH, (S_INR (S n)). lra.
Qed.

(** The likelihood of a node updated [n] times with its one child is the
    closed form of [chain_stats]. *)
Lemma updated_LH_exact (lp : R) (n : nat) :
  updated_LH lp n
  = (INR (S n) * lp
     - (if Z.of_nat n =? 0 then 0
        else IZR (Z.of_nat n) / IZR ((Z.of_nat n + 1) * (Z.of_nat n + 1) - 1)))%R.
Proof.
  induction n as [|n IH].
  - cbn [updated_LH]. simpl. lra.
  - cbn [updated_LH fadd fsub fzero exact_arithmetic]. rewrite IH, (S_INR (S n)).
    set (j := Z.of_nat n + 1).
    assert (Z.of_nat (S n) = j) as -> by lia.
    assert ((j =? 0) = false) as -> by lia.
    rewrite (ratio_exact j) by nia.
    destruct (Z.eqb_spec (Z.of_nat n) 0) as [E0|E0].
    + assert (j * j - 1 = 0) as E by nia. rewrite E. simpl. lra.
    + rewrite (proj2 (Z.eqb_neq (j * j - 1) 0)) by nia.
      rewrite ratio_exact by nia.
      assert (j - 1 = Z.of_nat n) as -> by lia. lra.
Qed.








End ExactFacts.

(* ===================================================================== *)
(** * The likelihood of a node *)
(* ===================================================================== *)

Section LikelihoodFacts.
Import Mine MineSpec.

Context {F : Type} {arith : Arith F} {laws : ArithLaws F}.
Variable stem : string → string.


(** C9.  [update_likelihood], called with a count of at least one on a node
    whose [sum_ft2] is not negative, does not divide by zero: [sum_ft2],
    incremented by [2 * count - 1], is positive afterwards, so that the
    division of the last statement is defined, and the old quotient is read
    as [0] when [sum_ft2] was zero.  In every arithmetic the call returns,
    with the likelihood the two quotients give, or raises [OverflowError],
    which it does not when [sum_ft] is at most [sum_ft2]; in exact
    arithmetic it returns. *)
Theorem update_likelihood_no_zero_division :
  (∀ (node : TrieNode F) st c,
     stats node = Some st → 0 ≤ sum_ft2 st → 1 ≤ c →
     0 < sum_ft2 st + (2 * c - 1) ∧
     (update_likelihood node c = Raise OverflowError ∨
      ∃ node' st' old new,
        update_likelihood node c = Ok node' ∧ stats node' = Some st' ∧
        sum_ft st' = sum_ft st + 1 ∧
        sum_ft2 st' = sum_ft2 st + (2 * c - 1) ∧
        (if sum_ft2 st =? 0 then Ok fzero else fdiv (sum_ft st) (sum_ft2 st)) = Ok old ∧
        fdiv (sum_ft st') (sum_ft2 st') = Ok new ∧
        LH st' = fsub (fadd (LH st) old) new) ∧
     (0 ≤ sum_ft st ≤ sum_ft2 st → is_Ok (update_likelihood node c))) ∧
  (∀ (node : TrieNode R) st c,
     stats node = Some st → 0 ≤ sum_ft2 st → 1 ≤ c →
     ∃ node' st',
       update_likelihood node c = Ok node' ∧ stats node' = Some st' ∧
       sum_ft st' = sum_ft st + 1 ∧
       sum_ft2 st' = sum_ft2 st + (2 * c - 1) ∧ 0 < sum_ft2 st' ∧
       LH st' = (LH st
                 + (if sum_ft2 st =? 0 then 0 else IZR (sum_ft st) / IZR (sum_ft2 st))
                 - IZR (sum_ft st') / IZR (sum_ft2 st'))%R ∧
       (sum_ft2 st = 0 →
        LH st' = (LH st + 0 - IZR (sum_ft st') / IZR (sum_ft2 st'))%R)).
Proof.
  split.
  - intros node st c Hs H2 Hc. split; [lia|].
    unfold update_likelihood, truediv. rewrite (get_stats_Some _ _ Hs).
    cbn [mbind result_bind].
    rewrite (proj2 (Z.eqb_neq (sum_ft2 st + (2 * c - 1)) 0)) by lia.
    assert ((if sum_ft2 st =? 0 then Ok fzero
             else if sum_ft2 st =? 0 then Raise ZeroDivisionError
                  else fdiv (sum_ft st) (sum_ft2 st))
            = (if sum_ft2 st =? 0 then Ok fzero else fdiv (sum_ft st) (sum_ft2 st)))
      as -> by (by destruct (sum_ft2 st =? 0)).
    split.
    + destruct (if sum_ft2 st =? 0 then _ else _) as [old|e] eqn:Hold.
      * cbn [mbind result_bind].
        destruct (fdiv (sum_ft st + 1) _) as [new|e] eqn:Hnew.
        -- right. eexists _, _, old, new. split; [done|]. by repeat split.
        -- left. cbn. by rewrite (fdiv_raises _ _ _ Hnew).
      * left. cbn. destruct (sum_ft2 st =? 0); [done|].
        by rewrite (fdiv_raises _ _ _ Hold).
    + intros Hle.
      assert (∃ old, (if sum_ft2 st =? 0 then Ok fzero
                      else fdiv (sum_ft st) (sum_ft2 st)) = Ok old) as [old ->].
      { destruct (Z.eqb_spec (sum_ft2 st) 0); [by eexists|]. apply fdiv_le; lia. }
      cbn [mbind result_bind].
      destruct (fdiv_le (sum_ft st + 1) (sum_ft2 st + (2 * c - 1))) as [new ->];
        [lia|lia|].
      by eexists.
  - intros node st c Hs H2 Hc. unfold update_likelihood, truediv.
    rewrite (get_stats_Some _ _ Hs).
    remember (2 * c - 1) as d eqn:Hd.
    assert ((sum_ft2 st + d =? 0) = false) as Hnz by lia.
    cbn [mbind result_bind fdiv fzero fadd fsub exact_arithmetic].
    destruct (sum_ft2 st =? 0) eqn:E0; cbn [mbind result_bind]; rewrite Hnz;
      cbn [mbind result_bind];
      (eexists _, _; split; [reflexivity|]; split; [reflexivity|]; simpl;
       repeat split; try done; try lia).
Qed.

(** C8, as the code has it.  Adding the same tokens [k >= 1] times to a new
    miner gives the nodes that adding them once gives: the root and one node
    for each non-empty prefix of the reversed stemmed tokens.  [increment_count]
    runs on every node of that path at every later call, so each of them,
    and not the last one alone, has [count = k].  The node of the whole
    sequence has no child: its [sum_ft] and [sum_ft2] stay [0] and its [LH] is
    [log(len(tokens))], added [k] times.  Every other node of the path has
    its statistics updated once at each of the [k - 1] later calls:
    [sum_ft = k - 1], [sum_ft2 = k * k - 1], and [LH] is what the additions
    of the penalty and of the old quotient and the subtractions of the new
    one leave.  In exact arithmetic these are [k * log(len(tokens))], and
    [k * log(len(longform))] minus the dispersion term. *)
Theorem repeated_add tokens shortform exclude (k : nat) :
  (1 ≤ k)%nat →
  let path := rev (map stem tokens) in
  (∃ self1 selfk : ContinuousMiner F,
    add_times stem 1 tokens (ContinuousMiner_init shortform exclude) = Ok self1 ∧
    add_times stem k tokens (ContinuousMiner_init shortform exclude) = Ok selfk ∧
    (∀ p, is_Some (node_at (_internal_trie selfk) p)
          ↔ is_Some (node_at (_internal_trie self1) p)) ∧
    (∀ p, is_Some (node_at (_internal_trie selfk) p) ↔ p `prefix_of` path) ∧
    (∀ p q node,
       path = p ++ q → p ≠ [] → node_at (_internal_trie selfk) p = Some node →
       ∃ st, stats node = Some st ∧ longform node = p ∧ count st = Z.of_nat k ∧
             (q = [] →
              sum_ft st = 0 ∧ sum_ft2 st = 0 ∧
              LH st = added_LH (flog (length tokens)) (k - 1)) ∧
             (q ≠ [] →
              sum_ft st = Z.of_nat k - 1 ∧
              sum_ft2 st = Z.of_nat k * Z.of_nat k - 1 ∧
              LH st = updated_LH (flog (length p)) (k - 1)))) ∧
  (∀ lp : R,
     added_LH lp (k - 1) = (INR k * lp)%R ∧
     ∀ st : Stats R,
       count st = Z.of_nat k → sum_ft st = Z.of_nat k - 1 →
       sum_ft2 st = Z.of_nat k * Z.of_nat k - 1 →
       updated_LH lp (k - 1) = (INR k * lp - dispersion st)%R).
Proof.
  intros Hk path. destruct k as [|k]; [lia|].
  replace (S k - 1)%nat with k by lia. split.
  - destruct (add_times_chain stem tokens shortform exclude 0) as (self1 & H1 & Ht1).
    destruct (add_times_chain stem tokens shortform exclude k) as (selfk & Hk' & Htk).
    exists self1, selfk. split; [done|]. split; [done|].
    rewrite Ht1, Htk. fold path. split; [|split].
    + intros p. by rewrite !node_at_chain_iff.
    + intros p. apply node_at_chain_iff.
    + intros p q node Hpath Hne Hat.
      apply node_at_chain in Hat as (q' & Hpath' & Hl & Hs); [|done].
      rewrite Hpath in Hpath'. apply app_inv_head in Hpath' as <-.
      eexists. split; [exact Hs|]. split; [done|]. cbn [app].
      split; [by destruct (bool_decide (q = [])); cbn; lia|].
      split; intros Hq.
      * rewrite bool_decide_eq_true_2 by done. cbn. repeat split.
        replace (length p) with (length tokens); [done|].
        subst q. rewrite app_nil_r in Hpath. subst p. unfold path.
        by rewrite length_rev, length_map.
      * rewrite bool_decide_eq_false_2 by done. cbn. repeat split; lia.
  - intros lp. split; [apply added_LH_exact|].
    intros st Hc Hf Hf2. rewrite updated_LH_exact. unfold dispersion.
    rewrite Hf, Hf2. f_equal.
    assert (Z.of_nat (S k) - 1 = Z.of_nat k) as -> by lia.
    assert (Z.of_nat (S k) = Z.of_nat k + 1) as -> by lia.
    destruct (Z.eqb_spec (Z.of_nat k) 0) as [E|E].
    + rewrite E. done.
    + by rewrite (proj2 (Z.eqb_neq ((Z.of_nat k + 1) * (Z.of_nat k + 1) - 1) 0)) by nia.
Qed.

End LikelihoodFacts.

Section MineExamples.
Import PrimFloat Mine MineSpec.

#[local] Existing Instance Binary64.table_arithmetic.

(** For two calls with the tokens [a b], under the stemmer that changes no
    token, in the arithmetic of the code. *)
Lemma repeated_add_witness :
  ∃ (self2 : ContinuousMiner PrimFloat.float) node st,
    add_times (λ s, s) 2 ["a"; "b"]%string (ContinuousMiner_init "AB" None) = Ok self2 ∧
    node_at (_internal_trie self2) ["b"; "a"]%string = Some node ∧
    stats node = Some st ∧ count st = 2 ∧
    LH st = PrimFloat.add (Binary64.log_table 2) (Binary64.log_table 2).
Proof.
  destruct (proj1 (repeated_add (F := PrimFloat.float) (λ s, s) ["a"; "b"]%string
                     "AB" None 2 ltac:(lia)))
    as (self1 & self2 & _ & H2 & _ & Hnodes & Hstats).
  destruct (proj2 (Hnodes ["b"; "a"]%string)) as [node Hat]; [done|].
  destruct (Hstats ["b"; "a"]%string [] node eq_refl ltac:(done) Hat)
    as (st & Hs & _ & Hc & Hleaf & _).
  destruct (Hleaf eq_refl) as (_ & _ & HLH).
  exists self2, node, st. repeat split; done.
Defined.

(** After one call with the tokens [a b] the node of [b] has [count = 1];
    after two calls it has [count = 2], although it is not the node of the
    whole sequence. *)
Lemma repeated_add_counts_every_suffix :
  ∃ (self1 self2 : ContinuousMiner PrimFloat.float) node1 node2 st1 st2,
    add_times (λ s, s) 1 ["a"; "b"]%string (ContinuousMiner_init "AB" None) = Ok self1 ∧
    add_times (λ s, s) 2 ["a"; "b"]%string (ContinuousMiner_init "AB" None) = Ok self2 ∧
    node_at (_internal_trie self1) ["b"%string] = Some node1 ∧
    node_at (_internal_trie self2) ["b"%string] = Some node2 ∧
    stats node1 = Some st1 ∧ stats node2 = Some st2 ∧
    ["b"%string] ≠ rev (map (λ s, s) ["a"; "b"]%string) ∧
    count st1 = 1 ∧ count st2 = 2.
Proof.
  destruct (add_times_chain (F := PrimFloat.float) (λ s, s) ["a"; "b"]%string "AB" None 0)
    as (self1 & H1 & Ht1).
  destruct (add_times_chain (F := PrimFloat.float) (λ s, s) ["a"; "b"]%string "AB" None 1)
    as (self2 & H2 & Ht2).
  exists self1, self2. rewrite Ht1, Ht2.
  eexists _, _, _, _. repeat split; try done.
Qed.

(** Six calls with three tokens, in the arithmetic of the code: the
    likelihood of the node of the whole sequence, [log(3)] added six times,
    is not [6 * log(3)]. *)
Example repeated_add_rounds :
  ∃ p, Binary64.int_mul 6 (Binary64.log_table 3) = Ok p ∧
       added_LH (Binary64.log_table 3) 5 = 0x1.a5ddfb8038491p+2%float ∧
       p = 0x1.a5ddfb8038490p+2%float ∧
       PrimFloat.eqb (added_LH (Binary64.log_table 3) 5) p = false.
Proof. eexists. repeat split; vm_compute; reflexivity. Qed.



(** In the arithmetic of the code, and in exact arithmetic. *)
Lemma update_likelihood_no_zero_division_witness :
  is_Ok (update_likelihood
           (mkTrieNode ["a"%string]
              (Some (mkStats 2 0 0 (Binary64.log_table 1) (Binary64.log_table 1))) ∅) 2) ∧
  ∃ node',
    update_likelihood (mkTrieNode ["a"%string] (Some (mkStats 2 0 0 0%R 0%R)) ∅) 2
    = Ok node'.
Proof.
  split.
  - refine (proj2 (proj2 (proj1 (update_likelihood_no_zero_division (F := PrimFloat.float))
                            (mkTrieNode ["a"%string]
                               (Some (mkStats 2 0 0 (Binary64.log_table 1)
                                        (Binary64.log_table 1))) ∅)
                            _ 2 eq_refl _ _)) _); simpl; lia.
  - destruct (proj2 (update_likelihood_no_zero_division (F := R))
                (mkTrieNode ["a"%string] (Some (mkStats 2 0 0 0%R 0%R)) ∅)
                (mkStats 2 0 0 0%R 0%R) 2 eq_refl ltac:(simpl; lia) ltac:(lia))
      as (node' & st' & H & _).
    by exists node'.
Defined.

(** The sentence [estrogen receptor (ER)], without a full stop. *)
Lemma _get_candidates_misses_final_pattern_witness :
  _get_candidates ∅ (λ s, s) (ContinuousMiner_init (F := PrimFloat.float) "ER" None)
    ["estrogen"; "receptor"; "("; "ER"; ")"]%string = None.
Proof.
  apply _get_candidates_misses_final_pattern; [simpl; lia|reflexivity|].
  intros [|[|j]] Hj; [reflexivity..|simpl in Hj; lia].
Defined.

(** The same sentence with its full stop: the candidate is found. *)
Example _get_candidates_with_full_stop :
  _get_candidates ∅ (λ s, s) (ContinuousMiner_init (F := PrimFloat.float) "ER" None)
    ["estrogen"; "receptor"; "("; "ER"; ")"; "."]%string
  = Some ["estrogen"; "receptor"]%string.
Proof. vm_compute. reflexivity. Qed.

End MineExamples.

(** ** The table of longforms and the shape of the trie *)

Section TableFacts.
Import Mine MineSpec TableSpec.

Context {F : Type} {arith : Arith F} {laws : ArithLaws F}.
Variable stem : string → string.
Implicit Types (node current child new : TrieNode F) (st : Stats F).
Implicit Types (self : ContinuousMiner F) (longforms lfs : gmap (list string) F).

Lemma rev_app_ne (path p q : list string) : p ≠ q → rev (path ++ p) ≠ rev (path ++ q).
Proof.
  intros Hne Heq. apply Hne. apply (f_equal (@rev string)) in Heq.
  rewrite !rev_involutive in Heq. by apply app_inv_head in Heq.
Qed.

Lemma rev_path_ne (path : list string) t p : rev path ≠ rev (path ++ t :: p).
Proof.
  rewrite <- (app_nil_r path) at 1. by apply rev_app_ne.
Qed.

Lemma table_ok_init path token longforms st :
  stats (TrieNode_init (path ++ [token])) = Some st →
  table_ok (path ++ [token]) (TrieNode_init (path ++ [token]))
           (<[rev (path ++ [token]) := LH st]> longforms).
Proof.
  intros Hs [|t p] n st'; simpl.
  - intros [= <-] Hs'. rewrite Hs in Hs'. injection Hs' as <-.
    by rewrite app_nil_r, lookup_insert_eq.
  - by rewrite lookup_empty.
Qed.

(** What one run of the loop of [_add] does, from a node at [path]: it
    returns; the trie and the table stay as they should be; the table
    changes only under the longforms that extend [path]; the nodes that
    were there stay, and there is a node for every prefix of the tokens. *)
Lemma _add_loop_full tokens : ∀ path current longforms,
  subtrie_ok path current →
  table_ok path current longforms →
  ∃ current' longforms',
    _add_loop tokens current longforms = Ok (current', longforms') ∧
    subtrie_ok path current' ∧
    table_ok path current' longforms' ∧
    (∀ key, (∀ p, key ≠ rev (path ++ p)) → longforms' !! key = longforms !! key) ∧
    (∀ p, is_Some (node_at current p) → is_Some (node_at current' p)) ∧
    (∀ p, p `prefix_of` tokens → is_Some (node_at current' p)).
Proof.
  induction tokens as [|token rest IH]; intros path current longforms Hok Htab.
  - exists current, longforms. do 5 (split; [done|]).
    intros p [q Hq]. symmetry in Hq. apply app_eq_nil in Hq as [-> _]. by eexists.
  - pose proof (Hok [] current eq_refl) as Hcur. rewrite app_nil_r in Hcur.
    pose proof Hcur as (Hlf & _ & _).
    assert (path ++ [token] ≠ []) as Hne by (by destruct path).
    cbn [_add_loop]. destruct (children current !! token) as [child|] eqn:Hch.
    + assert (subtrie_ok (path ++ [token]) child) as Hchild.
      { intros p n Hp. rewrite <- app_assoc. apply Hok. simpl. by rewrite Hch. }
      pose proof (Hchild [] child eq_refl) as Hc0. rewrite app_nil_r in Hc0.
      destruct (increment_count_ok _ _ Hne Hc0)
        as (child1 & -> & Hok1 & Hch1 & st & st1 & Hs & Hs1 & Hcnt).
      cbn [mbind result_bind]. rewrite (get_stats_Some _ _ Hs1).
      cbn [mbind result_bind].
      assert (subtrie_ok (path ++ [token]) child1) as Hsub1
        by (by eapply subtrie_ok_same_children).
      assert (longform child1 = path ++ [token]) as Hlf1 by apply Hok1.
      assert (1 ≤ count st1) as Hc1.
      { destruct Hc0 as (_ & _ & H0). destruct (H0 Hne) as (st0 & Hs0 & ? & _).
        rewrite Hs in Hs0. injection Hs0 as <-. lia. }
      (* the parent, and the table, after the update of the parent *)
      match goal with
      | |- ∃ _ _, (?m ≫= _) = _ ∧ _ => set (upd := m)
      end.
      assert (∃ current1 lfs1,
                upd = Ok (current1, lfs1) ∧
                node_ok path current1 ∧ children current1 = children current ∧
                (∀ st', stats current1 = Some st' → lfs1 !! rev path = Some (LH st')) ∧
                lfs1 !! rev (path ++ [token]) = Some (LH st1) ∧
                (∀ key, key ≠ rev path → key ≠ rev (path ++ [token]) →
                        lfs1 !! key = longforms !! key))
        as (current1 & lfs1 & Hupd & Hcok1 & Hcch1 & Hown & Hchildkey & Hframe1).
      { subst upd. destruct (longform current) as [|a l] eqn:Hlc.
        - eexists _, _. split; [done|]. split; [done|]. split; [done|].
          rewrite Hlf1. split; [|split].
          + intros st' Hst'. destruct Hcur as (_ & Hroot & _).
            rewrite Hroot in Hst'; [done|]. by rewrite <- Hlf.
          + by rewrite lookup_insert_eq.
          + intros key _ Hk. by rewrite lookup_insert_ne.
        - assert (path ≠ []) as Hpne by (rewrite <- Hlf; done).
          cbn [mbind result_bind].
          destruct (update_likelihood_ok path current (count st1) Hpne Hcur Hc1)
            as (current1 & -> & Hcok1 & Hcch1). cbn [mbind result_bind].
          pose proof Hcok1 as (Hl1 & _ & Hst1).
          destruct (Hst1 Hpne) as (cst & Hcs & _).
          rewrite (get_stats_Some _ _ Hcs). cbn [mbind result_bind].
          eexists _, _. split; [done|]. split; [done|]. split; [done|].
          rewrite Hl1, Hlf1. split; [|split].
          + intros st' Hst'. rewrite Hcs in Hst'. injection Hst' as <-.
            by rewrite lookup_insert_eq.
          + rewrite lookup_insert_ne by apply rev_path_ne.
            by rewrite lookup_insert_eq.
          + intros key Hk1 Hk2. by rewrite !lookup_insert_ne. }
      rewrite Hupd. clear upd Hupd. cbn [mbind result_bind].
      assert (table_ok (path ++ [token]) child1 lfs1) as Htab1.
      { intros [|t p] n st' Hat Hst'.
        - injection Hat as <-. rewrite Hs1 in Hst'. injection Hst' as <-.
          by rewrite app_nil_r.
        - rewrite Hframe1.
          + rewrite <- app_assoc. apply (Htab (token :: t :: p) n st'); [|done].
            rewrite node_at_cons, Hch. cbn [mbind option_bind].
            rewrite node_at_cons in Hat |- *. by rewrite Hch1 in Hat.
          + rewrite <- app_assoc. apply not_eq_sym, rev_path_ne.
          + apply not_eq_sym, rev_path_ne. }
      destruct (IH (path ++ [token]) child1 lfs1 Hsub1 Htab1)
        as (child' & lfs' & -> & Hsub' & Htab' & Hframe' & Hkeep' & Hpre').
      cbn [mbind result_bind]. eexists _, _. split; [done|].
      assert (subtrie_ok path current1) as Hsubc1.
      { eapply subtrie_ok_same_children; [done|done|done]. }
      split; [by apply subtrie_ok_set_child|]. split; [|split; [|split]].
      * intros [|t p] n st' Hat Hst'.
        -- injection Hat as <-. rewrite app_nil_r.
           rewrite Hframe'; [by apply Hown|].
           intros p. rewrite <- app_assoc. apply rev_path_ne.
        -- rewrite node_at_set_child in Hat.
           destruct (decide (token = t)) as [<-|Hnt].
           ++ specialize (Htab' p n st' Hat Hst'). by rewrite <- app_assoc in Htab'.
           ++ rewrite Hframe', Hframe1.
              ** apply (Htab (t :: p) n st'); [|done].
                 rewrite node_at_cons, Hcch1 in Hat. by rewrite node_at_cons.
              ** apply not_eq_sym, rev_path_ne.
              ** apply rev_app_ne. intros [= -> _]. done.
              ** intros q. rewrite <- app_assoc. apply rev_app_ne.
                 intros [= -> _]. done.
      * intros key Hkey. rewrite Hframe', Hframe1; [done| | |].
        -- specialize (Hkey []). by rewrite app_nil_r in Hkey.
        -- apply Hkey.
        -- intros q. rewrite <- app_assoc. apply Hkey.
      * intros [|t p] Hp; [by eexists|]. rewrite node_at_set_child.
        destruct (decide (token = t)) as [<-|Hnt].
        -- apply Hkeep'. rewrite node_at_cons, Hch in Hp. cbn in Hp.
           destruct p as [|t' p]; [by eexists|].
           rewrite node_at_cons, Hch1. by rewrite node_at_cons in Hp.
        -- rewrite node_at_cons, Hcch1. by rewrite node_at_cons in Hp.
      * intros [|t p] Hp; [by eexists|]. rewrite node_at_set_child.
        destruct Hp as [q Hq]. injection Hq as <- ->.
        rewrite decide_True by done. apply Hpre'. by exists q.
    + rewrite Hlf.
      pose proof (subtrie_ok_init path token) as Hnew.
      pose proof (Hnew [] _ eq_refl) as (_ & _ & Hst0).
      destruct Hst0 as (st0 & Hs0 & _); [by destruct path|].
      rewrite (get_stats_Some _ _ Hs0). cbn [mbind result_bind].
      assert (longform (TrieNode_init (path ++ [token])) = path ++ [token]) as ->
        by done.
      destruct (IH (path ++ [token]) (TrieNode_init (path ++ [token]))
                   (<[rev (path ++ [token]) := LH st0]> longforms) Hnew
                   (table_ok_init path token longforms st0 Hs0))
        as (new' & lfs' & -> & Hsub' & Htab' & Hframe' & Hkeep' & Hpre').
      cbn [mbind result_bind]. eexists _, _. split; [done|].
      split; [by apply subtrie_ok_set_child|]. split; [|split; [|split]].
      * intros [|t p] n st' Hat Hst'.
        -- injection Hat as <-. rewrite app_nil_r.
           rewrite Hframe'.
           ++ rewrite lookup_insert_ne by apply not_eq_sym, rev_path_ne.
              rewrite <- (app_nil_r path) at 1. by apply (Htab [] current st').
           ++ intros p. rewrite <- app_assoc. apply rev_path_ne.
        -- rewrite node_at_set_child in Hat.
           destruct (decide (token = t)) as [<-|Hnt].
           ++ specialize (Htab' p n st' Hat Hst'). by rewrite <- app_assoc in Htab'.
           ++ rewrite Hframe'.
              ** rewrite lookup_insert_ne; [by apply (Htab (t :: p) n st')|].
                 apply rev_app_ne. intros [= -> _]. done.
              ** intros q. rewrite <- app_assoc. apply rev_app_ne.
                 intros [= -> _]. done.
      * intros key Hkey. rewrite Hframe'.
        -- rewrite lookup_insert_ne; [done|]. apply not_eq_sym, Hkey.
        -- intros q. rewrite <- app_assoc. apply Hkey.
      * intros [|t p] Hp; [by eexists|]. rewrite node_at_set_child.
        destruct (decide (token = t)) as [<-|Hnt]; [|done].
        rewrite node_at_cons, Hch in Hp. by destruct Hp.
      * intros [|t p] Hp; [by eexists|]. rewrite node_at_set_child.
        destruct Hp as [q Hq]. injection Hq as <- ->.
        rewrite decide_True by done. apply Hpre'. by exists q.
Qed.

Lemma reachable_full self :
  reachable stem self →
  subtrie_ok [] (_internal_trie self) ∧
  table_ok [] (_internal_trie self) (_longforms self).
Proof.
  induction 1 as [sf ex|self tokens self' _ [IHok IHtab] Hadd].
  - split; [apply subtrie_ok_root|].
    intros [|t p] n st; simpl; [by intros [= <-]|by rewrite lookup_empty].
  - destruct tokens as [tokens|]; [|done]. cbn [_add] in Hadd.
    destruct (_add_loop_full (rev (map stem tokens)) [] (_internal_trie self)
                (_longforms self) IHok IHtab)
      as (trie' & lfs' & Heq & Hok & Htab & _).
    rewrite Heq in Hadd. cbn [mbind result_bind] in Hadd. by injection Hadd as <-.
Qed.

(** The table of longforms mirrors the trie: after any sequence of [_add]
    calls, the likelihood of every node but the root is the value the table
    holds under the longform of the node, in forward order. *)
Theorem longforms_mirror_trie self path node st :
  reachable stem self →
  node_at (_internal_trie self) path = Some node →
  stats node = Some st →
  longform node = path ∧ _longforms self !! rev path = Some (LH st).
Proof.
  intros Hr Hat Hs. destruct (reachable_full self Hr) as [Hok Htab]. split.
  - apply (Hok path node Hat).
  - by apply (Htab path node st).
Qed.

(** The trie is closed under suffixes: after [_add] took a list of tokens,
    there is a node for every suffix of the stemmed tokens, at the path that
    reads the suffix backwards; and every node that was there before is
    there after. *)
Theorem _add_suffix_closed self tokens self' :
  reachable stem self →
  _add stem self (Some tokens) = Ok self' →
  (∀ s, s `suffix_of` map stem tokens →
        is_Some (node_at (_internal_trie self') (rev s))) ∧
  (∀ p, is_Some (node_at (_internal_trie self) p) →
        is_Some (node_at (_internal_trie self') p)).
Proof.
  intros Hr Hadd. destruct (reachable_full self Hr) as [Hok Htab].
  cbn [_add] in Hadd.
  destruct (_add_loop_full (rev (map stem tokens)) [] (_internal_trie self)
              (_longforms self) Hok Htab)
    as (trie' & lfs' & Heq & _ & _ & _ & Hkeep & Hpre).
  rewrite Heq in Hadd. cbn [mbind result_bind] in Hadd. injection Hadd as <-.
  split; [|done]. intros s [q Hq]. apply Hpre. exists (rev q).
  by rewrite Hq, rev_app_distr.
Qed.

End TableFacts.

Section TableExamples.
Import Mine MineSpec TableSpec.

#[local] Existing Instance Binary64.table_arithmetic.

Lemma _add_total_witness :
  is_Ok (_add (λ s, s) (ContinuousMiner_init (F := PrimFloat.float) "AB" None) (Some ["a"; "b"]%string)).
Proof. apply _add_total. apply reachable_init. Defined.

Lemma longforms_mirror_trie_witness :
  ∃ (self : ContinuousMiner PrimFloat.float) node st,
    node_at (_internal_trie self) ["b"%string] = Some node ∧
    stats node = Some st ∧
    _longforms self !! ["b"%string] = Some (LH st).
Proof.
  destruct (add_times_chain (F := PrimFloat.float) (λ s, s) ["a"; "b"]%string "AB" None 1)
    as (self & Hadd & Ht).
  assert (reachable (λ s, s) self) as Hr.
  { eapply add_times_reachable; [apply reachable_init|exact Hadd]. }
  assert (∃ node st, node_at (_internal_trie self) ["b"%string] = Some node ∧
                     stats node = Some st) as (node & st & Hat & Hs).
  { rewrite Ht. by eexists _, _. }
  exists self, node, st. split; [done|]. split; [done|].
  exact (proj2 (longforms_mirror_trie (λ s, s) self ["b"%string] node st Hr Hat Hs)).
Defined.

Lemma _add_suffix_closed_witness :
  ∃ self',
    _add (λ s, s) (ContinuousMiner_init (F := PrimFloat.float) "AB" None) (Some ["a"; "b"]%string) = Ok self' ∧
    is_Some (node_at (_internal_trie self') ["b"%string]).
Proof.
  destruct (_add_chain_first (λ s, s) ["a"; "b"]%string
              (ContinuousMiner_init (F := PrimFloat.float) "AB" None) eq_refl) as (self' & Hadd & _).
  exists self'. split; [done|].
  refine (proj1 (_add_suffix_closed (λ s, s) _ ["a"; "b"]%string self'
                   (reachable_init _ _ _) Hadd) ["b"%string] _).
  by exists ["a"%string].
Defined.

End TableExamples.

(* ===================================================================== *)
(** * The recognition trie of [adeft/recognize.py] *)
(* ===================================================================== *)

Section TrieFacts.
Import Recognize RecognizeSpec.

Variable stem : string → string.
Context {span : Type}.
Variable tokenize : string → list (string * span).

Lemma set_child_same (node child : _TrieNode) token :
  children node !! token = Some child → set_child node token child = node.
Proof.
  intros Hc. destruct node as [lf cs]. unfold set_child. simpl in *.
  by rewrite insert_id.
Qed.

Lemma rnode_at_cons node token rest :
  node_at node (token :: rest) = children node !! token ≫= λ c, node_at c rest.
Proof. simpl. by destruct (children node !! token). Qed.

Lemma rnode_at_set_child node token child t p :
  node_at (set_child node token child) (t :: p) =
  if decide (token = t) then node_at child p else node_at node (t :: p).
Proof.
  simpl. rewrite lookup_insert. by destruct (decide (token = t)).
Qed.

(** A longform whose whole path exists already changes nothing. *)
Lemma insert_edges_existing lf edges : ∀ current,
  is_Some (node_at current edges) → insert_edges lf edges current = current.
Proof.
  induction edges as [|token rest IH]; intros current Hat; [done|].
  simpl in *. destruct (children current !! token) as [child|] eqn:Hc.
  - rewrite IH by done. by apply set_child_same.
  - by destruct Hat.
Qed.

(** The nodes that exist are kept by an insertion, with their longform. *)
Lemma insert_edges_node_kept lf edges : ∀ current p node,
  node_at current p = Some node →
  ∃ node', node_at (insert_edges lf edges current) p = Some node' ∧
           longform node' = longform node.
Proof.
  induction edges as [|token rest IH]; intros current p node Hat.
  - by exists node.
  - destruct p as [|t p].
    + injection Hat as <-. simpl.
      destruct (children current !! token); by eexists.
    + cbn [insert_edges]. destruct (children current !! token) as [child|] eqn:Hc;
        rewrite rnode_at_set_child; destruct (decide (token = t)) as [->|Hne];
        try (by exists node); simpl in Hat; rewrite Hc in Hat; [by apply IH|done].
Qed.

(** No insertion changes the longform of a node that exists. *)
Lemma insert_edges_keeps_longform lf edges : ∀ current p node,
  node_at current p = Some node →
  ∃ node', node_at (insert_edges lf edges current) p = Some node' ∧
           longform node' = longform node.
Proof.
  induction edges as [|token rest IH]; intros current p node Hat.
  - by exists node.
  - destruct p as [|t p].
    + injection Hat as <-. simpl.
      destruct (children current !! token); by eexists.
    + cbn [insert_edges]. destruct (children current !! token) as [child|] eqn:Hc.
      * rewrite rnode_at_set_child. destruct (decide (token = t)) as [->|Hne].
        -- simpl in Hat. rewrite Hc in Hat. by apply IH.
        -- by exists node.
      * rewrite rnode_at_set_child. destruct (decide (token = t)) as [->|Hne].
        -- simpl in Hat. by rewrite Hc in Hat.
        -- by exists node.
Qed.




(** ** The search *)

Lemma search_loop_hit edges : ∀ current n node lf,
  node_at current (take (S n) edges) = Some node →
  (n < length edges)%nat →
  longform node = Some lf →
  (∀ m, (m < n)%nat →
        ∃ c, node_at current (take (S m) edges) = Some c ∧ longform c = None) →
  search_loop current edges = Some lf.
Proof.
  induction edges as [|token rest IH]; intros current n node lf Hat Hn Hlf Hbefore.
  - simpl in Hn. lia.
  - cbn [firstn node_at search_loop] in *.
    destruct (children current !! token) as [child|] eqn:Hc; [|done].
    destruct n as [|n].
    + rewrite take_0 in Hat. injection Hat as ->. by rewrite Hlf.
    + destruct (Hbefore 0%nat) as (c & Hc0 & Hnone); [lia|].
      rewrite take_0 in Hc0. injection Hc0 as <-.
      rewrite Hnone. apply (IH child n node lf); [done|simpl in Hn; lia|done|].
      intros m Hm. destruct (Hbefore (S m)) as (c' & Hc' & Hnone'); [lia|].
      by exists c'.
Qed.

Lemma search_loop_absent edges : ∀ current n,
  node_at current (take (S n) edges) = None →
  (∀ m, (m < n)%nat →
        ∃ c, node_at current (take (S m) edges) = Some c ∧ longform c = None) →
  search_loop current edges = None.
Proof.
  induction edges as [|token rest IH]; intros current n Hat Hbefore; [done|].
  cbn [firstn node_at search_loop] in *.
  destruct (children current !! token) as [child|] eqn:Hc; [|done].
  destruct n as [|n].
  - by rewrite take_0 in Hat.
  - destruct (Hbefore 0%nat) as (c & Hc0 & Hnone); [lia|].
    rewrite take_0 in Hc0. injection Hc0 as <-.
    rewrite Hnone. apply (IH child n); [done|].
    intros m Hm. destruct (Hbefore (S m)) as (c' & Hc' & Hnone'); [lia|].
    by exists c'.
Qed.

Lemma search_loop_exhausted edges : ∀ current,
  (∀ m, (m < length edges)%nat →
        ∃ c, node_at current (take (S m) edges) = Some c ∧ longform c = None) →
  search_loop current edges = None.
Proof.
  induction edges as [|token rest IH]; intros current Hall; [done|].
  cbn [search_loop].
  destruct (Hall 0%nat) as (c & Hc0 & Hnone); [simpl; lia|].
  cbn [firstn node_at] in Hc0.
  destruct (children current !! token) as [child|] eqn:Hc; [|done].
  rewrite take_0 in Hc0. injection Hc0 as <-. rewrite Hnone. apply IH.
  intros m Hm. destruct (Hall (S m)) as (c' & Hc' & Hnone'); [simpl; lia|].
  cbn [firstn node_at] in Hc'. rewrite Hc in Hc'. by exists c'.
Qed.

(** C4.  [_search] walks the trie along the stemmed tokens in reverse
    order, from the token next to the shortform outward.  It returns the
    longform of the first node on the way that has one, whatever the trie
    holds below it; it returns [None] when a child is missing before such a
    node is reached, and when the tokens end before one is reached. *)
Theorem _search_first_longform_wins (self : AdeftRecognizer) tokens :
  let edges := map stem (rev tokens) in
  let on_the_way n :=
    ∀ m, (m < n)%nat →
         ∃ c, node_at (_trie self) (take (S m) edges) = Some c ∧ longform c = None in
  (∀ n node lf,
     (n < length edges)%nat →
     node_at (_trie self) (take (S n) edges) = Some node →
     longform node = Some lf → on_the_way n →
     AdeftRecognizer_search stem self tokens = Some lf) ∧
  (∀ n,
     node_at (_trie self) (take (S n) edges) = None → on_the_way n →
     AdeftRecognizer_search stem self tokens = None) ∧
  (on_the_way (length edges) → AdeftRecognizer_search stem self tokens = None).
Proof.
  intros edges on_the_way. unfold AdeftRecognizer_search. fold edges.
  split; [|split].
  - intros n node lf Hn Hat Hlf Hway. by eapply search_loop_hit.
  - intros n Hat Hway. by eapply search_loop_absent.
  - apply search_loop_exhausted.
Qed.

(** ** The trie of a single longform *)

Lemma insert_edges_fresh lf edges : ∀ o,
  insert_edges lf edges (mk_TrieNode o ∅) = mk_TrieNode o (single_path lf edges).
Proof.
  induction edges as [|token rest IH]; intros o; [done|].
  cbn [insert_edges children]. rewrite lookup_empty.
  unfold _TrieNode_init. destruct rest; by rewrite IH.
Qed.

Lemma node_at_single_path lf p : ∀ q o,
  is_Some (node_at (mk_TrieNode o (single_path lf (p ++ q))) p).
Proof.
  induction p as [|t p IH]; intros q o; [done|].
  cbn [app single_path node_at children]. rewrite lookup_singleton_eq. apply IH.
Qed.

Lemma search_loop_single_path lf edges : ∀ o more,
  edges ≠ [] →
  search_loop (mk_TrieNode o (single_path lf edges)) (edges ++ more) = Some lf.
Proof.
  induction edges as [|t rest IH]; intros o more Hne; [done|].
  cbn [app single_path search_loop children]. rewrite lookup_singleton_eq.
  destruct rest as [|t' rest]; [done|]. cbn [longform]. by apply IH.
Qed.

Lemma search_loop_single_path_only lf edges : ∀ o tokens r,
  search_loop (mk_TrieNode o (single_path lf edges)) tokens = Some r → r = lf.
Proof.
  induction edges as [|t rest IH]; intros o [|token tokens] r; try done.
  cbn [single_path search_loop children].
  destruct (decide (t = token)) as [->|Hne].
  - rewrite lookup_singleton_eq. destruct rest as [|t' rest]; cbn [longform].
    + by intros [= <-].
    + apply IH.
  - by rewrite lookup_singleton_ne.
Qed.

(** ** Leaf precedence *)

Variable get_candidate_fragments : string → string → option Z → list string.
Variable get_candidate : string → gset string → list string.

Lemma edges_of_tokens lf tokens :
  map fst (tokenize lf) = tokens →
  edges_of stem tokenize lf = rev (map stem tokens).
Proof. intros <-. unfold edges_of. by rewrite map_map. Qed.

Lemma nfkb_trie :
  map fst (tokenize "nuclear factor kappa b") = nfkb_tokens →
  map fst (tokenize "factor kappa b") = tail nfkb_tokens →
  _init_trie stem tokenize nfkb_map
  = mk_TrieNode None (single_path "nuclear factor kappa b"
                                  (rev (map stem nfkb_tokens))).
Proof.
  intros H1 H2. unfold _init_trie, nfkb_map. cbn [fold_left fst].
  rewrite (edges_of_tokens _ _ H1), (edges_of_tokens _ _ H2).
  unfold _TrieNode_init. rewrite insert_edges_fresh.
  apply insert_edges_existing.
  change (rev (map stem nfkb_tokens))
    with (rev (map stem (tail nfkb_tokens)) ++ [stem "nuclear"]).
  apply node_at_single_path.
Qed.

Lemma recognize_step_nfkb acc fragment :
  map fst (tokenize "nuclear factor kappa b") = nfkb_tokens →
  map fst (tokenize "factor kappa b") = tail nfkb_tokens →
  acc ⊆ {["G1"%string]} →
  ∃ acc',
    recognize_step (H := AdeftRecognizer_methods stem) get_candidate
      (AdeftRecognizer_init stem tokenize "NFKB" nfkb_map None None) acc fragment
    = Ok acc' ∧
    acc ⊆ acc' ∧ acc' ⊆ {["G1"%string]} ∧
    (fragment ≠ ""%string →
     (∃ pre, get_candidate fragment ∅ = pre ++ nfkb_tokens) →
     acc' = {["G1"%string]}).
Proof.
  intros H1 H2 Hacc. unfold recognize_step.
  destruct (bool_decide (fragment = ""%string)) eqn:Hf.
  - apply bool_decide_eq_true in Hf. exists acc. by repeat split.
  - apply bool_decide_eq_false in Hf.
    cbn [_search _post_process base AdeftRecognizer_methods mbind result_bind
         AdeftRecognizer_init adeft_base grounding_map BaseRecognizer_init exclude].
    unfold AdeftRecognizer_search.
    change (_trie (AdeftRecognizer_init stem tokenize "NFKB" nfkb_map None None))
      with (_init_trie stem tokenize nfkb_map).
    rewrite (nfkb_trie H1 H2).
    destruct (search_loop _ _) as [lf|] eqn:Hs.
    + apply search_loop_single_path_only in Hs as ->.
      exists ({["G1"%string]} ∪ acc). split; [done|]. repeat split; set_solver.
    + exists acc. repeat split; [done..|].
      intros _ [pre Hpre]. rewrite Hpre, rev_app_distr, map_app in Hs.
      rewrite map_rev, search_loop_single_path in Hs; [done|].
      by destruct (rev (map stem nfkb_tokens)) eqn:E.
Qed.

Lemma for_each_recognize_nfkb fragments : ∀ acc,
  map fst (tokenize "nuclear factor kappa b") = nfkb_tokens →
  map fst (tokenize "factor kappa b") = tail nfkb_tokens →
  acc ⊆ {["G1"%string]} →
  ∃ acc',
    for_each (recognize_step (H := AdeftRecognizer_methods stem) get_candidate
                (AdeftRecognizer_init stem tokenize "NFKB" nfkb_map None None))
             fragments acc = Ok acc' ∧
    acc ⊆ acc' ∧ acc' ⊆ {["G1"%string]} ∧
    (∀ fragment, fragment ∈ fragments → fragment ≠ ""%string →
       (∃ pre, get_candidate fragment ∅ = pre ++ nfkb_tokens) →
       acc' = {["G1"%string]}).
Proof.
  intros acc H1 H2. revert acc.
  induction fragments as [|fragment rest IH]; intros acc Hacc.
  - exists acc. repeat split; [done..|]. intros f Hf. by apply elem_of_nil in Hf.
  - cbn [for_each].
    destruct (recognize_step_nfkb acc fragment H1 H2 Hacc)
      as (acc1 & -> & Hsub & Hacc1 & Hhit).
    cbn [mbind result_bind].
    destruct (IH acc1 Hacc1) as (acc' & -> & Hsub' & Hacc' & Hhit').
    exists acc'. split; [done|]. split; [set_solver|]. split; [done|].
    intros f [->|Hin]%elem_of_cons Hne Hpre.
    + specialize (Hhit Hne Hpre). subst acc1. set_solver.
    + by eapply Hhit'.
Qed.

(** C5.  With the grounding map [nuclear factor kappa b -> G1], [factor
    kappa b -> G2], in that order, and the shortform [NFKB], [recognize]
    returns exactly [{G1}] on a text one of whose candidate fragments ends
    with the tokens [nuclear factor kappa b], given that the tokenizer
    splits the two longforms into their words. *)
Theorem recognize_nfkb_leaf_precedence text :
  map fst (tokenize "nuclear factor kappa b") = nfkb_tokens →
  map fst (tokenize "factor kappa b") = tail nfkb_tokens →
  (∃ fragment pre,
     fragment ∈ get_candidate_fragments text "NFKB" (Some 100) ∧
     fragment ≠ ""%string ∧
     get_candidate fragment ∅ = pre ++ nfkb_tokens) →
  recognize (H := AdeftRecognizer_methods stem) get_candidate_fragments get_candidate
    (AdeftRecognizer_init stem tokenize "NFKB" nfkb_map None None) text
  = Ok {["G1"%string]}.
Proof.
  intros H1 H2 (fragment & pre & Hin & Hne & Hpre). unfold recognize.
  cbn [base AdeftRecognizer_methods AdeftRecognizer_init adeft_base
       BaseRecognizer_init shortform window default].
  destruct (for_each_recognize_nfkb
              (get_candidate_fragments text "NFKB" (Some 100)) ∅ H1 H2)
    as (acc' & -> & _ & _ & Hhit); [set_solver|].
  f_equal. apply (Hhit fragment); [done..|]. by exists pre.
Qed.

End TrieFacts.

Section TrieExamples.
Import Recognize RecognizeSpec.


(** A trie with the longform [b c] below the token [c] and the longform
    [a b c] below it: the search for [a b c] stops at the first. *)
Lemma _search_first_longform_wins_witness :
  AdeftRecognizer_search (λ s, s)
    (mkAdeftRecognizer (BaseRecognizer_init "ABC" None None) []
       (_init_trie (λ s, s) words_tokenize [("b c", "G2"); ("a b c", "G1")]%string))
    ["a"; "b"; "c"]%string
  = Some "b c"%string.
Proof.
  refine (proj1 (_search_first_longform_wins (λ s, s) _ _) 1%nat _ "b c"%string
                _ _ _ _).
  - simpl. lia.
  - vm_compute. reflexivity.
  - reflexivity.
  - intros [|m] Hm; [|lia]. eexists. split; [vm_compute; reflexivity|reflexivity].
Defined.

Lemma recognize_nfkb_leaf_precedence_witness :
  recognize (H := AdeftRecognizer_methods (λ s, s)) fragments_before words_candidate
    (AdeftRecognizer_init (λ s, s) words_tokenize "NFKB" nfkb_map None None)
    "the nuclear factor kappa b (NFKB) pathway"
  = Ok {["G1"%string]}.
Proof.
  apply recognize_nfkb_leaf_precedence; [reflexivity..|].
  exists "the nuclear factor kappa b "%string, ["the"%string].
  split; [|split]; [|done|reflexivity].
  vm_compute. apply list_elem_of_here.
Defined.

(** The longform [b c] is in the trie when [a b c] is inserted: its node
    keeps it. *)
Lemma insert_edges_keeps_longform_witness :
  ∃ node',
    node_at (insert_edges "a b c" ["c"; "b"; "a"]%string
               (_init_trie (λ s, s) words_tokenize [("b c", "G2")]%string))
            ["c"; "b"]%string = Some node' ∧
    longform node' = Some "b c"%string.
Proof.
  refine (insert_edges_keeps_longform "a b c" ["c"; "b"; "a"]%string
            (_init_trie (λ s, s) words_tokenize [("b c", "G2")]%string)
            ["c"; "b"]%string (mk_TrieNode (Some "b c"%string) ∅) _).
  vm_compute. reflexivity.
Defined.

End TrieExamples.

(* ===================================================================== *)
(** * The constructor of [OneShotRecognizer] *)
(* ===================================================================== *)

Section OneShotFacts.
Import Recognize.

Context {Scorer params : Type}.
Variable AdeftLongformScorer : option (string → params → result Scorer).
Variable score0 : Scorer → list string → result (option string).

(** C6, as the code has it.  When the evaluation of [AdeftLongformScorer(...)]
    raises [NameError], as it does when the import of the scorer failed and
    left the name unbound, the constructor of [OneShotRecognizer] catches
    it, logs the message and returns: the recognizer has no [scorer]
    attribute, and every later [_search] raises [AttributeError].  An
    exception of another class raised by the scorer's constructor leaves the
    constructor of the recognizer; a scorer that is built is stored. *)
Theorem OneShotRecognizer_init_catches_NameError shortform window exclude ps :
  (new_scorer AdeftLongformScorer shortform ps = Raise NameError →
   OneShotRecognizer_init AdeftLongformScorer shortform window exclude ps
   = Ok (mkOneShotRecognizer (BaseRecognizer_init shortform window exclude) None,
         [not_available]) ∧
   ∀ tokens,
     OneShotRecognizer_search score0
       (mkOneShotRecognizer (BaseRecognizer_init shortform window exclude) None)
       tokens
     = Raise AttributeError) ∧
  (∀ e, e ≠ NameError →
        new_scorer AdeftLongformScorer shortform ps = Raise e →
        OneShotRecognizer_init AdeftLongformScorer shortform window exclude ps
        = Raise e) ∧
  (∀ s, new_scorer AdeftLongformScorer shortform ps = Ok s →
        OneShotRecognizer_init AdeftLongformScorer shortform window exclude ps
        = Ok (mkOneShotRecognizer (BaseRecognizer_init shortform window exclude)
                                  (Some s), [])).
Proof.
  unfold OneShotRecognizer_init. split; [|split].
  - by intros ->.
  - intros e Hne ->. by destruct e.
  - by intros s ->.
Qed.

End OneShotFacts.

Section OneShotExamples.
Import Recognize.

(** The name is unbound: its evaluation raises [NameError]. *)
Lemma OneShotRecognizer_init_catches_NameError_witness :
  OneShotRecognizer_init (Scorer := unit) (params := unit) None "NFKB" None None tt
  = Ok (mkOneShotRecognizer (BaseRecognizer_init "NFKB" None None) None,
        [not_available]).
Proof.
  exact (proj1 (proj1 (OneShotRecognizer_init_catches_NameError
                         (Scorer := unit) (params := unit) None
                         (λ _ _, Ok None) "NFKB" None None tt) eq_refl)).
Defined.

(** With the scorer unavailable, the construction of a [OneShotRecognizer]
    does not raise. *)
Lemma OneShotRecognizer_init_completes_without_scorer :
  ∃ r log,
    new_scorer (Scorer := unit) (params := unit) None "NFKB" tt = Raise NameError ∧
    OneShotRecognizer_init (Scorer := unit) (params := unit) None "NFKB" None None tt
    = Ok (r, log) ∧
    scorer r = None.
Proof. by eexists _, _. Qed.

End OneShotExamples.

(* ===================================================================== *)
(** * [strip_defining_patterns] *)
(* ===================================================================== *)

Section ReFacts.
Import PyStr PyRe StripSpec.

Lemma chars_str l : chars (str l) = l.
Proof. apply list_ascii_of_string_of_list_ascii. Qed.

Lemma str_chars s : str (chars s) = s.
Proof. apply string_of_list_ascii_of_string. Qed.

Lemma chars_app s1 s2 : chars (s1 +:+ s2) = chars s1 ++ chars s2.
Proof. induction s1 as [|c s1 IH]; [done|]. simpl. by rewrite <- IH. Qed.

Lemma length_chars s : length (chars s) = String.length s.
Proof. induction s as [|c s IH]; [done|]. simpl. by rewrite IH. Qed.

(** ** The matcher finds a match when there is one *)

Lemma match_star_sound a cont l : ∀ n,
  match_star a cont l = Some n →
  ∃ ws l' k, l = ws ++ l' ∧ Forall (λ c, atom_matches a c = true) ws ∧
             cont l' = Some k ∧ n = (length ws + k)%nat.
Proof.
  induction l as [|c l IH]; intros n; cbn [match_star].
  - intros H. by exists [], [], n.
  - destruct (atom_matches a c) eqn:Ha.
    + destruct (match_star a cont l) as [k|] eqn:Hstar.
      * intros [= <-]. destruct (IH k eq_refl) as (ws & l' & j & -> & Hws & Hc & ->).
        exists (c :: ws), l', j. repeat split; [|done]. by constructor.
      * intros H. by exists [], (c :: l), n.
    + intros H. by exists [], (c :: l), n.
Qed.

Lemma match_star_complete a cont ws : ∀ l,
  Forall (λ c, atom_matches a c = true) ws →
  is_Some (cont l) → is_Some (match_star a cont (ws ++ l)).
Proof.
  intros l Hws [k Hk]. induction Hws as [|c ws Hc Hws IH]; cbn [app].
  - destruct l as [|c l]; cbn [match_star]; [by rewrite Hk|].
    destruct (atom_matches a c); [|by rewrite Hk].
    destruct (match_star a cont l); [done|by rewrite Hk].
  - cbn [match_star]. rewrite Hc. by destruct IH as [j ->].
Qed.

Lemma match_here_sound items : ∀ l n,
  match_here items l = Some n →
  ∃ m rest, l = m ++ rest ∧ length m = n ∧ matches items m.
Proof.
  induction items as [|[a [|]] items IH]; intros l n; cbn [match_here].
  - intros [= <-]. exists [], l. repeat split. constructor.
  - intros H. apply match_star_sound in H as (ws & l' & k & -> & Hws & Hc & ->).
    apply IH in Hc as (m & rest & -> & <- & Hm).
    exists (ws ++ m), rest. rewrite length_app, <- app_assoc. repeat split.
    by constructor.
  - destruct l as [|c l]; [done|].
    destruct (atom_matches a c) eqn:Ha; [|done].
    destruct (match_here items l) as [k|] eqn:Hk; [|done].
    intros [= <-]. apply IH in Hk as (m & rest & -> & <- & Hm).
    exists (c :: m), rest. repeat split. by constructor.
Qed.

Lemma match_here_complete items m :
  matches items m → ∀ rest, is_Some (match_here items (m ++ rest)).
Proof.
  induction 1 as [|a items c m Ha Hm IH|a items ws m Hws Hm IH]; intros rest.
  - done.
  - cbn [match_here app]. rewrite Ha. by destruct (IH rest) as [k ->].
  - cbn [match_here]. rewrite <- app_assoc. by apply match_star_complete.
Qed.

(** ** The pattern of a shortform in parentheses *)

Lemma atom_matches_Lit c d : atom_matches (Lit d) c = true ↔ c = d.
Proof. simpl. apply bool_decide_eq_true. Qed.

Lemma matches_literals sf items m :
  matches (map (λ c, (Lit c, false)) sf ++ items) m
  ↔ ∃ m', m = sf ++ m' ∧ matches items m'.
Proof.
  revert m. induction sf as [|c sf IH]; intros m; cbn [map app].
  - split; [by exists m|by intros (m' & -> & H)].
  - split.
    + inversion 1 as [|a its c' m0 Ha Hm E1 E2|]; subst.
      apply atom_matches_Lit in Ha as ->.
      apply IH in Hm as (m' & -> & Hm'). by exists m'.
    + intros (m' & -> & Hm'). constructor; [by apply atom_matches_Lit|].
      apply IH. by exists m'.
Qed.

Lemma matches_dp_items sf m : matches (dp_items sf) m ↔ occurrence sf m.
Proof.
  unfold dp_items, occurrence, spaces. cbn [app]. split.
  - inversion 1 as [|a its c m1 Ha H1 E1 E2|]; subst.
    apply atom_matches_Lit in Ha as ->.
    inversion H1 as [| |a its ws m2 Hws H2 E1 E2]; subst.
    apply matches_literals in H2 as (m3 & -> & H3).
    inversion H3 as [| |a its ws' m4 Hws' H4 E1 E2]; subst.
    inversion H4 as [|a its c m5 Ha H5 E1 E2|]; subst.
    apply atom_matches_Lit in Ha as ->. inversion H5; subst.
    by exists ws, ws'.
  - intros (ws & ws' & Hws & Hws' & ->).
    constructor; [by apply atom_matches_Lit|].
    constructor; [done|]. apply matches_literals. eexists. split; [done|].
    constructor; [done|]. constructor; [by apply atom_matches_Lit|]. constructor.
Qed.

Lemma occurrence_length sf m : occurrence sf m → (2 ≤ length m)%nat.
Proof.
  intros (ws & ws' & _ & _ & ->). cbn [length]. rewrite !length_app. simpl. lia.
Qed.

Lemma sub_go_skip items repl xs : ∀ rest,
  sub_go items repl (xs ++ rest) (length xs) = sub_go items repl rest 0.
Proof.
  induction xs as [|x xs IH]; intros rest; [by destruct rest|]. apply IH.
Qed.

(** [re.sub] with the pattern of a shortform in parentheses replaces its
    occurrences and nothing else. *)
Lemma sub_go_replaced sf repl l :
  replaced sf repl l (sub_go (dp_items sf) repl l 0).
Proof.
  remember (length l) as n eqn:Hn. revert l Hn.
  induction n as [n IH] using lt_wf_ind. intros [|c l] Hn; [constructor|].
  cbn [sub_go]. destruct (match_here (dp_items sf) (c :: l)) as [[|k]|] eqn:Hm.
  - apply match_here_sound in Hm as (m & rest & Heq & Hlen & Hm).
    apply matches_dp_items, occurrence_length in Hm. lia.
  - apply match_here_sound in Hm as (m & rest & Heq & Hlen & Hm).
    apply matches_dp_items in Hm. destruct m as [|c' m]; [done|].
    injection Heq as <- ->. injection Hlen as <-.
    rewrite sub_go_skip. apply (replaced_occurrence sf repl (c :: m)); [done|].
    apply (IH (length rest)); [|done]. subst n. simpl. rewrite length_app. lia.
  - constructor.
    + intros m rest' Heq Hocc. apply matches_dp_items in Hocc.
      destruct (match_here_complete _ _ Hocc rest') as [k Hk].
      rewrite <- Heq in Hk. by rewrite Hk in Hm.
    + apply (IH (length l)); [|done]. subst n. simpl. lia.
Qed.

(** ** The compilation of the pattern *)

Lemma special_not_repeats c : special c = false → repeats c = false.
Proof.
  unfold special, repeats. intros H%bool_decide_eq_false.
  apply bool_decide_eq_false. intros Hin. apply H.
  revert Hin. cbn. rewrite !elem_of_cons. naive_solver.
Qed.

Lemma parse_atom_literal c p :
  special c = false → parse_atom (c :: p) = Some (Lit c, p).
Proof.
  intros Hc. cbn [parse_atom].
  assert (c ≠ "\"%char ∧ c ≠ "."%char) as [H1 H2].
  { unfold special in Hc. apply bool_decide_eq_false in Hc.
    split; intros ->; apply Hc; cbn; rewrite !elem_of_cons; naive_solver. }
  rewrite !bool_decide_eq_false_2 by done. by rewrite Hc.
Qed.

Lemma special_not_star c : special c = false → c ≠ "*"%char.
Proof. by intros Hc ->. Qed.

Lemma compile_go_step_literal fuel c p items :
  special c = false →
  match p with
  | [] => True
  | d :: _ => d ≠ "*"%char ∧ repeats d = false
  end →
  p ≠ [] →
  compile_go fuel p = Ok items →
  compile_go (S fuel) (c :: p) = Ok ((Lit c, false) :: items).
Proof.
  intros Hc Hd Hne Hp. cbn [compile_go]. rewrite parse_atom_literal by done.
  destruct p as [|d p]; [done|]. destruct Hd as [Hstar Hrep].
  rewrite bool_decide_eq_false_2 by done. rewrite Hrep, Hp. done.
Qed.

Lemma compile_go_tail fuel :
  (2 ≤ fuel)%nat →
  compile_go fuel (chars "\s*\)") = Ok [(Space, true); (Lit ")"%char, false)].
Proof. intros H. destruct fuel as [|[|fuel]]; [lia..|done]. Qed.

Lemma compile_go_literals sf : ∀ fuel,
  Forall (λ c, special c = false) sf →
  (length sf + 2 ≤ fuel)%nat →
  compile_go fuel (sf ++ chars "\s*\)")
  = Ok (map (λ c, (Lit c, false)) sf ++ [(Space, true); (Lit ")"%char, false)]).
Proof.
  induction sf as [|c sf IH]; intros fuel Hsf Hfuel.
  - by apply compile_go_tail.
  - inversion Hsf as [|c' sf' Hc Hsf']; subst.
    destruct fuel as [|fuel]; [simpl in Hfuel; lia|].
    cbn [app map]. apply compile_go_step_literal; [done| |by destruct sf|].
    + destruct sf as [|d sf]; [done|]. inversion Hsf' as [|d' sf'' Hd _]; subst.
      split; [by apply special_not_star|by apply special_not_repeats].
    + apply IH; [done|]. simpl in Hfuel. lia.
Qed.

Lemma compile_go_step_open fuel p items :
  match p with
  | [] => False
  | d :: _ => d ≠ "*"%char ∧ repeats d = false
  end →
  compile_go fuel p = Ok items →
  compile_go (S fuel) ("\"%char :: "("%char :: p) = Ok ((Lit "("%char, false) :: items).
Proof.
  intros Hd Hp. destruct p as [|d p]; [done|]. destruct Hd as [Hstar Hrep].
  cbn [compile_go parse_atom].
  rewrite (bool_decide_eq_true_2 ("\"%char = "\"%char)) by done.
  rewrite (bool_decide_eq_true_2 ("("%char = "("%char)) by done. cbn [orb].
  rewrite bool_decide_eq_false_2 by done. by rewrite Hrep, Hp.
Qed.

Lemma compile_go_step_spaces fuel p items :
  match p with
  | [] => False
  | d :: _ => repeats d = false
  end →
  compile_go fuel p = Ok items →
  compile_go (S fuel) ("\"%char :: "s"%char :: "*"%char :: p)
  = Ok ((Space, true) :: items).
Proof.
  intros Hd Hp. destruct p as [|d p]; [done|].
  cbn [compile_go parse_atom].
  rewrite (bool_decide_eq_true_2 ("\"%char = "\"%char)) by done.
  rewrite (bool_decide_eq_false_2 ("s"%char = "("%char)) by done.
  rewrite (bool_decide_eq_false_2 ("s"%char = ")"%char)) by done.
  rewrite (bool_decide_eq_true_2 ("s"%char = "s"%char)) by done. cbn [orb].
  rewrite (bool_decide_eq_true_2 ("*"%char = "*"%char)) by done.
  by rewrite Hd, Hp.
Qed.

Lemma compile_dp_pattern sf :
  literal sf →
  compile (Recognize.dp_pattern sf) = Ok (dp_items (chars sf)).
Proof.
  intros Hsf. unfold compile, Recognize.dp_pattern.
  rewrite <- length_chars, !chars_app, !length_app.
  change (chars "\(\s*")
    with ("\"%char :: "("%char :: "\"%char :: "s"%char :: ["*"%char]).
  cbn [app length].
  unfold dp_items. cbn [app Nat.add].
  apply compile_go_step_open; [split; [discriminate|reflexivity]|].
  apply compile_go_step_spaces.
  - unfold literal in Hsf. destruct (chars sf) as [|d sf']; [done|].
    inversion Hsf as [|? ? Hd _]; subst. cbn [app]. by apply special_not_repeats.
  - apply compile_go_literals; [done|]. simpl. lia.
Qed.

Lemma nullable_dp_items sf : nullable (dp_items sf) = false.
Proof. done. Qed.

Lemma literal_no_backslash sf :
  literal sf → "\"%char ∉ chars (" " +:+ sf +:+ " ").
Proof.
  intros Hsf. rewrite !chars_app.
  change (chars " ") with [" "%char]. cbn [app].
  rewrite elem_of_cons, elem_of_app, elem_of_cons, elem_of_nil.
  intros [?|[Hin|[?|[]]]]; try done.
  unfold literal in Hsf. rewrite Forall_forall in Hsf.
  by specialize (Hsf _ Hin).
Qed.

(** [re.sub] of the pattern of a literal shortform. *)
Lemma sub_dp_pattern sf repl text :
  literal sf → "\"%char ∉ chars repl →
  PyRe.sub (Recognize.dp_pattern sf) repl text
  = Ok (str (sub_go (dp_items (chars sf)) (chars repl) (chars text) 0)).
Proof.
  intros Hsf Hrepl. unfold PyRe.sub. rewrite compile_dp_pattern by done.
  cbn [mbind result_bind]. rewrite nullable_dp_items.
  by rewrite bool_decide_eq_false_2.
Qed.

Lemma join_split_str l :
  PyStr.join " " (PyStr.split (str l)) = str (normalize_chars l).
Proof.
  unfold PyStr.join, PyStr.split, normalize_chars. rewrite chars_str.
  rewrite map_map. f_equal. f_equal.
  rewrite <- (map_id (split_chars l)) at 2. apply map_ext. intros x.
  apply chars_str.
Qed.

(** ** The replacement is determined by the text *)

Lemma split_at_first_close (b : list ascii) : ∀ b' r r',
  ")"%char ∉ b → ")"%char ∉ b' →
  b ++ ")"%char :: r = b' ++ ")"%char :: r' → b = b'.
Proof.
  induction b as [|x b IH]; intros [|y b'] r r' Hb Hb' Heq; try done.
  - injection Heq as <- _. exfalso. apply Hb'. apply list_elem_of_here.
  - injection Heq as -> _. exfalso. apply Hb. apply list_elem_of_here.
  - injection Heq as -> Heq. f_equal. apply (IH b' r r'); [| |done].
    + intros Hin. apply Hb. by apply list_elem_of_further.
    + intros Hin. apply Hb'. by apply list_elem_of_further.
Qed.

Lemma spaces_no_close ws : spaces ws → ")"%char ∉ ws.
Proof.
  unfold spaces. rewrite Forall_forall. intros Hws Hin.
  by specialize (Hws _ Hin).
Qed.

Lemma occurrence_prefix_unique sf m m' r r' :
  ")"%char ∉ sf → occurrence sf m → occurrence sf m' →
  m ++ r = m' ++ r' → m = m' ∧ r = r'.
Proof.
  intros Hsf (ws1 & ws1' & H1 & H1' & ->) (ws2 & ws2' & H2 & H2' & ->) Heq.
  cbn [app] in Heq. injection Heq as Heq.
  assert (ws1 ++ sf ++ ws1' = ws2 ++ sf ++ ws2') as Hbody.
  { apply (split_at_first_close _ _ r r').
    - rewrite !elem_of_app.
      intros [?|[?|?]];
        [by apply (spaces_no_close ws1)|done|by apply (spaces_no_close ws1')].
    - rewrite !elem_of_app.
      intros [?|[?|?]];
        [by apply (spaces_no_close ws2)|done|by apply (spaces_no_close ws2')].
    - rewrite <- !app_assoc in Heq. rewrite <- !app_assoc. exact Heq. }
  assert (∀ a b c : list ascii, a ++ b ++ c ++ [")"%char] = (a ++ b ++ c) ++ [")"%char])
    as Hassoc by (intros; by rewrite <- !app_assoc).
  rewrite !Hassoc in Heq |- *. rewrite Hbody in Heq |- *.
  split; [done|]. rewrite <- !app_assoc in Heq.
  apply app_inv_head in Heq. by simplify_eq/=.
Qed.

Lemma replaced_deterministic sf repl l out :
  ")"%char ∉ sf →
  replaced sf repl l out → ∀ out', replaced sf repl l out' → out = out'.
Proof.
  intros Hsf. induction 1 as [|m rest out Hocc Hrest IH|c rest out Hno Hrest IH];
    intros out' H'.
  - inversion H' as [|m' rest' o' Hocc' Hr' E|]; subst; [done|].
    apply occurrence_length in Hocc'. destruct m'; [simpl in *; lia|done].
  - remember (m ++ rest) as l eqn:El.
    destruct H' as [|m' rest' o' Hocc' Hr'|c rest' o' Hno' Hr'].
    + apply occurrence_length in Hocc. destruct m; [simpl in *; lia|done].
    + destruct (occurrence_prefix_unique sf m' m rest' rest Hsf Hocc' Hocc El)
        as [-> ->]. f_equal. by apply IH.
    + by destruct (Hno' m rest El).
  - remember (c :: rest) as l eqn:El.
    destruct H' as [|m' rest' o' Hocc' Hr'|c' rest' o' Hno' Hr'].
    + done.
    + by destruct (Hno m' rest' eq_refl).
    + injection El as -> ->. f_equal. by apply IH.
Qed.

(** ** Texts without a parenthesis, and the words of a text *)

Lemma replaced_plain_app sf repl (P : list ascii) rest out :
  "("%char ∉ P → replaced sf repl rest out → replaced sf repl (P ++ rest) (P ++ out).
Proof.
  induction P as [|c P IH]; intros HP Hrest; [done|].
  cbn [app]. constructor.
  - intros m rest' Heq (ws & ws' & _ & _ & ->). injection Heq as -> _.
    apply HP, list_elem_of_here.
  - apply IH; [|done]. intros Hin. by apply HP, list_elem_of_further.
Qed.

Lemma literal_no_paren sf :
  literal sf → ("("%char ∉ chars sf) ∧ (")"%char ∉ chars sf).
Proof.
  unfold literal. rewrite Forall_forall. intros Hsf.
  split; intros Hin; by specialize (Hsf _ Hin).
Qed.

(** [re.sub] on a text with one occurrence, between two parts without an
    opening parenthesis. *)
Lemma sub_go_one_occurrence sf repl (P Q ws ws' : list ascii) :
  ")"%char ∉ sf → spaces ws → spaces ws' → "("%char ∉ P → "("%char ∉ Q →
  sub_go (dp_items sf) repl (P ++ "("%char :: ws ++ sf ++ ws' ++ ")"%char :: Q) 0
  = P ++ repl ++ Q.
Proof.
  intros Hsf Hws Hws' HP HQ. symmetry.
  apply (replaced_deterministic sf repl
           (P ++ "("%char :: ws ++ sf ++ ws' ++ ")"%char :: Q)); [done| |].
  - apply replaced_plain_app; [done|].
    replace ("("%char :: ws ++ sf ++ ws' ++ ")"%char :: Q)
      with (("("%char :: ws ++ sf ++ ws' ++ [")"%char]) ++ Q)
      by (cbn [app]; by rewrite <- !app_assoc).
    constructor; [by exists ws, ws'|].
    rewrite <- (app_nil_r Q) at 1 2. apply replaced_plain_app; [done|constructor].
  - apply sub_go_replaced.
Qed.

Lemma split_go_spaces ws l : spaces ws → split_go [] (ws ++ l) = split_go [] l.
Proof.
  induction 1 as [|c ws Hc _ IH]; [done|]. cbn [app split_go]. by rewrite Hc.
Qed.

Lemma split_go_word w : ∀ cur l,
  Forall (λ c, isspace c = false) w →
  split_go cur (w ++ l) = split_go (rev w ++ cur) l.
Proof.
  induction w as [|c w IH]; intros cur l Hw; [done|].
  apply Forall_cons in Hw as [Hc Hw]. cbn [app split_go]. rewrite Hc.
  rewrite IH by done. cbn [rev]. by rewrite <- app_assoc.
Qed.

(** [str.split] gives the words of the text. *)
Lemma split_chars_words_of l words : words_of l words → split_chars l = words.
Proof.
  unfold split_chars.
  induction 1 as [ws Hws|ws w rest words Hws [Hne Hw] Hrest _ IH].
  - rewrite <- (app_nil_r ws). by rewrite split_go_spaces.
  - rewrite split_go_spaces, split_go_word by done. rewrite app_nil_r.
    assert (rev w ≠ []) as Hrev.
    { intros E. apply Hne. by rewrite <- (rev_involutive w), E. }
    destruct rest as [|c rest].
    + assert (words = []) as ->.
      { cbn [split_go] in IH. done. }
      cbn [split_go]. destruct (rev w) eqn:E; [done|]. by rewrite <- E, rev_involutive.
    + cbn [starts_spaced] in Hrest. cbn [split_go] in IH |- *. rewrite Hrest in IH |- *.
      destruct (rev w) eqn:E; [done|]. by rewrite <- E, rev_involutive, IH.
Qed.

Lemma words_of_spaces_app ws l words :
  spaces ws → words_of l words → words_of (ws ++ l) words.
Proof.
  intros Hws Hl. destruct Hl as [ws' Hws'|ws' w rest words Hws' Hw Hrest Hwords].
  - constructor. by apply Forall_app.
  - rewrite app_assoc. constructor; [by apply Forall_app|done..].
Qed.

Lemma words_of_app l words r words' :
  words_of l words → starts_spaced r → words_of r words' →
  words_of (l ++ r) (words ++ words').
Proof.
  intros Hl Hr Hr'. induction Hl as [ws Hws|ws w rest words Hws Hw Hrest _ IH].
  - by apply words_of_spaces_app.
  - rewrite <- !app_assoc. cbn [app]. constructor; [done..| |done].
    by destruct rest.
Qed.

(** The words [str.split] gives are the words of the text. *)
Lemma words_of_split_go l : ∀ cur,
  Forall (λ c, isspace c = false) cur → words_of (rev cur ++ l) (split_go cur l).
Proof.
  induction l as [|c l IH]; intros cur Hcur.
  - rewrite app_nil_r. cbn [split_go].
    destruct cur as [|x cur]; [apply (words_of_end []); constructor|].
    rewrite <- (app_nil_r (rev (x :: cur))) at 1.
    apply (words_of_word [] (rev (x :: cur)) [] []);
      [constructor| |done|apply (words_of_end []); constructor].
    split; [|by apply Forall_rev]. cbn [rev]. by destruct (rev cur).
  - cbn [split_go]. destruct (isspace c) eqn:Hc.
    + assert (words_of (c :: l) (split_go [] l)) as Hrest.
      { apply (words_of_spaces_app [c]); [by repeat constructor|]. by apply (IH []). }
      destruct cur as [|x cur]; [done|].
      apply (words_of_word [] (rev (x :: cur)) (c :: l)); [constructor| |done|done].
      split; [|by apply Forall_rev]. cbn [rev]. by destruct (rev cur).
    + replace (rev cur ++ c :: l) with (rev (c :: cur) ++ l)
        by (cbn [rev]; by rewrite <- app_assoc).
      apply IH. by constructor.
Qed.

Lemma words_of_split_chars l : words_of l (split_chars l).
Proof. apply (words_of_split_go l []). constructor. Qed.

Lemma join_chars_single_spaced words :
  join_chars [" "%char] words = single_spaced words.
Proof.
  induction words as [|w [|w' words] IH]; [done..|].
  cbn [join_chars single_spaced] in IH |- *. by rewrite IH.
Qed.

(** The white space of a text in which a word stands between two spaces,
    normalized. *)
Lemma normalize_chars_word_between (P Q sf : list ascii) wordsP wordsQ :
  word sf → words_of P wordsP → words_of Q wordsQ →
  normalize_chars (P ++ (" "%char :: sf ++ [" "%char]) ++ Q)
  = single_spaced (wordsP ++ [sf] ++ wordsQ).
Proof.
  intros Hsf HP HQ. unfold normalize_chars.
  rewrite (split_chars_words_of _ (wordsP ++ [sf] ++ wordsQ));
    [apply join_chars_single_spaced|].
  apply words_of_app; [done|done|].
  change ((" "%char :: sf ++ [" "%char]) ++ Q)
    with ([" "%char] ++ (sf ++ [" "%char]) ++ Q).
  rewrite <- app_assoc. cbn [app].
  apply (words_of_word [" "%char] sf (" "%char :: Q) wordsQ); [|done|done|].
  - by repeat constructor.
  - apply (words_of_spaces_app [" "%char]); [by repeat constructor|done].
Qed.

End ReFacts.

Section StripFacts.
Import Recognize StripSpec.

Context {span : Type}.
Variable tokenize : string → list (string * span).
Variable untokenize : list (string * span) → string.
Variable get_candidate_fragments : string → string → option Z → list string.
Context {T : Type} `{Recognizer T}.

(** A fragment without a known longform leaves the text as it is. *)
Lemma strip_step_none (self : T) text fragment :
  _search self (filter (λ token, PyStr.str_in token PyStr.punctuation = false)
                       (map fst (tokenize fragment))) = Ok None →
  strip_step tokenize untokenize self text fragment = Ok text.
Proof. unfold strip_step. by intros ->. Qed.

Lemma for_each_strip_step_none (self : T) fragments : ∀ text,
  (∀ fragment, fragment ∈ fragments →
     _search self (filter (λ token, PyStr.str_in token PyStr.punctuation = false)
                          (map fst (tokenize fragment))) = Ok None) →
  for_each (strip_step tokenize untokenize self) fragments text = Ok text.
Proof.
  induction fragments as [|fragment rest IH]; intros text Hnone; [done|].
  cbn [for_each]. rewrite strip_step_none by apply Hnone, list_elem_of_here.
  cbn [mbind result_bind]. apply IH. intros f Hf. apply Hnone.
  by apply list_elem_of_further.
Qed.

(** What [strip_defining_patterns] does when no longform is found, for a
    shortform none of whose characters has a meaning in a regular
    expression: every occurrence of the shortform in parentheses is replaced
    by the shortform between two spaces, and [' '.join(text.split())] is
    taken of the result. *)
Lemma strip_defining_patterns_without_longform (self : T) text :
  let sf := shortform (base self) in
  literal sf →
  (∀ fragment, fragment ∈ get_candidate_fragments text sf None →
     _search self (filter (λ token, PyStr.str_in token PyStr.punctuation = false)
                          (map fst (tokenize fragment))) = Ok None) →
  strip_defining_patterns tokenize untokenize get_candidate_fragments self text
  = Ok (PyStr.str (PyStr.normalize_chars
                     (PyRe.sub_go (dp_items (PyStr.chars sf))
                                  (PyStr.chars (" " +:+ sf +:+ " "))
                                  (PyStr.chars text) 0))).
Proof.
  intros sf Hsf Hnone.
  unfold strip_defining_patterns. fold sf.
  rewrite for_each_strip_step_none by done. cbn [mbind result_bind].
  rewrite sub_dp_pattern by (done || by apply literal_no_backslash).
  cbn [mbind result_bind]. by rewrite join_split_str.
Qed.

(** C10, where the code departs from it.  A text with one occurrence of
    the shortform in parentheses, between a part [P] and a part [Q] without
    an opening parenthesis, for none of whose candidate fragments [_search]
    finds a longform; the shortform is a word none of whose characters has a
    meaning in a regular expression.  [strip_defining_patterns] returns the
    words of [P], the shortform and the words of [Q] with one space between
    them: the shortform is a word of its own in the result, also where a word
    of [P] ends at the parenthesis or a word of [Q] starts after it, as in
    [(DP)s.], for which the docstring of the method gives [DPs.]. *)
Theorem strip_defining_patterns_separates_shortform (self : T)
    (P Q ws ws' : list ascii) (wordsP wordsQ : list (list ascii)) :
  let sf := shortform (base self) in
  let text :=
    PyStr.str (P ++ "("%char :: ws ++ PyStr.chars sf ++ ws' ++ ")"%char :: Q) in
  literal sf → word (PyStr.chars sf) →
  spaces ws → spaces ws' →
  "("%char ∉ P → "("%char ∉ Q →
  words_of P wordsP → words_of Q wordsQ →
  (∀ fragment, fragment ∈ get_candidate_fragments text sf None →
     _search self (filter (λ token, PyStr.str_in token PyStr.punctuation = false)
                          (map fst (tokenize fragment))) = Ok None) →
  strip_defining_patterns tokenize untokenize get_candidate_fragments self text
  = Ok (PyStr.str (single_spaced (wordsP ++ [PyStr.chars sf] ++ wordsQ))).
Proof.
  intros sf text Hlit Hword Hws Hws' HP HQ HwP HwQ Hnone.
  rewrite strip_defining_patterns_without_longform by done. fold sf.
  unfold text. rewrite chars_str.
  rewrite sub_go_one_occurrence by (done || by apply literal_no_paren).
  rewrite !chars_app. change (PyStr.chars " ") with [" "%char].
  do 2 f_equal. by apply normalize_chars_word_between.
Qed.

End StripFacts.

Section StripExamples.
Import Recognize RecognizeSpec StripSpec.

(** The first sentence of the docstring of [strip_defining_patterns], for a
    recognizer that does not know its longform: the code returns the sentence
    with [DP s.] at its end, where the docstring has [DPs.]. *)
Lemma strip_defining_patterns_separates_shortform_witness :
  strip_defining_patterns words_tokenize (λ _, ""%string) fragments_before
    (H := AdeftRecognizer_methods (λ s, s))
    (AdeftRecognizer_init (λ s, s) words_tokenize "DP"
       [("dipeptidyl peptidase", "G1")]%string None None)
    "This is useful for training machine learning models where training labels are generated by finding defining patterns (DP)s."
  = Ok "This is useful for training machine learning models where training labels are generated by finding defining patterns DP s."%string.
Proof.
  refine (strip_defining_patterns_separates_shortform words_tokenize (λ _, ""%string)
            fragments_before (H := AdeftRecognizer_methods (λ s, s))
            (AdeftRecognizer_init (λ s, s) words_tokenize "DP"
               [("dipeptidyl peptidase", "G1")]%string None None)
            (PyStr.chars "This is useful for training machine learning models where training labels are generated by finding defining patterns ")
            (PyStr.chars "s.") [] []
            (map PyStr.chars
                 ["This"; "is"; "useful"; "for"; "training"; "machine"; "learning";
                  "models"; "where"; "training"; "labels"; "are"; "generated"; "by";
                  "finding"; "defining"; "patterns"]%string)
            [PyStr.chars "s."] _ _ _ _ _ _ _ _ _).
  - repeat constructor.
  - split; [done|]. repeat constructor.
  - constructor.
  - constructor.
  - intros Hin. apply (bool_decide_eq_true_2 _) in Hin. vm_compute in Hin.
    discriminate.
  - intros Hin. apply (bool_decide_eq_true_2 _) in Hin. vm_compute in Hin.
    discriminate.
  - exact (words_of_split_chars _).
  - exact (words_of_split_chars _).
  - intros fragment Hin.
    assert (fragment = "r training machine learning models where training labels are generated by finding defining patterns "%string) as ->.
    { revert Hin. vm_compute. by intros ->%list_elem_of_singleton. }
    vm_compute. reflexivity.
Defined.

(** White space of every kind is normalized: a tabulator and a no-break
    space (0xa0) around the shortform and between the words. *)
Example strip_defining_patterns_white_space :
  strip_defining_patterns words_tokenize (λ _, ""%string) fragments_before
    (H := AdeftRecognizer_methods (λ s, s))
    (AdeftRecognizer_init (λ s, s) words_tokenize "DP"
       [("dipeptidyl peptidase", "G1")]%string None None)
    (PyStr.str (PyStr.chars "by" ++ [ascii_of_nat 160; ascii_of_nat 9]
                ++ PyStr.chars "finding(" ++ [ascii_of_nat 160]
                ++ PyStr.chars "DP" ++ [ascii_of_nat 9] ++ PyStr.chars ")s."))
  = Ok "by finding DP s."%string.
Proof. vm_compute. reflexivity. Qed.

(** The character classes on code points from 128 on: the no-break space
    and NEL are white space, [é] (0xe9) is a word character, the
    multiplication sign (0xd7) is not. *)
Example latin1_character_classes :
  PyStr.isspace (ascii_of_nat 160) = true ∧ PyStr.isspace (ascii_of_nat 133) = true ∧
  PyStr.isword (ascii_of_nat 233) = true ∧ PyStr.isword (ascii_of_nat 215) = false ∧
  PyStr.split (PyStr.str (PyStr.chars "a" ++ [ascii_of_nat 160] ++ PyStr.chars "b"))
  = ["a"; "b"]%string.
Proof. repeat split. Qed.

End StripExamples.

(* ===================================================================== *)
(** * [consume] and the candidates of [deft/mine.py] *)
(* ===================================================================== *)

Section ConsumeFacts.
Import Mine MineSpec ConsumeSpec.

Context {F : Type} {arith : Arith F} {laws : ArithLaws F}.
Variable stem : string → string.
Variable greek_alphabet : gmap string string.
Variable lower : string → string.
Variable sent_tokenize : string → list string.
Variable word_tokenize : string → list string.
Implicit Types (node current child new : TrieNode F) (st : Stats F).
Implicit Types (self : ContinuousMiner F) (longforms lfs : gmap (list string) F).

Lemma _add_keeps_attributes self tokens self' :
  _add stem self tokens = Ok self' →
  shortform self' = shortform self ∧ exclude self' = exclude self.
Proof.
  destruct tokens as [tokens|]; [|done]. unfold _add.
  destruct (_add_loop _ _ _) as [[trie lfs]|e]; [|done].
  by intros [= <-].
Qed.

Lemma _add_list_reachable self tokens :
  reachable stem self →
  ∃ self', _add stem self (Some tokens) = Ok self' ∧ reachable stem self'.
Proof.
  intros Hr.
  destruct (_add_loop_ok (rev (map stem tokens)) [] (_internal_trie self)
              (_longforms self) (reachable_ok stem _ Hr)) as (trie' & lfs' & Heq & _).
  assert (_add stem self (Some tokens)
          = Ok (mkContinuousMiner (shortform self) trie' lfs' (exclude self))) as Hadd.
  { unfold _add. by rewrite Heq. }
  eexists. split; [exact Hadd|]. by eapply reachable_add.
Qed.

Lemma _get_candidates_attributes self self' tokens :
  shortform self' = shortform self → exclude self' = exclude self →
  _get_candidates greek_alphabet lower self' tokens
  = _get_candidates greek_alphabet lower self tokens.
Proof. unfold _get_candidates. by intros -> ->. Qed.

Lemma for_each_app {A S} (body : S → A → result S) xs ys acc :
  for_each body (xs ++ ys) acc = for_each body xs acc ≫= for_each body ys.
Proof.
  revert acc. induction xs as [|x xs IH]; intros acc; [done|].
  cbn [app for_each]. destruct (body acc x); [apply IH|done].
Qed.

Lemma for_each_add_attributes candidates : ∀ self self',
  for_each (_add stem) candidates self = Ok self' →
  shortform self' = shortform self ∧ exclude self' = exclude self.
Proof.
  induction candidates as [|c cs IH]; intros self self'; cbn [for_each].
  - by intros [= <-].
  - destruct (_add stem self c) as [self1|e] eqn:E; [|done]. cbn [mbind result_bind].
    intros H. apply IH in H as [-> ->]. by apply _add_keeps_attributes in E.
Qed.

Lemma for_each_add_reachable candidates : ∀ self self',
  reachable stem self →
  for_each (_add stem) candidates self = Ok self' → reachable stem self'.
Proof.
  induction candidates as [|c cs IH]; intros self self' Hr; cbn [for_each].
  - by intros [= <-].
  - destruct (_add stem self c) as [self1|e] eqn:E; [|done]. cbn [mbind result_bind].
    apply IH. by eapply reachable_add.
Qed.

(** The candidates are all lists: the loop of [consume] runs to its end.
    One of them is [None]: the loop stops there with [TypeError]. *)
Lemma for_each_add_result candidates : ∀ self,
  reachable stem self →
  if bool_decide (None ∈ candidates)
  then for_each (_add stem) candidates self = Raise TypeError
  else is_Ok (for_each (_add stem) candidates self).
Proof.
  induction candidates as [|c cs IH]; intros self Hr.
  - rewrite bool_decide_eq_false_2 by apply not_elem_of_nil. by eexists.
  - cbn [for_each]. destruct c as [tokens|].
    + destruct (_add_list_reachable self tokens Hr) as (self1 & -> & Hr1).
      cbn [mbind result_bind]. specialize (IH self1 Hr1).
      destruct (bool_decide (None ∈ cs)) eqn:E.
      * apply bool_decide_eq_true in E.
        rewrite bool_decide_eq_true_2 by (by apply list_elem_of_further). done.
      * apply bool_decide_eq_false in E.
        rewrite bool_decide_eq_false_2; [done|].
        by intros [?|?]%elem_of_cons.
    + rewrite bool_decide_eq_true_2 by apply list_elem_of_here. done.
Qed.

Lemma consume_unfold self texts :
  consume stem greek_alphabet lower sent_tokenize word_tokenize self texts
  = for_each (_add stem)
      (map (λ sentence, _get_candidates greek_alphabet lower self (word_tokenize sentence))
           (kept_sentences sent_tokenize (shortform self) texts)) self.
Proof. unfold consume, kept_sentences. by rewrite map_map. Qed.

(** [consume] returns if and only if the pattern is found, before the last
    three tokens, in the tokens of every sentence it keeps; otherwise it
    raises [TypeError].  When it returns, the miner it leaves is one that
    [_add] calls lead to, with its shortform and excluded tokens unchanged. *)
Theorem consume_returns_iff_pattern_found self texts :
  reachable stem self →
  let found :=
    ∀ sentence, sentence ∈ kept_sentences sent_tokenize (shortform self) texts →
                is_Some (find_pattern (shortform self) (word_tokenize sentence)) in
  (found →
   ∃ self', consume stem greek_alphabet lower sent_tokenize word_tokenize self texts
            = Ok self' ∧
            reachable stem self' ∧
            shortform self' = shortform self ∧ exclude self' = exclude self) ∧
  (¬ found →
   consume stem greek_alphabet lower sent_tokenize word_tokenize self texts
   = Raise TypeError).
Proof.
  intros Hr found. rewrite consume_unfold.
  set (candidates := map _ _).
  assert (None ∈ candidates ↔ ¬ found) as Hnone.
  { split.
    - unfold candidates, found. rewrite list_elem_of_fmap.
      intros (sentence & Heq & Hin) Hall. destruct (Hall sentence Hin) as [i Hi].
      unfold _get_candidates in Heq. by rewrite Hi in Heq.
    - intros Hnot. destruct (decide (None ∈ candidates)) as [|Hno]; [done|].
      exfalso. apply Hnot. intros sentence Hin.
      destruct (find_pattern _ _) as [i|] eqn:Hi; [by eexists|].
      exfalso. apply Hno. unfold candidates. rewrite list_elem_of_fmap.
      exists sentence. split; [|done].
      unfold _get_candidates. by rewrite Hi. }
  pose proof (for_each_add_result candidates self Hr) as Hres.
  split.
  - intros Hfound. rewrite bool_decide_eq_false_2 in Hres by (rewrite Hnone; tauto).
    destruct Hres as [self' Heq]. exists self'. split; [done|].
    split; [by eapply for_each_add_reachable|].
    by eapply for_each_add_attributes.
  - intros Hnot. by rewrite bool_decide_eq_true_2 in Hres by (by apply Hnone).
Qed.

(** [consume] of two lists of texts one after the other is [consume] of
    the first and then of the second. *)
Theorem consume_app self texts1 texts2 :
  consume stem greek_alphabet lower sent_tokenize word_tokenize self (texts1 ++ texts2)
  = consume stem greek_alphabet lower sent_tokenize word_tokenize self texts1
    ≫= λ self', consume stem greek_alphabet lower sent_tokenize word_tokenize
                        self' texts2.
Proof.
  rewrite !consume_unfold. unfold kept_sentences.
  rewrite map_app, concat_app, filter_app, map_app, for_each_app.
  destruct (for_each _ _ self) as [self1|e] eqn:E; [|done].
  cbn [mbind result_bind]. rewrite consume_unfold. unfold kept_sentences.
  apply for_each_add_attributes in E as [Hsf Hex]. rewrite Hsf.
  f_equal. apply map_ext. intros sentence.
  by rewrite (_get_candidates_attributes self self1).
Qed.

(** Texts none of whose sentences contains the shortform in parentheses
    leave the miner as it is. *)
Theorem consume_without_pattern self texts :
  (∀ text sentence, text ∈ texts → sentence ∈ sent_tokenize text →
     PyStr.str_in ("(" +:+ shortform self +:+ ")") sentence = false) →
  consume stem greek_alphabet lower sent_tokenize word_tokenize self texts = Ok self.
Proof.
  intros Hno. rewrite consume_unfold.
  assert (kept_sentences sent_tokenize (shortform self) texts = []) as ->; [|done].
  unfold kept_sentences. induction texts as [|text texts IH]; [done|].
  cbn [map concat]. rewrite filter_app, IH.
  - rewrite app_nil_r.
    assert (∀ sentence, sentence ∈ sent_tokenize text →
              PyStr.str_in ("(" +:+ shortform self +:+ ")") sentence = false) as Hs.
    { intros sentence. apply Hno, list_elem_of_here. }
    induction (sent_tokenize text) as [|sentence l IHl]; [done|].
    rewrite filter_cons_False.
    + apply IHl. intros s' Hin. by apply Hs, list_elem_of_further.
    + rewrite Hs by apply list_elem_of_here. done.
  - intros t s' Hin. apply Hno. by apply list_elem_of_further.
Qed.

(** ** The cut at the last excluded token *)

Lemma stop_index_spec ex (candidate : list string) (n : nat) :
  (n ≤ length candidate)%nat →
  let k := stop_index ex candidate n in
  (k ≤ n)%nat ∧
  (∀ i token, (k ≤ i < n)%nat → candidate !! i = Some token → token ∉ ex) ∧
  (k = 0%nat ∨ ∃ k' token, k = S k' ∧ candidate !! k' = Some token ∧ token ∈ ex).
Proof.
  induction n as [|n IH]; intros Hn; cbn [stop_index].
  - split; [done|]. split; [intros i token Hi; lia|by left].
  - destruct (candidate !! n) as [token|] eqn:Hl.
    + destruct (bool_decide (token ∈ ex)) eqn:Hex.
      * apply bool_decide_eq_true in Hex. split; [done|].
        split; [intros i t Hi; lia|]. right. by exists n, token.
      * apply bool_decide_eq_false in Hex.
        destruct IH as (Hk & Hall & Hlast); [lia|].
        split; [lia|]. split; [|done].
        intros i t Hi Hit. destruct (decide (i = n)) as [->|Hne].
        -- rewrite Hl in Hit. by injection Hit as <-.
        -- apply (Hall i t); [lia|done].
    + apply lookup_ge_None in Hl. lia.
Qed.

(** The candidate [_get_candidates] returns holds no excluded token, and
    it is the longest such end of the normalized tokens before the pattern:
    either all of them, or those after an excluded token. *)
Theorem _get_candidates_excludes self tokens candidate :
  _get_candidates greek_alphabet lower self tokens = Some candidate →
  ∃ index before,
    find_pattern (shortform self) tokens = Some index ∧
    normalized greek_alphabet lower tokens index = before ++ candidate ∧
    (∀ token, token ∈ candidate → token ∉ exclude self) ∧
    (before = [] ∨ ∃ before' token, before = before' ++ [token] ∧ token ∈ exclude self).
Proof.
  unfold _get_candidates. destruct (find_pattern _ _) as [index|]; [|done].
  intros [= <-]. exists index.
  change (map lower _) with (normalized greek_alphabet lower tokens index).
  set (l := normalized greek_alphabet lower tokens index).
  destruct (stop_index_spec (exclude self) l (length l)) as (Hk & Hall & Hlast); [done|].
  set (k := stop_index (exclude self) l (length l)) in *.
  exists (take k l). split; [done|]. split; [by rewrite take_drop|]. split.
  - intros token [i Hi]%list_elem_of_lookup. rewrite lookup_drop in Hi.
    apply (Hall (k + i)%nat token); [|done].
    apply lookup_lt_Some in Hi. lia.
  - destruct Hlast as [->|(k' & token & -> & Hl & Hex)]; [by left|]. right.
    exists (take k' l), token. split; [|done]. by erewrite take_S_r.
Qed.

(** The cut is where the last excluded token stands. *)
Lemma stop_index_at ex (before candidate : list string) :
  (∀ token, token ∈ candidate → token ∉ ex) →
  (before = [] ∨ ∃ before' token, before = before' ++ [token] ∧ token ∈ ex) →
  stop_index ex (before ++ candidate) (length (before ++ candidate)) = length before.
Proof.
  intros Hfree Hlast. rewrite length_app.
  assert (∀ n, (n ≤ length candidate)%nat →
               stop_index ex (before ++ candidate) (length before + n)
               = stop_index ex (before ++ candidate) (length before)) as Hdown.
  { induction n as [|n IH]; intros Hn; [by rewrite Nat.add_0_r|].
    rewrite Nat.add_succ_r. cbn [stop_index].
    rewrite lookup_app_r by lia.
    replace (length before + n - length before)%nat with n by lia.
    destruct (candidate !! n) as [token|] eqn:Hl.
    - rewrite bool_decide_eq_false_2; [apply IH; lia|].
      apply Hfree. by eapply list_elem_of_lookup_2.
    - apply lookup_ge_None in Hl. lia. }
  rewrite Hdown by done.
  destruct Hlast as [->|(before' & token & -> & Hex)]; [done|].
  rewrite length_app, Nat.add_1_r. cbn [stop_index].
  rewrite lookup_app_l by (rewrite length_app; simpl; lia).
  rewrite lookup_app_r by lia. rewrite Nat.sub_diag. cbn [lookup list_lookup].
  by rewrite bool_decide_eq_true_2.
Qed.

(** Where the pattern [( shortform )] first stands at [index], with a
    token after it, [_get_candidates] returns the longest end of the
    normalized tokens before [index] that holds no excluded token: however
    they split into [before ++ candidate], with no excluded token in
    [candidate] and with [before] empty or ending in an excluded token,
    [candidate] is the list returned. *)
Theorem _get_candidates_found self tokens index before candidate :
  (index + 3 < length tokens)%nat →
  pattern_at (shortform self) tokens index = true →
  (∀ j, (j < index)%nat → pattern_at (shortform self) tokens j = false) →
  normalized greek_alphabet lower tokens index = before ++ candidate →
  (∀ token, token ∈ candidate → token ∉ exclude self) →
  (before = [] ∨ ∃ before' token, before = before' ++ [token] ∧ token ∈ exclude self) →
  _get_candidates greek_alphabet lower self tokens = Some candidate.
Proof.
  intros Hlen Hat Hfirst Hnorm Hfree Hlast. unfold _get_candidates.
  rewrite (find_pattern_first _ _ index) by done.
  change (map lower _) with (normalized greek_alphabet lower tokens index).
  rewrite Hnorm, stop_index_at by done. by rewrite drop_app_length.
Qed.

(** C7, where the code departs from it.  A sentence that [consume] keeps,
    because the shortform in parentheses occurs in it, and in whose tokens
    no index holds the pattern [( shortform )]: [_get_candidates] returns
    [None], not an empty list, [_add] raises [TypeError] on it, and so does
    [consume]; the empty list is what [_add] would take without a change of
    the miner. *)
Theorem _add_raises_without_pattern self texts sentence :
  reachable stem self →
  sentence ∈ kept_sentences sent_tokenize (shortform self) texts →
  (∀ i, pattern_at (shortform self) (word_tokenize sentence) i = false) →
  _get_candidates greek_alphabet lower self (word_tokenize sentence) = None ∧
  _add stem self (_get_candidates greek_alphabet lower self (word_tokenize sentence))
  = Raise TypeError ∧
  consume stem greek_alphabet lower sent_tokenize word_tokenize self texts
  = Raise TypeError ∧
  _add stem self (Some []) = Ok self.
Proof.
  intros Hr Hin Hno.
  assert (_get_candidates greek_alphabet lower self (word_tokenize sentence) = None)
    as Hnone.
  { unfold _get_candidates, find_pattern. by rewrite find_seq_none. }
  rewrite Hnone. split; [done|]. split; [done|]. split; [|by destruct self].
  rewrite consume_unfold.
  match goal with |- for_each _ ?cs _ = _ => set (candidates := cs) end.
  pose proof (for_each_add_result candidates self Hr) as Hres.
  rewrite bool_decide_eq_true_2 in Hres; [done|].
  unfold candidates. rewrite list_elem_of_fmap. by exists sentence.
Qed.

End ConsumeFacts.

(* ===================================================================== *)
(** * What the counts and the sums of the mining trie are *)
(* ===================================================================== *)

Section CountFacts.
Import Mine MineSpec CountSpec.

Context {F : Type} {arith : Arith F} {laws : ArithLaws F}.
Variable stem : string → string.
Implicit Types (node current child new : TrieNode F) (st : Stats F).
Implicit Types (self : ContinuousMiner F) (longforms lfs : gmap (list string) F).

Lemma count_at_set_child node token child t p :
  count_at (set_child node token child) (t :: p) =
  if decide (token = t) then count_at child p else count_at node (t :: p).
Proof.
  unfold count_at. rewrite node_at_set_child. by destruct (decide (token = t)).
Qed.

Lemma count_at_same_children node node' t p :
  children node' = children node →
  count_at node' (t :: p) = count_at node (t :: p).
Proof. intros Hch. unfold count_at. by rewrite !node_at_cons, Hch. Qed.

Lemma count_at_child node token child p :
  children node !! token = Some child →
  count_at node (token :: p) = count_at child p.
Proof. intros Hc. unfold count_at. cbn [node_at]. by rewrite Hc. Qed.

Lemma count_at_no_child node token p :
  children node !! token = None → count_at node (token :: p) = 0.
Proof. intros Hc. unfold count_at. cbn [node_at]. by rewrite Hc. Qed.

Lemma increment_count_inv node node' :
  increment_count node = Ok node' →
  children node' = children node ∧ longform node' = longform node ∧
  ∃ st st', stats node = Some st ∧ stats node' = Some st' ∧ count st' = count st + 1.
Proof.
  unfold increment_count, get_stats. destruct (stats node) as [st|] eqn:Hs; [|done].
  cbn. intros [= <-]. split; [done|]. split; [done|]. by exists st; eexists.
Qed.

Lemma update_likelihood_inv node c node' :
  update_likelihood node c = Ok node' →
  children node' = children node ∧ longform node' = longform node ∧
  ∃ st st', stats node = Some st ∧ stats node' = Some st' ∧ count st' = count st.
Proof.
  unfold update_likelihood, get_stats. destruct (stats node) as [st|] eqn:Hs; [|done].
  cbn [mbind result_bind].
  destruct (if sum_ft2 st =? 0 then _ else _) as [old|]; [|done].
  cbn [mbind result_bind].
  destruct (truediv _ _) as [new|]; [|done]. cbn [mbind result_bind].
  intros [= <-]. split; [done|]. split; [done|]. by exists st; eexists.
Qed.

Lemma hit_cons token (q rest : list string) :
  hit (token :: q) (token :: rest) = if decide (q `prefix_of` rest) then 1 else 0.
Proof.
  unfold hit. destruct (decide (q `prefix_of` rest)) as [Hq|Hq].
  - rewrite decide_True; [done|]. split; [done|]. by apply prefix_cons.
  - rewrite decide_False; [done|]. intros [_ Hp]. by apply prefix_cons_inv_2 in Hp.
Qed.

Lemma hit_other t token (q rest : list string) :
  token ≠ t → hit (t :: q) (token :: rest) = 0.
Proof.
  intros Hne. unfold hit. rewrite decide_False; [done|]. intros [_ Hp].
  by apply prefix_cons_inv_1 in Hp.
Qed.

Lemma hit_nil (tokens : list string) : hit ([] : list string) tokens = 0.
Proof. unfold hit. rewrite decide_False; [done|]. by intros [? _]. Qed.

Lemma hit_nonempty t (q tokens : list string) :
  hit (t :: q) tokens = if decide ((t :: q) `prefix_of` tokens) then 1 else 0.
Proof.
  unfold hit. destruct (decide ((t :: q) `prefix_of` tokens)) as [Hq|Hq].
  - by rewrite decide_True.
  - rewrite decide_False; [done|]. by intros [_ ?].
Qed.

Lemma count_at_init lf p :
  count_at (TrieNode_init lf) p =
  match p, lf with
  | [], _ :: _ => 1
  | _, _ => 0
  end.
Proof.
  destruct p as [|t p].
  - unfold count_at. cbn. by destruct lf.
  - unfold count_at. cbn. by rewrite lookup_empty.
Qed.

(** One run of the loop of [_add] adds one to the count of the nodes on
    the path of the tokens, the new ones counting from nothing, and leaves
    every other count as it is. *)
Lemma _add_loop_counts tokens : ∀ current longforms current' longforms',
  _add_loop tokens current longforms = Ok (current', longforms') →
  ∀ p, count_at current' p = count_at current p + hit p tokens.
Proof.
  induction tokens as [|token rest IH]; intros current longforms current' longforms' Hrun p.
  - injection Hrun as <- <-. unfold hit. rewrite decide_False; [lia|].
    intros [Hne Hp]. by apply prefix_nil_inv in Hp.
  - cbn [_add_loop] in Hrun.
    destruct (children current !! token) as [child|] eqn:Hch.
    + destruct (increment_count child) as [child1|] eqn:Hinc; [|done].
      cbn [mbind result_bind] in Hrun.
      apply increment_count_inv in Hinc as (Hch1 & Hlf1 & st & st1 & Hs & Hs1 & Hcnt).
      rewrite (get_stats_Some _ _ Hs1) in Hrun. cbn [mbind result_bind] in Hrun.
      match type of Hrun with
      | (mbind _ ?upd = _) => destruct upd as [[current1 lfs1]|] eqn:Hupd; [|done]
      end.
      assert (children current1 = children current ∧
              count_at current1 [] = count_at current []) as [Hcc Hc0].
      { destruct (longform current) as [|a l].
        - by injection Hupd as <- <-.
        - destruct (update_likelihood current (count st1)) as [current2|] eqn:Hul;
            [|done].
          cbn [mbind result_bind] in Hupd.
          apply update_likelihood_inv in Hul as (Hc2 & _ & cst & cst2 & Hcs & Hcs2 & Hcc).
          rewrite (get_stats_Some _ _ Hcs2) in Hupd. cbn [mbind result_bind] in Hupd.
          injection Hupd as <- <-. split; [done|].
          unfold count_at. cbn [node_at]. by rewrite Hcs, Hcs2. }
      cbn [mbind result_bind] in Hrun.
      destruct (_add_loop rest child1 lfs1) as [[child' lfs']|] eqn:Hrec; [|done].
      cbn [mbind result_bind] in Hrun. injection Hrun as <- <-.
      pose proof (IH _ _ _ _ Hrec) as Hrest.
      destruct p as [|t q].
      * rewrite hit_nil. unfold count_at in *. cbn [node_at set_child stats] in *. lia.
      * rewrite count_at_set_child. destruct (decide (token = t)) as [<-|Hne].
        -- rewrite Hrest, hit_cons, (count_at_child current token child) by done.
           destruct q as [|t' q'].
           ++ rewrite hit_nil, decide_True by apply prefix_nil.
              unfold count_at. cbn [node_at]. rewrite Hs, Hs1. lia.
           ++ rewrite hit_nonempty, (count_at_same_children child child1) by done. done.
        -- rewrite hit_other by done.
           rewrite (count_at_same_children current current1) by done. lia.
    + destruct (get_stats _) as [st|] eqn:Hst; [|done].
      cbn [mbind result_bind] in Hrun.
      destruct (_add_loop rest _ _) as [[new' lfs']|] eqn:Hrec; [|done].
      cbn [mbind result_bind] in Hrun. injection Hrun as <- <-.
      pose proof (IH _ _ _ _ Hrec) as Hrest.
      destruct p as [|t q].
      * rewrite hit_nil. unfold count_at. cbn [node_at set_child stats]. lia.
      * rewrite count_at_set_child. destruct (decide (token = t)) as [<-|Hne].
        -- rewrite Hrest, hit_cons, count_at_no_child, count_at_init by done.
           destruct q as [|t' q'].
           ++ rewrite hit_nil, decide_True by apply prefix_nil.
              by destruct (longform current).
           ++ by rewrite hit_nonempty.
        -- rewrite hit_other by done. lia.
Qed.

Lemma _add_counts self tokens self' :
  _add stem self (Some tokens) = Ok self' →
  ∀ p, p ≠ [] →
       count_at (_internal_trie self') p
       = count_at (_internal_trie self) p
         + if decide (p `prefix_of` rev (map stem tokens)) then 1 else 0.
Proof.
  unfold _add. destruct (_add_loop _ _ _) as [[trie lfs]|] eqn:Hrun; [|done].
  cbn [mbind result_bind]. intros [= <-] p Hne. cbn [_internal_trie].
  rewrite (_add_loop_counts _ _ _ _ _ Hrun). destruct p as [|t q]; [done|].
  by rewrite hit_nonempty.
Qed.

Lemma occurrences_cons tokens history p :
  occurrences stem (tokens :: history) p
  = (if decide (p `prefix_of` rev (map stem tokens)) then 1 else 0)
    + occurrences stem history p.
Proof.
  unfold occurrences. rewrite filter_cons.
  destruct (decide (p `prefix_of` rev (map stem tokens))); cbn [length]; lia.
Qed.

Lemma for_each_add_counts history : ∀ self,
  reachable stem self →
  ∃ self',
    for_each (_add stem) (map Some history) self = Ok self' ∧
    reachable stem self' ∧
    ∀ p, p ≠ [] →
         count_at (_internal_trie self') p
         = count_at (_internal_trie self) p + occurrences stem history p.
Proof.
  induction history as [|tokens history IH]; intros self Hr.
  - exists self. split; [done|]. split; [done|]. intros p _.
    unfold occurrences. cbn. lia.
  - cbn [map for_each].
    destruct (_add_list_reachable stem self tokens Hr) as (self1 & Hadd & Hr1).
    rewrite Hadd. cbn [mbind result_bind].
    destruct (IH self1 Hr1) as (self' & Hrun & Hr' & Hcnt).
    exists self'. split; [done|]. split; [done|]. intros p Hne.
    rewrite (Hcnt p Hne), (_add_counts _ _ _ Hadd p Hne), occurrences_cons. lia.
Qed.

(** The count of a node is the number of times its longform was seen.
    Adding the candidates of [history] to a new miner, one after the other,
    raises nothing, and leaves a trie that has a node at a path that is
    not empty exactly when a candidate begins with it, its stemmed tokens
    read from the last to the first; the [count] of the node is the number
    of those candidates. *)
Theorem count_is_number_of_candidates shortform exclude history :
  ∃ self,
    for_each (_add stem) (map Some history) (ContinuousMiner_init shortform exclude)
      = Ok self ∧
    ∀ path, path ≠ [] →
      match node_at (_internal_trie self) path with
      | Some node =>
          ∃ st, stats node = Some st ∧
                count st = occurrences stem history path ∧ 1 ≤ count st
      | None => occurrences stem history path = 0
      end.
Proof.
  destruct (for_each_add_counts history (ContinuousMiner_init shortform exclude))
    as (self & Hrun & Hr & Hcnt); [apply reachable_init|].
  exists self. split; [done|]. intros path Hne.
  specialize (Hcnt path Hne).
  assert (count_at (_internal_trie (ContinuousMiner_init shortform exclude)) path = 0)
    as H0.
  { destruct path as [|t q]; [done|]. unfold count_at. cbn. by rewrite lookup_empty. }
  rewrite H0 in Hcnt. unfold count_at in Hcnt.
  destruct (node_at (_internal_trie self) path) as [node|] eqn:Hat; [|lia].
  destruct (reachable_ok stem self Hr path node Hat) as (_ & _ & Hst).
  destruct (Hst Hne) as (st & Hs & Hc & _). rewrite Hs in Hcnt.
  exists st. split; [done|]. split; [lia|done].
Qed.

End CountFacts.

Section SumFacts.
Import Mine MineSpec CountSpec SumSpec.

Context {F : Type} {arith : Arith F} {laws : ArithLaws F}.
Variable stem : string → string.
Implicit Types (node current child new : TrieNode F) (st : Stats F).
Implicit Types (self : ContinuousMiner F) (longforms lfs : gmap (list string) F).

Lemma child_sum_children f node node' :
  children node' = children node → child_sum f node' = child_sum f node.
Proof. unfold child_sum. by intros ->. Qed.

Lemma child_sum_new f node token child :
  children node !! token = None →
  child_sum f (set_child node token child)
  = child_sum f node + f (count_at child []).
Proof.
  intros Hc. unfold child_sum. cbn [children set_child].
  rewrite map_fold_insert_L; [done| |done].
  intros. lia.
Qed.

Lemma child_sum_again f node token old child :
  children node !! token = Some old →
  child_sum f (set_child node token child)
  = child_sum f node - f (count_at old []) + f (count_at child []).
Proof.
  intros Hc. unfold child_sum. cbn [children set_child].
  rewrite <- (insert_delete_id (children node) token old Hc) at 2.
  rewrite <- insert_delete_eq.
  rewrite !map_fold_insert_L; try (by rewrite lookup_delete_eq); intros; lia.
Qed.

Lemma increment_count_sums node node' :
  increment_count node = Ok node' →
  ∃ st st', stats node = Some st ∧ stats node' = Some st' ∧
            sum_ft st' = sum_ft st ∧ sum_ft2 st' = sum_ft2 st.
Proof.
  unfold increment_count, get_stats. destruct (stats node) as [st|] eqn:Hs; [|done].
  cbn. intros [= <-]. by exists st; eexists.
Qed.

Lemma update_likelihood_sums node c node' :
  update_likelihood node c = Ok node' →
  ∃ st st', stats node = Some st ∧ stats node' = Some st' ∧
            sum_ft st' = sum_ft st + 1 ∧ sum_ft2 st' = sum_ft2 st + (2 * c - 1).
Proof.
  unfold update_likelihood, get_stats. destruct (stats node) as [st|] eqn:Hs; [|done].
  cbn [mbind result_bind].
  destruct (if sum_ft2 st =? 0 then _ else _) as [old|]; [|done].
  cbn [mbind result_bind].
  destruct (truediv _ _) as [new|]; [|done]. cbn [mbind result_bind].
  intros [= <-]. by exists st; eexists.
Qed.

Lemma sums_ok_same_children node node' st st' :
  children node' = children node →
  stats node = Some st → stats node' = Some st' →
  sum_ft st' = sum_ft st → sum_ft2 st' = sum_ft2 st →
  sums_ok node → sums_ok node'.
Proof.
  intros Hch Hs Hs' Hf Hf2 Hok [|t q] n sn.
  - cbn [node_at]. intros [= <-] Hsn. rewrite Hs' in Hsn. injection Hsn as <-.
    rewrite Hf, Hf2, !(child_sum_children _ node node') by done.
    by apply (Hok [] node st).
  - rewrite node_at_cons, Hch, <- node_at_cons. apply Hok.
Qed.

Lemma sums_ok_init lf : sums_ok (TrieNode_init lf).
Proof.
  intros [|t q] n st.
  - cbn [node_at]. intros [= <-]. unfold child_sum. cbn [children TrieNode_init].
    rewrite !map_fold_empty. destruct lf; [done|]. cbn. by intros [= <-].
  - cbn. by rewrite lookup_empty.
Qed.

Lemma _add_loop_sums tokens : ∀ path current longforms current' longforms',
  subtrie_ok path current → sums_ok current →
  _add_loop tokens current longforms = Ok (current', longforms') →
  sums_ok current'.
Proof.
  induction tokens as [|token rest IH];
    intros path current longforms current' longforms' Hok Hsums Hrun.
  - by injection Hrun as <- <-.
  - pose proof (Hok [] current eq_refl) as Hcur. rewrite app_nil_r in Hcur.
    pose proof Hcur as (Hlf & Hroot & _).
    cbn [_add_loop] in Hrun.
    destruct (children current !! token) as [child|] eqn:Hch.
    + assert (subtrie_ok (path ++ [token]) child) as Hchild.
      { intros p n Hp. rewrite <- app_assoc. apply Hok. simpl. by rewrite Hch. }
      assert (path ++ [token] ≠ []) as Hne by (by destruct path).
      pose proof (Hchild [] child eq_refl) as Hc0. rewrite app_nil_r in Hc0.
      destruct (increment_count_ok _ _ Hne Hc0)
        as (child1 & Hinc & Hok1 & Hch1 & st & st1 & Hs & Hs1 & Hcnt).
      destruct (increment_count_sums _ _ Hinc) as (st_ & st1_ & Hs_ & Hs1_ & Hf & Hf2).
      rewrite Hs in Hs_. injection Hs_ as <-. rewrite Hs1 in Hs1_. injection Hs1_ as <-.
      rewrite Hinc in Hrun. cbn [mbind result_bind] in Hrun.
      rewrite (get_stats_Some _ _ Hs1) in Hrun. cbn [mbind result_bind] in Hrun.
      assert (subtrie_ok (path ++ [token]) child1) as Hsub1
        by (by eapply subtrie_ok_same_children).
      assert (sums_ok child1) as Hsums1.
      { apply (sums_ok_same_children child child1 st st1); try done.
        intros p n sn Hp. apply (Hsums (token :: p)). simpl. by rewrite Hch. }
      match type of Hrun with
      | (mbind _ ?upd = _) => destruct upd as [[current1 lfs1]|] eqn:Hupd; [|done]
      end.
      cbn [mbind result_bind] in Hrun.
      destruct (_add_loop rest child1 lfs1) as [[child' lfs']|] eqn:Hrec; [|done].
      cbn [mbind result_bind] in Hrun. injection Hrun as <- <-.
      pose proof (IH _ _ _ _ _ Hsub1 Hsums1 Hrec) as Hsums'.
      pose proof (_add_loop_counts _ _ _ _ _ Hrec []) as Hcount.
      rewrite hit_nil in Hcount.
      assert (count_at child [] = count st) as Hcc
        by (unfold count_at; cbn [node_at]; by rewrite Hs).
      assert (count_at child' [] = count st + 1) as Hcc'.
      { rewrite Hcount. unfold count_at. cbn [node_at]. rewrite Hs1. lia. }
      intros [|t q] n sn.
      * cbn [node_at]. intros [= <-]. cbn [stats set_child]. intros Hsn.
        destruct (longform current) as [|a l] eqn:Hlc.
        { injection Hupd as <- <-. rewrite Hroot in Hsn by done. done. }
        destruct (update_likelihood current (count st1)) as [current2|] eqn:Hul;
          [|done].
        cbn [mbind result_bind] in Hupd.
        pose proof (update_likelihood_inv _ _ _ Hul) as (Hc2 & _).
        apply update_likelihood_sums in Hul as (cst & cst2 & Hcs & Hcs2 & Hg & Hg2).
        rewrite (get_stats_Some _ _ Hcs2) in Hupd. cbn [mbind result_bind] in Hupd.
        injection Hupd as <- <-. rewrite Hcs2 in Hsn. injection Hsn as <-.
        destruct (Hsums [] current cst eq_refl Hcs) as [Hcf Hcf2].
        rewrite !(child_sum_again _ current2 token child child')
          by (by rewrite Hc2).
        rewrite !(child_sum_children _ current current2) by done.
        rewrite Hcc, Hcc', Hg, Hg2, Hcf, Hcf2. split; nia.
      * rewrite node_at_set_child. destruct (decide (token = t)) as [<-|Hnt].
        -- apply Hsums'.
        -- assert (children current1 = children current) as Hc1.
           { destruct (longform current) as [|a l].
             - by injection Hupd as <- <-.
             - destruct (update_likelihood current (count st1)) as [current2|] eqn:Hul;
                 [|done].
               cbn [mbind result_bind] in Hupd.
               apply update_likelihood_inv in Hul as (Hc2 & _ & cst & cst2 & _ & Hcs2 & _).
               rewrite (get_stats_Some _ _ Hcs2) in Hupd.
               cbn [mbind result_bind] in Hupd. by injection Hupd as <- <-. }
           rewrite node_at_cons, Hc1, <- node_at_cons. apply Hsums.
    + rewrite Hlf in Hrun.
      pose proof (subtrie_ok_init path token) as Hnew.
      destruct (get_stats _) as [st0|] eqn:Hst0; [|done].
      cbn [mbind result_bind] in Hrun.
      destruct (_add_loop rest _ _) as [[new' lfs']|] eqn:Hrec; [|done].
      cbn [mbind result_bind] in Hrun. injection Hrun as <- <-.
      pose proof (IH _ _ _ _ _ Hnew (sums_ok_init _) Hrec) as Hsums'.
      pose proof (_add_loop_counts _ _ _ _ _ Hrec []) as Hcount.
      rewrite hit_nil, count_at_init in Hcount.
      assert (count_at new' [] = 1) as Hc1.
      { rewrite Hcount. by destruct path. }
      intros [|t q] n sn.
      * cbn [node_at]. intros [= <-]. cbn [stats set_child]. intros Hsn.
        rewrite !child_sum_new, Hc1 by done.
        destruct (Hsums [] current sn eq_refl Hsn) as [-> ->]. split; lia.
      * rewrite node_at_set_child. destruct (decide (token = t)) as [<-|Hnt].
        -- apply Hsums'.
        -- apply Hsums.
Qed.

Lemma reachable_sums self : reachable stem self → sums_ok (_internal_trie self).
Proof.
  induction 1 as [sf ex|self tokens self' Hr IH Hadd].
  - apply sums_ok_init.
  - destruct tokens as [tokens|]; [|done]. unfold _add in Hadd.
    destruct (_add_loop _ _ _) as [[trie lfs]|] eqn:Hrun; [|done].
    cbn [mbind result_bind] in Hadd. injection Hadd as <-. cbn [_internal_trie].
    by apply (_add_loop_sums _ [] _ _ _ _ (reachable_ok stem _ Hr) IH Hrun).
Qed.

(** What [sum_ft] and [sum_ft2] hold after any sequence of [_add] calls:
    at every node but the root, [sum_ft] is the sum over its children of
    [count - 1] and [sum_ft2] the sum of [count * count - 1]: the first
    observation of a child, which creates its node, is not counted. *)
Theorem sums_over_children self path node st :
  reachable stem self →
  node_at (_internal_trie self) path = Some node →
  stats node = Some st →
  sum_ft st = child_sum (λ c, c - 1) node ∧
  sum_ft2 st = child_sum (λ c, c * c - 1) node.
Proof. intros Hr. by apply reachable_sums. Qed.

End SumFacts.

Section KeyFacts.
Import Mine MineSpec TableSpec CountSpec.

Context {F : Type} {arith : Arith F} {laws : ArithLaws F}.
Variable stem : string → string.
Implicit Types (node current child new : TrieNode F) (st : Stats F).
Implicit Types (self : ContinuousMiner F) (longforms lfs : gmap (list string) F).

(** The keys one run of the loop of [_add] writes: the longforms of the
    nodes on the path of the tokens, the root apart. *)
Lemma _add_loop_keys tokens : ∀ path current longforms current' longforms',
  subtrie_ok path current →
  _add_loop tokens current longforms = Ok (current', longforms') →
  ∀ key, is_Some (longforms' !! key) →
         is_Some (longforms !! key) ∨
         ∃ p, p `prefix_of` tokens ∧ path ++ p ≠ [] ∧ key = rev (path ++ p).
Proof.
  induction tokens as [|token rest IH];
    intros path current longforms current' longforms' Hok Hrun key Hkey.
  - injection Hrun as <- <-. by left.
  - pose proof (Hok [] current eq_refl) as Hcur. rewrite app_nil_r in Hcur.
    pose proof Hcur as (Hlf & Hroot & _).
    assert (path ++ [token] ≠ []) as Hne by (by destruct path).
    assert (∀ lfs1 child1 c' lfs',
              subtrie_ok (path ++ [token]) child1 →
              _add_loop rest child1 lfs1 = Ok (c', lfs') →
              is_Some (lfs' !! key) →
              (∀ key, is_Some (lfs1 !! key) →
                      is_Some (longforms !! key) ∨
                      key = rev (path ++ [token]) ∨ (path ≠ [] ∧ key = rev path)) →
              is_Some (longforms !! key) ∨
              ∃ p, p `prefix_of` token :: rest ∧ path ++ p ≠ [] ∧ key = rev (path ++ p))
      as Hstep.
    { intros lfs1 child1 c' lfs' Hsub1 Hrec Hk' Hkeys1.
      destruct (IH _ _ _ _ _ Hsub1 Hrec key Hk') as [Hold|(q & Hq & Hqne & ->)].
      - destruct (Hkeys1 key Hold) as [?|[->|[Hp ->]]]; [by left|..].
        + right. exists [token]. split; [|done]. apply prefix_cons, prefix_nil.
        + right. exists []. rewrite app_nil_r. split; [apply prefix_nil|done].
      - right. exists (token :: q). split; [by apply prefix_cons|].
        rewrite <- app_assoc in Hqne |- *. done. }
    cbn [_add_loop] in Hrun.
    destruct (children current !! token) as [child|] eqn:Hch.
    + assert (subtrie_ok (path ++ [token]) child) as Hchild.
      { intros p n Hp. rewrite <- app_assoc. apply Hok. simpl. by rewrite Hch. }
      pose proof (Hchild [] child eq_refl) as Hc0. rewrite app_nil_r in Hc0.
      destruct (increment_count_ok _ _ Hne Hc0)
        as (child1 & Hinc & Hok1 & Hch1 & st & st1 & Hs & Hs1 & Hcnt).
      rewrite Hinc in Hrun. cbn [mbind result_bind] in Hrun.
      rewrite (get_stats_Some _ _ Hs1) in Hrun. cbn [mbind result_bind] in Hrun.
      assert (subtrie_ok (path ++ [token]) child1) as Hsub1
        by (by eapply subtrie_ok_same_children).
      destruct Hok1 as (Hlf1 & _).
      match type of Hrun with
      | (mbind _ ?upd = _) => destruct upd as [[current1 lfs1]|] eqn:Hupd; [|done]
      end.
      cbn [mbind result_bind] in Hrun.
      destruct (_add_loop rest child1 lfs1) as [[child' lfs']|] eqn:Hrec; [|done].
      cbn [mbind result_bind] in Hrun. injection Hrun as <- <-.
      apply (Hstep lfs1 child1 child' lfs' Hsub1 Hrec Hkey).
      intros k Hk. rewrite Hlf1 in Hupd.
      destruct (longform current) as [|a l] eqn:Hlc.
      * injection Hupd as <- <-.
        apply lookup_insert_is_Some in Hk as [<-|[_ Hk]]; [right; by left|by left].
      * destruct (update_likelihood current (count st1)) as [current2|] eqn:Hul;
          [|done].
        cbn [mbind result_bind] in Hupd.
        apply update_likelihood_inv in Hul as (_ & Hlf2 & cst & cst2 & _ & Hcs2 & _).
        rewrite (get_stats_Some _ _ Hcs2) in Hupd. cbn [mbind result_bind] in Hupd.
        injection Hupd as <- <-. rewrite Hlf2, Hlc in Hk.
        apply lookup_insert_is_Some in Hk as [<-|[_ Hk]].
        { right; right. rewrite <- Hlf. done. }
        apply lookup_insert_is_Some in Hk as [<-|[_ Hk]]; [right; by left|by left].
    + rewrite Hlf in Hrun.
      pose proof (subtrie_ok_init path token) as Hnew.
      destruct (get_stats _) as [st0|] eqn:Hst0; [|done].
      cbn [mbind result_bind] in Hrun.
      destruct (_add_loop rest _ _) as [[new' lfs']|] eqn:Hrec; [|done].
      cbn [mbind result_bind] in Hrun. injection Hrun as <- <-.
      apply (Hstep _ _ _ _ Hnew Hrec Hkey).
      intros k Hk. cbn [longform TrieNode_init] in Hk.
      apply lookup_insert_is_Some in Hk as [<-|[_ Hk]]; [right; by left|by left].
Qed.

Lemma count_at_reachable self p :
  reachable stem self → p ≠ [] →
  (1 ≤ count_at (_internal_trie self) p ↔ is_Some (node_at (_internal_trie self) p)) ∧
  0 ≤ count_at (_internal_trie self) p.
Proof.
  intros Hr Hne. pose proof (reachable_ok stem self Hr) as Hok. unfold count_at.
  destruct (node_at (_internal_trie self) p) as [node|] eqn:Hat.
  - destruct (Hok p node Hat) as (_ & _ & Hst). destruct (Hst Hne) as (st & -> & Hc & _).
    split; [|lia]. split; [by eexists|done].
  - split; [|lia]. split; [lia|by intros [? ?]].
Qed.

Lemma reachable_keys self :
  reachable stem self →
  ∀ key, is_Some (_longforms self !! key) →
         ∃ p, p ≠ [] ∧ key = rev p ∧ is_Some (node_at (_internal_trie self) p).
Proof.
  induction 1 as [sf ex|self tokens self' Hr IH Hadd]; intros key Hkey.
  - cbn in Hkey. rewrite lookup_empty in Hkey. by destruct Hkey.
  - assert (reachable stem self') as Hr' by (by eapply reachable_add).
    destruct tokens as [tokens|]; [|done]. unfold _add in Hadd.
    destruct (_add_loop _ _ _) as [[trie lfs]|] eqn:Hrun; [|done].
    cbn [mbind result_bind] in Hadd. injection Hadd as <-. cbn [_longforms] in Hkey.
    pose proof (_add_loop_counts _ _ _ _ _ Hrun) as Hcount.
    assert (∀ p, p ≠ [] → hit p (rev (map stem tokens)) = 1 ∨
                          is_Some (node_at (_internal_trie self) p) →
                 is_Some (node_at trie p)) as Hnode.
    { intros p Hp Hcase.
      apply (count_at_reachable (mkContinuousMiner (shortform self) trie lfs (exclude self))
               p Hr' Hp).
      cbn [_internal_trie]. rewrite Hcount.
      destruct (count_at_reachable self p Hr Hp) as [Hiff Hnn].
      destruct Hcase as [->|Hsome]; [lia|]. apply Hiff in Hsome.
      unfold hit. destruct (decide _); lia. }
    destruct (_add_loop_keys _ _ _ _ _ _ (reachable_ok stem _ Hr) Hrun key Hkey)
      as [Hold|(p & Hpre & Hp & ->)].
    + destruct (IH key Hold) as (p & Hp & -> & Hsome).
      exists p. split; [done|]. split; [done|]. apply Hnode; [done|by right].
    + cbn [app] in Hp |- *. exists p. split; [done|]. split; [done|].
      apply Hnode; [done|]. left. unfold hit. by rewrite decide_True.
Qed.

(** The table of longforms holds nothing but the nodes of the trie: after
    any sequence of [_add] calls, every key of [_longforms] is the longform,
    in forward order, of a node of the trie that is not the root, and its
    value is the likelihood of that node. *)
Theorem longforms_only_nodes self key lh :
  reachable stem self →
  _longforms self !! key = Some lh →
  ∃ path node st,
    path ≠ [] ∧ key = rev path ∧
    node_at (_internal_trie self) path = Some node ∧
    longform node = path ∧
    stats node = Some st ∧ lh = LH st.
Proof.
  intros Hr Hkey.
  destruct (reachable_keys self Hr key) as (p & Hp & -> & node & Hat); [by eexists|].
  destruct (reachable_full stem self Hr) as [Hok Htab].
  destruct (Hok p node Hat) as (Hlf & _ & Hst). destruct (Hst Hp) as (st & Hs & _).
  exists p, node, st. do 4 (split; [done|]). split; [done|].
  pose proof (Htab p node st Hat Hs) as Hlh. cbn [app] in Hlh.
  rewrite Hlh in Hkey. by injection Hkey as <-.
Qed.

End KeyFacts.

(* ===================================================================== *)
(** * Insertion and search in the recognition trie *)
(* ===================================================================== *)

Section SearchFacts.
Import Recognize RecognizeSpec TrieSpec.

Variable stem : string → string.
Context {span : Type}.
Variable tokenize : string → list (string * span).

Lemma node_at_app (trie : _TrieNode) p : ∀ q,
  node_at trie (p ++ q) = node_at trie p ≫= λ n, node_at n q.
Proof.
  revert trie. induction p as [|t p IH]; intros trie q; [done|].
  cbn [app node_at]. destruct (children trie !! t); [apply IH|done].
Qed.

Lemma node_at_prefix (trie : _TrieNode) p q :
  is_Some (node_at trie (p ++ q)) → is_Some (node_at trie p).
Proof.
  rewrite node_at_app. destruct (node_at trie p); [by eexists|by intros [? ?]].
Qed.

(** The nodes of the trie after an insertion: those that were there, with
    their longforms, and new ones along the path of the longform, of which
    the last one alone stores it. *)
Lemma insert_edges_node_at lf edges : ∀ trie p node',
  node_at (insert_edges lf edges trie) p = Some node' →
  (∃ node, node_at trie p = Some node ∧ longform node' = longform node) ∨
  (node_at trie p = None ∧ p ≠ [] ∧ p `prefix_of` edges ∧
   longform node' = if decide (p = edges) then Some lf else None).
Proof.
  induction edges as [|token rest IH]; intros trie p node' Hat.
  - left. by exists node'.
  - destruct p as [|t p].
    + left. exists trie. split; [done|]. injection Hat as <-. cbn [insert_edges].
      by destruct (children trie !! token).
    + cbn [insert_edges] in Hat.
      destruct (children trie !! token) as [child|] eqn:Hc;
        rewrite rnode_at_set_child in Hat;
        (destruct (decide (token = t)) as [<-|Hne]; [|left; by exists node']).
      * apply IH in Hat as [(node & Hn & Hl)|(Hn & Hne & Hpre & Hl)].
        -- left. exists node. split; [|done]. cbn [node_at]. by rewrite Hc.
        -- right. split; [cbn [node_at]; by rewrite Hc|]. split; [done|].
           split; [by apply prefix_cons|]. rewrite Hl.
           destruct (decide (p = rest)) as [->|Hpr].
           ++ by rewrite decide_True.
           ++ rewrite decide_False; [done|]. by intros [= ->].
      * right. split; [cbn [node_at]; by rewrite Hc|]. split; [done|].
        apply IH in Hat as [(node & Hn & Hl)|(Hn & Hne & Hpre & Hl)].
        -- destruct p as [|t' p].
           ++ injection Hn as <-. split; [apply prefix_cons, prefix_nil|].
              rewrite Hl. destruct rest as [|r rest]; cbn [_TrieNode_init longform].
              ** by rewrite decide_True.
              ** rewrite decide_False; [done|]. by intros [=].
           ++ destruct rest; cbn [_TrieNode_init node_at children] in Hn;
                by rewrite lookup_empty in Hn.
        -- split; [by apply prefix_cons|]. rewrite Hl.
           destruct (decide (p = rest)) as [->|Hpr].
           ++ by rewrite decide_True.
           ++ rewrite decide_False; [done|]. by intros [= ->].
Qed.

Lemma insert_edges_path lf edges : ∀ trie,
  is_Some (node_at (insert_edges lf edges trie) edges).
Proof.
  induction edges as [|token rest IH]; intros trie; [by eexists|].
  cbn [insert_edges]. destruct (children trie !! token);
    rewrite rnode_at_set_child, decide_True by done; apply IH.
Qed.

Lemma trie_holds_empty : trie_holds stem tokenize (_TrieNode_init None) [].
Proof.
  split; [|split].
  - intros [|t p]; [by left|]. cbn. rewrite lookup_empty. by intros [? ?].
  - intros [|t p] lf (node & Hat & Hl); cbn in Hat.
    + by injection Hat as <-.
    + by rewrite lookup_empty in Hat.
  - intros item Hin. by apply elem_of_nil in Hin.
Qed.

Lemma trie_holds_insert trie done item :
  trie_holds stem tokenize trie done →
  path_of stem tokenize item ≠ [] →
  (∀ item', item' ∈ done →
            incomparable (path_of stem tokenize item) (path_of stem tokenize item')) →
  trie_holds stem tokenize
    (insert_edges (fst item) (path_of stem tokenize item) trie) (done ++ [item]).
Proof.
  intros (Hnodes & Hstored & Hall) Hne Hinc. cbn beta.
  assert (node_at trie (path_of stem tokenize item) = None) as Hfresh.
  { destruct (node_at trie (path_of stem tokenize item)) as [n|] eqn:Hat; [|done].
    destruct (Hnodes (path_of stem tokenize item)) as [?|(item' & Hin & Hpre)]; [by eexists|done|].
    by destruct (Hinc item' Hin). }
  split; [|split].
  - intros p [node' Hat].
    apply insert_edges_node_at in Hat as [(node & Hn & _)|(_ & _ & Hpre & _)].
    + destruct (Hnodes p) as [?|(item' & Hin & Hpre)]; [by eexists|by left|].
      right. exists item'. split; [|done]. apply elem_of_app. by left.
    + right. exists item. split; [|done]. apply elem_of_app. right.
      apply list_elem_of_here.
  - intros p lf (node' & Hat & Hl).
    apply insert_edges_node_at in Hat as [(node & Hn & Hl')|(_ & _ & Hpre & Hl')].
    + destruct (Hstored p lf) as (-> & g & Hin).
      { exists node. split; [done|]. by rewrite <- Hl'. }
      split; [done|]. exists g. apply elem_of_app. by left.
    + rewrite Hl in Hl'. destruct (decide (p = path_of stem tokenize item)) as [->|]; [|done].
      injection Hl' as ->. split; [done|]. destruct item as [lf g]. exists g.
      apply elem_of_app. right. apply list_elem_of_here.
  - intros item' [Hin|Hin%list_elem_of_singleton]%elem_of_app.
    + destruct (Hall item' Hin) as (node & Hat & Hl).
      destruct (insert_edges_node_kept (fst item) (path_of stem tokenize item) trie _ _ Hat)
        as (node' & Hat' & Hl').
      exists node'. split; [done|]. by rewrite Hl'.
    + subst item'.
      destruct (insert_edges_path (fst item) (path_of stem tokenize item) trie)
        as [node' Hat].
      exists node'. split; [done|].
      apply insert_edges_node_at in Hat as Hcase.
      destruct Hcase as [(node & Hn & _)|(_ & _ & _ & Hl)].
      * by rewrite Hfresh in Hn.
      * by rewrite decide_True in Hl.
Qed.

Lemma trie_holds_fold rest : ∀ trie done,
  trie_holds stem tokenize trie done →
  prefix_free (map (path_of stem tokenize) rest) →
  (∀ item item', item ∈ rest → item' ∈ done →
     incomparable (path_of stem tokenize item) (path_of stem tokenize item')) →
  trie_holds stem tokenize
    (fold_left (λ root (item : string * string),
                  insert_edges (fst item) (edges_of stem tokenize (fst item)) root)
               rest trie)
    (done ++ rest).
Proof.
  induction rest as [|item rest IH]; intros trie done Hinv Hfree Hinc.
  - by rewrite app_nil_r.
  - cbn [fold_left]. destruct Hfree as (Hne & Hrest & Hfree).
    replace (done ++ item :: rest) with ((done ++ [item]) ++ rest)
      by (by rewrite <- app_assoc).
    apply IH; [|done|].
    + apply trie_holds_insert; [done|done|]. intros item' Hin. apply Hinc; [|done].
      apply list_elem_of_here.
    + intros i i' Hi [Hi'|Hi'%list_elem_of_singleton]%elem_of_app.
      * apply Hinc; [by apply list_elem_of_further|done].
      * subst i'. rewrite Forall_forall in Hrest.
        destruct (Hrest (path_of stem tokenize i)) as [H1 H2]; [|by split].
        apply list_elem_of_fmap. by exists i.
Qed.

Lemma _init_trie_holds gm :
  prefix_free (map (path_of stem tokenize) gm) →
  trie_holds stem tokenize (_init_trie stem tokenize gm) gm.
Proof.
  intros Hfree. unfold _init_trie.
  apply (trie_holds_fold gm (_TrieNode_init None) []); [apply trie_holds_empty|done|].
  intros i i' _ Hin. by apply elem_of_nil in Hin.
Qed.

Lemma dict_get_prefix_free gm lf g :
  prefix_free (map (path_of stem tokenize) gm) → (lf, g) ∈ gm → dict_get gm lf = Ok g.
Proof.
  induction gm as [|[k v] gm IH]; intros Hfree Hin; [by apply elem_of_nil in Hin|].
  destruct Hfree as (_ & Hrest & Hfree). cbn [dict_get].
  apply elem_of_cons in Hin as [[= -> ->]|Hin].
  - by rewrite bool_decide_eq_true_2.
  - destruct (decide (k = lf)) as [->|Hne].
    + rewrite Forall_forall in Hrest.
      destruct (Hrest (path_of stem tokenize (lf, g))) as [H1 _]; [|by destruct H1].
      apply list_elem_of_fmap. by exists (lf, g).
    + rewrite bool_decide_eq_false_2 by done. by apply IH.
Qed.

(** Round trip of the trie.  When the paths of the longforms of the
    grounding map are not empty and none is the beginning of another,
    every entry is found again, in whatever order the entries stand:
    [_search] returns the longform for every list of tokens that ends with
    tokens of its stems, and [_post_process] maps it to its grounding. *)
Theorem _init_trie_search_round_trip shortform gm window exclude lf g tokens more :
  prefix_free (map (path_of stem tokenize) gm) →
  (lf, g) ∈ gm →
  map stem (rev tokens) = edges_of stem tokenize lf ++ more →
  let self := AdeftRecognizer_init stem tokenize shortform gm window exclude in
  AdeftRecognizer_search stem self tokens = Some lf ∧
  _post_process (Recognizer := AdeftRecognizer_methods stem) self lf = Ok g.
Proof.
  intros Hfree Hin Htok self. split; [|by apply dict_get_prefix_free].
  unfold AdeftRecognizer_search. rewrite Htok.
  change (_trie self) with (_init_trie stem tokenize gm).
  destruct (_init_trie_holds gm Hfree) as (Hnodes & Hstored & Hall).
  destruct (Hall (lf, g) Hin) as (node & Hat & Hl).
  unfold path_of in Hat. cbn [fst] in Hat, Hl.
  set (e := edges_of stem tokenize lf) in *.
  assert (e ≠ []) as Hne.
  { intros He. clear -Hfree Hin He.
    induction gm as [|i gm IH]; [by apply elem_of_nil in Hin|].
    destruct Hfree as (Hi & _ & Hfree).
    apply elem_of_cons in Hin as [<-|Hin]; [done|by apply IH]. }
  destruct e as [|e0 e'] eqn:Ee; [done|]. rewrite <- Ee in *.
  apply (search_loop_hit (e ++ more) (_init_trie stem tokenize gm) (length e') node lf).
  - replace (S (length e')) with (length e) by (by rewrite Ee).
    by rewrite take_app_length.
  - rewrite length_app, Ee. simpl. lia.
  - done.
  - intros m Hm.
    assert (S m < length e)%nat as Hlt by (rewrite Ee; simpl; lia).
    rewrite take_app_le by lia.
    destruct (node_at_prefix (_init_trie stem tokenize gm) (take (S m) e) (drop (S m) e))
      as [c Hc]; [rewrite take_drop; by eexists|].
    exists c. split; [done|].
    destruct (longform c) as [lf'|] eqn:Hlc; [|done]. exfalso.
    destruct (Hstored (take (S m) e) lf') as (Heq & g' & Hin'); [by exists c|].
    assert ((lf', g') ≠ (lf, g)) as Hdiff.
    { intros [= -> ->]. fold e in Heq. apply (f_equal length) in Heq.
      rewrite length_take in Heq. lia. }
    clear -Hfree Hin Hin' Heq Hdiff Ee.
    assert (path_of stem tokenize (lf', g') `prefix_of` path_of stem tokenize (lf, g))
      as Hpre.
    { unfold path_of. cbn [fst]. fold e. rewrite <- Heq. apply prefix_take. }
    assert (∀ gm, prefix_free (map (path_of stem tokenize) gm) →
                  ∀ i i', i ∈ gm → i' ∈ gm → i ≠ i' →
                          ¬ path_of stem tokenize i `prefix_of` path_of stem tokenize i')
      as Hgen.
    { clear. induction gm as [|x gm IH]; intros Hfree i i' Hi Hi' Hne.
      - by apply elem_of_nil in Hi.
      - destruct Hfree as (_ & Hrest & Hfree). rewrite Forall_forall in Hrest.
        apply elem_of_cons in Hi as [->|Hi]; apply elem_of_cons in Hi' as [->|Hi'].
        + done.
        + destruct (Hrest (path_of stem tokenize i')) as [H1 _]; [|done].
          apply list_elem_of_fmap. by exists i'.
        + destruct (Hrest (path_of stem tokenize i)) as [_ H2]; [|done].
          apply list_elem_of_fmap. by exists i.
        + by apply IH. }
    by apply (Hgen gm Hfree (lf', g') (lf, g)).
Qed.

(** ** What the search returns *)

Lemma stored_fold rest : ∀ trie done,
  (∀ p lf, stored trie p lf → p = edges_of stem tokenize lf ∧ ∃ g, (lf, g) ∈ done) →
  ∀ p lf, stored (fold_left (λ root (item : string * string),
               insert_edges (fst item) (edges_of stem tokenize (fst item)) root)
             rest trie) p lf →
          p = edges_of stem tokenize lf ∧ ∃ g, (lf, g) ∈ done ++ rest.
Proof.
  induction rest as [|[lf0 g0] rest IH]; intros trie done Hst p lf Hs.
  - rewrite app_nil_r. by apply Hst.
  - cbn [fold_left fst] in Hs.
    replace (done ++ (lf0, g0) :: rest) with ((done ++ [(lf0, g0)]) ++ rest)
      by (by rewrite <- app_assoc).
    apply (IH (insert_edges lf0 (edges_of stem tokenize lf0) trie)); [|done].
    clear p lf Hs. intros p lf (node' & Hat & Hl).
    apply insert_edges_node_at in Hat as [(node & Hn & Hl')|(_ & _ & Hpre & Hl')].
    + destruct (Hst p lf) as (-> & g & Hin).
      { exists node. split; [done|]. by rewrite <- Hl'. }
      split; [done|]. exists g. apply elem_of_app. by left.
    + rewrite Hl in Hl'.
      destruct (decide (p = edges_of stem tokenize lf0)) as [->|]; [|done].
      injection Hl' as ->. split; [done|]. exists g0.
      apply elem_of_app. right. apply list_elem_of_here.
Qed.

Lemma _init_trie_stored gm p lf :
  stored (_init_trie stem tokenize gm) p lf →
  p = edges_of stem tokenize lf ∧ ∃ g, (lf, g) ∈ gm.
Proof.
  intros Hs. apply (stored_fold gm (_TrieNode_init None) []); [|done].
  clear. intros [|t p] lf (node & Hat & Hl); cbn in Hat.
  - by injection Hat as <-.
  - by rewrite lookup_empty in Hat.
Qed.

Lemma search_loop_stored edges : ∀ current lf,
  search_loop current edges = Some lf →
  ∃ p, p ≠ [] ∧ p `prefix_of` edges ∧ stored current p lf.
Proof.
  induction edges as [|token rest IH]; intros current lf Hs; [done|].
  cbn [search_loop] in Hs.
  destruct (children current !! token) as [child|] eqn:Hc; [|done].
  destruct (longform child) as [lf'|] eqn:Hl.
  - injection Hs as ->. exists [token]. split; [done|]. split.
    + by exists rest.
    + exists child. split; [|done]. cbn. by rewrite Hc.
  - destruct (IH child lf Hs) as (p & Hne & Hpre & node & Hat & Hlf).
    exists (token :: p). split; [done|]. split.
    + by apply prefix_cons.
    + exists node. split; [|done]. cbn. by rewrite Hc.
Qed.

Lemma dict_get_elem gm lf :
  (∃ g, (lf, g) ∈ gm) → ∃ g, dict_get gm lf = Ok g.
Proof.
  induction gm as [|[k v] gm IH]; intros (g & Hin); [by apply elem_of_nil in Hin|].
  cbn [dict_get]. destruct (decide (k = lf)) as [->|Hne].
  - rewrite bool_decide_eq_true_2 by done. by eexists.
  - rewrite bool_decide_eq_false_2 by done. apply IH.
    apply elem_of_cons in Hin as [[= <- <-]|Hin]; [done|by exists g].
Qed.

Lemma dict_get_Ok gm lf g : dict_get gm lf = Ok g → (lf, g) ∈ gm.
Proof.
  induction gm as [|[k v] gm IH]; intros Hg; [done|].
  cbn [dict_get] in Hg. destruct (decide (k = lf)) as [->|Hne].
  - rewrite bool_decide_eq_true_2 in Hg by done. injection Hg as ->.
    apply list_elem_of_here.
  - rewrite bool_decide_eq_false_2 in Hg by done.
    apply list_elem_of_further. by apply IH.
Qed.

(** What [_search] returns is a longform of the grounding map, and the
    stems of its tokens, of which there is one at least, are the stems of
    the last tokens searched. *)
Theorem _search_returns_key shortform gm window exclude tokens lf :
  AdeftRecognizer_search stem
    (AdeftRecognizer_init stem tokenize shortform gm window exclude) tokens = Some lf →
  (∃ g, (lf, g) ∈ gm) ∧
  tokenize lf ≠ [] ∧
  ∃ before,
    map stem tokens = before ++ map (λ t, stem (fst t)) (tokenize lf).
Proof.
  unfold AdeftRecognizer_search.
  change (_trie (AdeftRecognizer_init stem tokenize shortform gm window exclude))
    with (_init_trie stem tokenize gm).
  intros (p & Hne & [more Hpre] & Hs)%search_loop_stored.
  destruct (_init_trie_stored gm p lf Hs) as (-> & Hin).
  split; [done|]. split.
  - intros Ht. apply Hne. unfold edges_of. by rewrite Ht.
  - exists (rev more). rewrite map_rev in Hpre.
    apply (f_equal (@rev string)) in Hpre.
    rewrite rev_involutive, rev_app_distr in Hpre. unfold edges_of in Hpre.
    by rewrite rev_involutive in Hpre.
Qed.

Section Recognition.

Variable get_candidate_fragments : string → string → option Z → list string.
Variable get_candidate : string → gset string → list string.

Lemma recognize_step_Adeft (self : AdeftRecognizer) gm acc fragment :
  grounding_map self = gm →
  (∀ tokens lf, AdeftRecognizer_search stem self tokens = Some lf → ∃ g, (lf, g) ∈ gm) →
  ∃ acc',
    recognize_step get_candidate (H := AdeftRecognizer_methods stem) self acc fragment
      = Ok acc' ∧
    ∀ g, g ∈ acc' ↔
         g ∈ acc ∨
         (fragment ≠ ""%string ∧
          ∃ lf, AdeftRecognizer_search stem self
                  (get_candidate fragment (Recognize.exclude (adeft_base self))) = Some lf ∧
                lf ≠ ""%string ∧ dict_get gm lf = Ok g).
Proof.
  intros Hgm Hkeys. unfold recognize_step. cbn [base _search _post_process AdeftRecognizer_methods].
  destruct (decide (fragment = ""%string)) as [->|Hf].
  { rewrite bool_decide_eq_true_2 by done. exists acc. split; [done|].
    intros g. split; [by left|]. by intros [?|[? _]]. }
  rewrite bool_decide_eq_false_2 by done. cbn [mbind result_bind].
  destruct (AdeftRecognizer_search stem self _) as [lf|] eqn:Hs.
  - destruct (decide (lf = ""%string)) as [->|Hlf].
    + rewrite bool_decide_eq_true_2 by done. exists acc. split; [done|].
      intros g. split; [by left|]. intros [?|(_ & lf & [= <-] & ? & _)]; done.
    + rewrite bool_decide_eq_false_2 by done. rewrite Hgm.
      destruct (dict_get_elem gm lf (Hkeys _ _ Hs)) as [g Hg]. rewrite Hg.
      exists ({[g]} ∪ acc). split; [done|]. intros g'. rewrite elem_of_union, elem_of_singleton.
      split.
      * intros [->|?]; [|by left]. right. split; [done|]. by exists lf.
      * intros [?|(_ & lf' & [= <-] & _ & Hg')]; [by right|]. left. congruence.
  - exists acc. split; [done|]. intros g. split; [by left|].
    by intros [?|(_ & lf & ? & _)].
Qed.

Lemma for_each_recognize_Adeft (self : AdeftRecognizer) gm fragments :
  grounding_map self = gm →
  (∀ tokens lf, AdeftRecognizer_search stem self tokens = Some lf → ∃ g, (lf, g) ∈ gm) →
  ∀ acc, ∃ acc',
    for_each (recognize_step get_candidate (H := AdeftRecognizer_methods stem) self)
             fragments acc = Ok acc' ∧
    ∀ g, g ∈ acc' ↔
         g ∈ acc ∨
         ∃ fragment lf,
           fragment ∈ fragments ∧ fragment ≠ ""%string ∧
           AdeftRecognizer_search stem self
             (get_candidate fragment (Recognize.exclude (adeft_base self))) = Some lf ∧
           lf ≠ ""%string ∧ dict_get gm lf = Ok g.
Proof.
  intros Hgm Hkeys. induction fragments as [|fragment fragments IH]; intros acc.
  - exists acc. split; [done|]. intros g. split; [by left|].
    intros [?|(f & lf & Hin & _)]; [done|by apply elem_of_nil in Hin].
  - cbn [for_each].
    destruct (recognize_step_Adeft self gm acc fragment Hgm Hkeys) as (acc1 & -> & H1).
    cbn [mbind result_bind]. destruct (IH acc1) as (acc' & -> & H').
    exists acc'. split; [done|]. intros g. rewrite H', H1. split.
    + intros [[?|(Hf & lf & Hs & Hlf & Hg)]|(f & lf & Hin & Hrest)].
      * by left.
      * right. exists fragment, lf. split; [apply list_elem_of_here|done].
      * right. exists f, lf. split; [by apply list_elem_of_further|done].
    + intros [?|(f & lf & [->|Hin]%elem_of_cons & Hf & Hs & Hlf & Hg)].
      * by left; left.
      * left; right. split; [done|]. by exists lf.
      * right. by exists f, lf.
Qed.

(** [recognize] of an [AdeftRecognizer] raises nothing: the longform a
    search returns is a key of the grounding map.  Its result holds the
    groundings of the longforms found for the fragments that are not empty,
    and nothing else. *)
Theorem AdeftRecognizer_recognize_groundings shortform gm window exclude text :
  let self := AdeftRecognizer_init stem tokenize shortform gm window exclude in
  ∃ expansions,
    recognize get_candidate_fragments get_candidate (H := AdeftRecognizer_methods stem)
              self text = Ok expansions ∧
    ∀ g, g ∈ expansions ↔
         ∃ fragment lf,
           fragment ∈ get_candidate_fragments text shortform (Some (default 100 window)) ∧
           fragment ≠ ""%string ∧
           AdeftRecognizer_search stem self
             (get_candidate fragment (default ∅ exclude)) = Some lf ∧
           lf ≠ ""%string ∧ (lf, g) ∈ gm ∧ dict_get gm lf = Ok g.
Proof.
  intros self. unfold recognize.
  destruct (for_each_recognize_Adeft self gm
              (get_candidate_fragments text (Recognize.shortform (adeft_base self))
                 (Some (Recognize.window (adeft_base self)))) eq_refl)
    with (acc := (∅ : gset string)) as (expansions & Hrun & Hmem).
  { intros tokens lf (p & _ & _ & Hs)%search_loop_stored.
    by apply _init_trie_stored in Hs as (_ & ?). }
  exists expansions. split; [done|]. intros g. rewrite Hmem.
  assert (Recognize.exclude (adeft_base self) = default ∅ exclude) as ->
    by (by destruct exclude).
  split.
  - intros [?|(f & lf & Hin & Hf & Hs & Hlf & Hg)]; [set_solver|].
    exists f, lf. repeat split; try done. by apply dict_get_Ok.
  - intros (f & lf & Hin & Hf & Hs & Hlf & _ & Hg). right. by exists f, lf.
Qed.

End Recognition.

End SearchFacts.

(* ===================================================================== *)
(** * The cut of the longform in [strip_defining_patterns] *)
(* ===================================================================== *)

Section CutFacts.
Import Recognize CutSpec.

Context {span : Type}.
Implicit Types tokens : list (string * span).

Lemma word_count_app tokens tokens' :
  word_count (tokens ++ tokens') = word_count tokens + word_count tokens'.
Proof. unfold word_count. rewrite filter_app, length_app. lia. Qed.

Lemma word_count_nonneg tokens : 0 ≤ word_count tokens.
Proof. unfold word_count. lia. Qed.

Lemma word_count_one (t : string * span) :
  word_count [t] = if PyStr.match_word (fst t) then 1 else 0.
Proof.
  unfold word_count. rewrite filter_cons, filter_nil.
  destruct (decide (PyStr.match_word t.1 = true)) as [->|Hw]; [done|].
  by destruct (PyStr.match_word (fst t)).
Qed.

(** The token the loop reads when [n = S n'] indices are left: with the
    negative indices of Python, the tokens are read twice from their end. *)
Lemma index_doubled tokens (n' : nat) :
  (n' < 2 * length tokens)%nat →
  ∃ t, (tokens ++ tokens) !! n' = Some t ∧
       PyStr.index tokens (Z.of_nat (S n') - Z.of_nat (length tokens) - 1) = Ok t.
Proof.
  intros Hn. unfold PyStr.index. cbn zeta.
  set (j := Z.of_nat (S n') - Z.of_nat (length tokens) - 1).
  destruct (decide (n' < length tokens)%nat) as [Hlt|Hge].
  - destruct (lookup_lt_is_Some_2 tokens n' Hlt) as [t Ht].
    exists t. split; [by rewrite lookup_app_l|].
    destruct (Z.ltb_spec j 0) as [_|?]; [|lia].
    destruct (Z.ltb_spec (j + Z.of_nat (length tokens)) 0) as [?|_]; [lia|].
    destruct (Z.leb_spec (Z.of_nat (length tokens)) (j + Z.of_nat (length tokens)))
      as [?|_]; [lia|].
    cbn [orb]. replace (Z.to_nat (j + Z.of_nat (length tokens))) with n' by lia.
    by rewrite Ht.
  - destruct (lookup_lt_is_Some_2 tokens (n' - length tokens)) as [t Ht]; [lia|].
    exists t. split; [rewrite lookup_app_r by lia; done|].
    destruct (Z.ltb_spec j 0) as [?|_]; [lia|].
    destruct (Z.ltb_spec j 0) as [?|_]; [lia|].
    destruct (Z.leb_spec (Z.of_nat (length tokens)) j) as [?|_]; [lia|].
    cbn [orb]. replace (Z.to_nat j) with (n' - length tokens)%nat by lia.
    by rewrite Ht.
Qed.

Lemma strip_loop_unfold tokens num_words i (n : nat) :
  strip_loop tokens num_words i n =
  let j := Z.of_nat n - Z.of_nat (length tokens) - 1 in
  if i <? num_words then
    match n with
    | O => Raise IndexError
    | S n' =>
        token ← PyStr.index tokens j;
        let i := if PyStr.match_word (fst token) then i + 1 else i in
        if 100 <? i then Ok (j - 1) else strip_loop tokens num_words i n'
    end
  else Ok j.
Proof. by destruct n. Qed.

(** The loop from any of its states: [n] indices are left and [i] words
    are counted.  It stops below the [Z.min num_words 101 - i] words it
    still looks for, at a word, or raises when the indices run out. *)
Lemma strip_loop_doubled tokens num_words : ∀ (n : nat) i,
  (n ≤ 2 * length tokens)%nat → 0 ≤ i ≤ 100 → i ≤ num_words →
  (Z.min num_words 101 - i ≤ word_count (take n (tokens ++ tokens)) →
   ∃ k : nat,
     (k ≤ n)%nat ∧
     strip_loop tokens num_words i n = Ok (Z.of_nat k - Z.of_nat (length tokens) - 1) ∧
     word_count (drop k (take n (tokens ++ tokens))) = Z.min num_words 101 - i ∧
     ((num_words ≤ i ∧ k = n) ∨
      (i < num_words ∧ (k < n)%nat ∧
       ∃ t, (tokens ++ tokens) !! k = Some t ∧ PyStr.match_word (fst t) = true))) ∧
  (word_count (take n (tokens ++ tokens)) < Z.min num_words 101 - i →
   strip_loop tokens num_words i n = Raise IndexError).
Proof.
  induction n as [|n' IH]; intros i Hn Hi Hle; rewrite strip_loop_unfold; cbn zeta.
  - rewrite take_0. change (word_count []) with 0. split.
    + intros Hgoal. exists 0%nat. rewrite (proj2 (Z.ltb_ge _ _)) by lia.
      split; [done|]. split; [done|]. split; [|left; lia].
      rewrite drop_0. change (word_count []) with 0. lia.
    + intros Hgoal. by rewrite (proj2 (Z.ltb_lt _ _)) by lia.
  - destruct (index_doubled tokens n') as (t & Ht & Hindex); [lia|].
    rewrite (take_S_r _ _ _ Ht), word_count_app, word_count_one.
    pose proof (word_count_nonneg (take n' (tokens ++ tokens))) as Hnn.
    destruct (Z.ltb_spec i num_words) as [Hlt|Hge].
    + rewrite Hindex. cbn [mbind result_bind].
      destruct (PyStr.match_word (fst t)) eqn:Hw.
      * destruct (Z.ltb_spec 100 (i + 1)) as [Hbreak|Hgo].
        -- split; [|lia]. intros _. exists n'. split; [lia|]. split; [f_equal; lia|].
           split.
           ++ rewrite drop_app_length' by (rewrite length_take, length_app; lia).
              rewrite word_count_one, Hw. lia.
           ++ right. split; [done|]. split; [lia|]. by exists t.
        -- destruct (IH (i + 1)) as [IHa IHb]; [lia|lia|lia|]. split.
           ++ intros Hgoal. destruct IHa as (k & Hk & Hrun & Hwc & Hcase); [lia|].
              exists k. split; [lia|]. split; [done|]. split.
              ** rewrite drop_app_le by (rewrite length_take, length_app; lia).
                 rewrite word_count_app, word_count_one, Hw. lia.
              ** right. split; [done|].
                 destruct Hcase as [[_ ->]|(_ & Hkn & Hword)].
                 --- split; [lia|]. by exists t.
                 --- split; [lia|done].
           ++ intros Hgoal. apply IHb. lia.
      * rewrite (proj2 (Z.ltb_ge _ _)) by lia.
        destruct (IH i) as [IHa IHb]; [lia|lia|lia|]. split.
        -- intros Hgoal. destruct IHa as (k & Hk & Hrun & Hwc & Hcase); [lia|].
           exists k. split; [lia|]. split; [done|]. split.
           ++ rewrite drop_app_le by (rewrite length_take, length_app; lia).
              rewrite word_count_app, word_count_one, Hw. lia.
           ++ right. split; [done|].
              destruct Hcase as [[? _]|(_ & Hkn & Hword)]; [lia|].
              split; [lia|done].
        -- intros Hgoal. apply IHb. lia.
    + split; [|destruct (PyStr.match_word (fst t)); lia]. intros Hgoal.
      exists (S n'). split; [done|]. split; [done|].
      split; [|left; lia].
      rewrite <- (take_S_r _ _ _ Ht), drop_ge by (rewrite length_take; lia).
      change (word_count []) with 0. lia.
Qed.

Lemma strip_loop_cuts tokens num_words :
  0 ≤ num_words →
  Z.min num_words 101 ≤ word_count tokens →
  ∃ k : nat,
    (k ≤ length tokens)%nat ∧
    strip_loop tokens num_words 0 (2 * length tokens) = Ok (Z.of_nat k - 1) ∧
    word_count (drop k tokens) = Z.min num_words 101 ∧
    (0 < num_words → ∃ t, tokens !! k = Some t ∧ PyStr.match_word (fst t) = true).
Proof.
  intros Hnw Hwords.
  destruct (strip_loop_doubled tokens num_words (2 * length tokens) 0) as [Ha _];
    [lia|lia|lia|].
  rewrite firstn_all2 in Ha by (rewrite length_app; lia).
  rewrite word_count_app in Ha.
  destruct Ha as (k0 & Hk0 & Hrun & Hwc & Hcase); [lia|].
  assert (length tokens ≤ k0)%nat as Hge.
  { destruct Hcase as [[_ ->]|(_ & _ & t & Ht & Hw)]; [lia|].
    destruct (decide (length tokens ≤ k0)%nat) as [|Hlt]; [done|]. exfalso.
    rewrite lookup_app_l in Ht by lia.
    rewrite drop_app_le, word_count_app in Hwc by lia.
    rewrite <- (take_drop_middle _ _ _ Ht) in Hwc at 1.
    rewrite drop_app_length' in Hwc by (rewrite length_take; lia).
    change (t :: drop (S k0) tokens) with ([t] ++ drop (S k0) tokens) in Hwc.
    rewrite word_count_app, word_count_one, Hw in Hwc.
    pose proof (word_count_nonneg (drop (S k0) tokens)). lia. }
  exists (k0 - length tokens)%nat. split; [lia|]. split; [rewrite Hrun; f_equal; lia|].
  split.
  - rewrite drop_app_ge in Hwc by done. rewrite Hwc. lia.
  - intros Hpos. destruct Hcase as [[? _]|(_ & _ & t & Ht & Hw)]; [lia|].
    exists t. split; [|done]. by rewrite lookup_app_r in Ht.
Qed.

Lemma slice_to_nat tokens (k : nat) :
  PyStr.slice_to tokens (Z.of_nat k - 1 + 1) = take k tokens.
Proof.
  unfold PyStr.slice_to. destruct (Z.ltb_spec (Z.of_nat k - 1 + 1) 0); [lia|].
  f_equal. lia.
Qed.

Lemma strip_loop_runs_out tokens num_words :
  2 * word_count tokens < Z.min num_words 101 →
  strip_loop tokens num_words 0 (2 * length tokens) = Raise IndexError.
Proof.
  intros Hwords. pose proof (word_count_nonneg tokens).
  destruct (strip_loop_doubled tokens num_words (2 * length tokens) 0) as [_ Hb];
    [lia|lia|lia|].
  apply Hb. rewrite firstn_all2 by (rewrite length_app; lia).
  rewrite word_count_app. lia.
Qed.

Variable tokenize : string → list (string * span).
Variable untokenize : list (string * span) → string.
Context {T : Type} `{Recognizer T}.

(** The longform is cut off the end of a fragment by its number of words.
    When [_search] finds the longform [lf] for a fragment that has as many
    words as [lf.split()] has (101 are enough), the fragment is replaced by
    its tokens before the [k]-th, the one from which on the tokens have
    that number of words (101 at most) and which, unless [lf] has no word,
    is a word itself: the tokens after the last word of the fragment go
    with the longform.  A word is a token that [re.match(r'\w+', token)]
    accepts, and the words of [lf.split()] are those between white space,
    for strs of code points below 256. *)
Theorem strip_step_cuts_longform (self : T) text fragment lf :
  _search self (filter (λ token, PyStr.str_in token PyStr.punctuation = false)
                       (map fst (tokenize fragment))) = Ok (Some lf) →
  Z.min (Z.of_nat (length (PyStr.split lf))) 101 ≤ word_count (tokenize fragment) →
  ∃ k : nat,
    (k ≤ length (tokenize fragment))%nat ∧
    word_count (drop k (tokenize fragment))
      = Z.min (Z.of_nat (length (PyStr.split lf))) 101 ∧
    (PyStr.split lf ≠ [] →
     ∃ t, tokenize fragment !! k = Some t ∧ PyStr.match_word (fst t) = true) ∧
    strip_step tokenize untokenize self text fragment
      = Ok (PyStr.replace text (PyStr.strip fragment)
                          (untokenize (take k (tokenize fragment)))).
Proof.
  intros Hsearch Hwords.
  destruct (strip_loop_cuts (tokenize fragment) (Z.of_nat (length (PyStr.split lf))))
    as (k & Hk & Hrun & Hwc & Hword); [lia|done|].
  exists k. split; [done|]. split; [done|]. split.
  - intros Hne. apply Hword. destruct (PyStr.split lf); [done|simpl; lia].
  - unfold strip_step. rewrite Hsearch. cbn [mbind result_bind]. rewrite Hrun.
    cbn [mbind result_bind]. by rewrite slice_to_nat.
Qed.

(** The loop of [strip_defining_patterns] goes on below index [0]: with the
    negative indices it reads the tokens a second time from their end, and
    raises [IndexError] when twice the words of the fragment are not as
    many as [lf.split()] has (or 101).  A word is a token that
    [re.match(r'\w+', token)] accepts, for strs of code points below 256. *)
Theorem strip_step_IndexError (self : T) text fragment lf :
  _search self (filter (λ token, PyStr.str_in token PyStr.punctuation = false)
                       (map fst (tokenize fragment))) = Ok (Some lf) →
  2 * word_count (tokenize fragment) < Z.min (Z.of_nat (length (PyStr.split lf))) 101 →
  strip_step tokenize untokenize self text fragment = Raise IndexError.
Proof.
  intros Hsearch Hwords. unfold strip_step. rewrite Hsearch. cbn [mbind result_bind].
  by rewrite strip_loop_runs_out.
Qed.

End CutFacts.

(* ===================================================================== *)
(** * The abstract base class *)
(* ===================================================================== *)

Section AbstractFacts.
Import Recognize.

Context {span : Type}.
Variable tokenize : string → list (string * span).
Variable untokenize : list (string * span) → string.
Variable get_candidate_fragments : string → string → option Z → list string.
Variable get_candidate : string → gset string → list string.

Lemma recognize_step_base (self : BaseRecognizer) acc fragment :
  recognize_step get_candidate self acc fragment
  = if bool_decide (fragment = ""%string) then Ok acc else Raise NotImplementedError.
Proof. done. Qed.

Lemma for_each_recognize_base (self : BaseRecognizer) fragments : ∀ acc,
  for_each (recognize_step get_candidate self) fragments acc
  = if decide (Forall (λ fragment, fragment = ""%string) fragments)
    then Ok acc else Raise NotImplementedError.
Proof.
  induction fragments as [|fragment fragments IH]; intros acc.
  - by rewrite decide_True.
  - cbn [for_each]. rewrite recognize_step_base.
    destruct (decide (fragment = ""%string)) as [->|Hne].
    + rewrite bool_decide_eq_true_2 by done. cbn [mbind result_bind]. rewrite IH.
      destruct (decide (Forall _ fragments)) as [Hall|Hnot].
      * rewrite decide_True; [done|]. by constructor.
      * rewrite decide_False; [done|]. intros Hall. by inversion Hall.
    + rewrite bool_decide_eq_false_2 by done. cbn.
      rewrite decide_False; [done|]. intros Hall. by inversion Hall.
Qed.

(** The base class is abstract.  Its [recognize] raises
    [NotImplementedError] as soon as a fragment is not empty, and returns
    the empty set when every fragment is; its [strip_defining_patterns],
    which searches the empty fragments as well, raises as soon as there is
    a fragment. *)
Theorem BaseRecognizer_search_not_implemented (self : BaseRecognizer) text :
  recognize get_candidate_fragments get_candidate self text
  = (if decide (Forall (λ fragment, fragment = ""%string)
                  (get_candidate_fragments text (shortform self) (Some (window self))))
     then Ok ∅ else Raise NotImplementedError) ∧
  (get_candidate_fragments text (shortform self) None ≠ [] →
   strip_defining_patterns tokenize untokenize get_candidate_fragments self text
   = Raise NotImplementedError).
Proof.
  split.
  - unfold recognize. apply for_each_recognize_base.
  - unfold strip_defining_patterns. cbn [base BaseRecognizer_methods].
    by destruct (get_candidate_fragments text (shortform self) None).
Qed.

End AbstractFacts.

(* ===================================================================== *)
(** * [recognize] of a [OneShotRecognizer] *)
(* ===================================================================== *)

Section OneShotRecognition.
Import Recognize.

Context {Scorer params : Type}.
Variable AdeftLongformScorer : option (string → params → result Scorer).
Variable score0 : Scorer → list string → result (option string).
Variable get_candidate_fragments : string → string → option Z → list string.
Variable get_candidate : string → gset string → list string.

Lemma recognize_step_OneShot (self : OneShotRecognizer Scorer) acc fragment :
  recognize_step get_candidate (H := OneShotRecognizer_methods score0) self acc fragment
  = if bool_decide (fragment = ""%string) then Ok acc
    else
      lf ← OneShotRecognizer_search score0 self
             (get_candidate fragment (exclude (oneshot_base self)));
      match lf with
      | None => Ok acc
      | Some lf => if bool_decide (lf = ""%string) then Ok acc else Ok ({[lf]} ∪ acc)
      end.
Proof.
  unfold recognize_step. cbn [base _search _post_process OneShotRecognizer_methods].
  destruct (bool_decide (fragment = ""%string)); [done|].
  destruct (OneShotRecognizer_search _ _ _) as [[lf|]|]; try done.
Qed.

Lemma for_each_recognize_scorer (self : OneShotRecognizer Scorer) s fragments :
  scorer self = Some s →
  (∀ tokens, is_Ok (score0 s tokens)) →
  ∀ acc, ∃ acc',
    for_each (recognize_step get_candidate (H := OneShotRecognizer_methods score0) self)
             fragments acc = Ok acc' ∧
    ∀ lf, lf ∈ acc' ↔
          lf ∈ acc ∨
          ∃ fragment,
            fragment ∈ fragments ∧ fragment ≠ ""%string ∧
            score0 s (get_candidate fragment (exclude (oneshot_base self))) = Ok (Some lf) ∧
            lf ≠ ""%string.
Proof.
  intros Hs Hscore. induction fragments as [|fragment fragments IH]; intros acc.
  - exists acc. split; [done|]. intros lf. split; [by left|].
    intros [?|(f & Hin & _)]; [done|by apply elem_of_nil in Hin].
  - cbn [for_each]. rewrite recognize_step_OneShot.
    assert (∃ acc1,
              (if bool_decide (fragment = ""%string) then Ok acc
               else
                 lf ← OneShotRecognizer_search score0 self
                        (get_candidate fragment (exclude (oneshot_base self)));
                 match lf with
                 | None => Ok acc
                 | Some lf =>
                     if bool_decide (lf = ""%string) then Ok acc else Ok ({[lf]} ∪ acc)
                 end) = Ok acc1 ∧
              ∀ lf, lf ∈ acc1 ↔
                    lf ∈ acc ∨
                    (fragment ≠ ""%string ∧
                     score0 s (get_candidate fragment (exclude (oneshot_base self)))
                       = Ok (Some lf) ∧
                     lf ≠ ""%string)) as (acc1 & -> & H1).
    { destruct (decide (fragment = ""%string)) as [->|Hf].
      { rewrite bool_decide_eq_true_2 by done. exists acc. split; [done|].
        intros lf. split; [by left|]. by intros [?|[? _]]. }
      rewrite bool_decide_eq_false_2 by done.
      unfold OneShotRecognizer_search. rewrite Hs.
      destruct (Hscore (get_candidate fragment (exclude (oneshot_base self))))
        as [[lf|] ->]; cbn [mbind result_bind].
      - destruct (decide (lf = ""%string)) as [->|Hlf].
        + rewrite bool_decide_eq_true_2 by done. exists acc. split; [done|].
          intros lf. split; [by left|]. intros [?|(_ & [= <-] & ?)]; done.
        + rewrite bool_decide_eq_false_2 by done. exists ({[lf]} ∪ acc).
          split; [done|]. intros lf'. rewrite elem_of_union, elem_of_singleton.
          split.
          * intros [->|?]; [by right|by left].
          * intros [?|(_ & [= <-] & _)]; [by right|by left].
      - exists acc. split; [done|]. intros lf. split; [by left|].
        by intros [?|(_ & ? & _)]. }
    cbn [mbind result_bind]. destruct (IH acc1) as (acc' & -> & H').
    exists acc'. split; [done|]. intros lf. rewrite H', H1. split.
    + intros [[?|(Hf & Hsc & Hlf)]|(f & Hin & Hrest)].
      * by left.
      * right. exists fragment. split; [apply list_elem_of_here|done].
      * right. exists f. split; [by apply list_elem_of_further|done].
    + intros [?|(f & [->|Hin]%elem_of_cons & Hf & Hsc & Hlf)].
      * by left; left.
      * by left; right.
      * right. by exists f.
Qed.

Lemma for_each_recognize_no_scorer (self : OneShotRecognizer Scorer) fragments :
  scorer self = None →
  ∀ acc,
    for_each (recognize_step get_candidate (H := OneShotRecognizer_methods score0) self)
             fragments acc
    = if decide (Forall (λ fragment, fragment = ""%string) fragments)
      then Ok acc else Raise AttributeError.
Proof.
  intros Hs. induction fragments as [|fragment fragments IH]; intros acc.
  - by rewrite decide_True.
  - cbn [for_each]. rewrite recognize_step_OneShot.
    destruct (decide (fragment = ""%string)) as [->|Hne].
    + rewrite bool_decide_eq_true_2 by done. cbn [mbind result_bind]. rewrite IH.
      destruct (decide (Forall _ fragments)) as [Hall|Hnot].
      * rewrite decide_True; [done|]. by constructor.
      * rewrite decide_False; [done|]. intros Hall. by inversion Hall.
    + rewrite bool_decide_eq_false_2 by done.
      unfold OneShotRecognizer_search. rewrite Hs. cbn.
      rewrite decide_False; [done|]. intros Hall. by inversion Hall.
Qed.

(** [recognize] of a [OneShotRecognizer].  Built with a scorer whose
    [score] raises nothing, it returns the longforms, the empty one apart,
    that the scorer gives for the candidates of the fragments that are not
    empty.  Built while the scorer is not available, it raises
    [AttributeError] as soon as a fragment is not empty, and returns the
    empty set otherwise. *)
Theorem OneShotRecognizer_recognize shortform window exclude ps text :
  (∀ s, new_scorer AdeftLongformScorer shortform ps = Ok s →
        (∀ tokens, is_Ok (score0 s tokens)) →
        ∃ self expansions,
          OneShotRecognizer_init AdeftLongformScorer shortform window exclude ps
            = Ok (self, []) ∧
          recognize get_candidate_fragments get_candidate
            (H := OneShotRecognizer_methods score0) self text = Ok expansions ∧
          ∀ lf, lf ∈ expansions ↔
                ∃ fragment,
                  fragment ∈ get_candidate_fragments text shortform
                               (Some (default 100 window)) ∧
                  fragment ≠ ""%string ∧
                  score0 s (get_candidate fragment (default ∅ exclude)) = Ok (Some lf) ∧
                  lf ≠ ""%string) ∧
  (new_scorer AdeftLongformScorer shortform ps = Raise NameError →
   ∃ self,
     OneShotRecognizer_init AdeftLongformScorer shortform window exclude ps
       = Ok (self, [not_available]) ∧
     recognize get_candidate_fragments get_candidate
       (H := OneShotRecognizer_methods score0) self text
     = if decide (Forall (λ fragment, fragment = ""%string)
                    (get_candidate_fragments text shortform (Some (default 100 window))))
       then Ok ∅ else Raise AttributeError).
Proof.
  split.
  - intros s Hnew Hscore. unfold OneShotRecognizer_init. rewrite Hnew.
    eexists _. 
    destruct (for_each_recognize_scorer
                (mkOneShotRecognizer (BaseRecognizer_init shortform window exclude) (Some s))
                s (get_candidate_fragments text shortform (Some (default 100 window)))
                eq_refl Hscore ∅) as (expansions & Hrun & Hmem).
    exists expansions. split; [done|]. split; [exact Hrun|].
    intros lf. rewrite Hmem.
    assert (Recognize.exclude (BaseRecognizer_init shortform window exclude)
            = default ∅ exclude) as Hex by (by destruct exclude).
    cbn [oneshot_base]. rewrite Hex. split.
    + intros [?|?]; [set_solver|done].
    + by right.
  - intros Hnew. unfold OneShotRecognizer_init. rewrite Hnew. eexists. split; [done|].
    unfold recognize. by rewrite for_each_recognize_no_scorer.
Qed.

End OneShotRecognition.

(* ===================================================================== *)
(** * Examples *)
(* ===================================================================== *)

Section ConsumeExamples.
Import Mine MineSpec ConsumeSpec ExampleSpec.

#[local] Existing Instance Binary64.table_arithmetic.

(** The text [the estrogen receptor (ER) binds]. *)
Lemma consume_returns_iff_pattern_found_witness :
  ∃ self',
    consume (λ s, s) ∅ (λ s, s) one_sentence paren_tokenize
            (ContinuousMiner_init (F := PrimFloat.float) "ER" None) ["the estrogen receptor (ER) binds"%string]
    = Ok self' ∧
    reachable (λ s, s) self' ∧
    shortform self' = "ER"%string ∧ exclude self' = ∅.
Proof.
  refine (proj1 (consume_returns_iff_pattern_found (λ s, s) ∅ (λ s, s)
                   one_sentence paren_tokenize (ContinuousMiner_init (F := PrimFloat.float) "ER" None)
                   ["the estrogen receptor (ER) binds"%string]
                   (reachable_init _ _ _)) _).
  intros sentence Hin.
  assert (sentence = "the estrogen receptor (ER) binds"%string) as ->.
  { revert Hin. vm_compute. by intros ->%list_elem_of_singleton. }
  exists 3%nat. vm_compute. reflexivity.
Defined.

Lemma consume_without_pattern_witness :
  consume (λ s, s) ∅ (λ s, s) one_sentence paren_tokenize
          (ContinuousMiner_init (F := PrimFloat.float) "ER" None) ["no pattern here"%string]
  = Ok (ContinuousMiner_init (F := PrimFloat.float) "ER" None).
Proof.
  apply consume_without_pattern.
  intros text sentence ->%list_elem_of_singleton ->%list_elem_of_singleton.
  vm_compute. reflexivity.
Defined.

(** The sentence [the estrogen receptor (ER) binds], with [the] excluded. *)
Lemma _get_candidates_excludes_witness :
  ∃ index before,
    find_pattern "ER" ["the"; "estrogen"; "receptor"; "("; "ER"; ")"; "binds"]%string
      = Some index ∧
    normalized ∅ (λ s, s)
      ["the"; "estrogen"; "receptor"; "("; "ER"; ")"; "binds"]%string index
      = before ++ ["estrogen"; "receptor"]%string ∧
    (∀ token, token ∈ ["estrogen"; "receptor"]%string → token ∉ ({["the"%string]} : gset string)) ∧
    (before = [] ∨
     ∃ before' token, before = before' ++ [token] ∧ token ∈ ({["the"%string]} : gset string)).
Proof.
  refine (_get_candidates_excludes ∅ (λ s, s)
            (ContinuousMiner_init (F := PrimFloat.float) "ER" (Some {["the"%string]}))
            ["the"; "estrogen"; "receptor"; "("; "ER"; ")"; "binds"]%string
            ["estrogen"; "receptor"]%string _).
  vm_compute. reflexivity.
Defined.

(** The sentence [the estrogen receptor (ER) binds], with [the] excluded. *)
Lemma _get_candidates_found_witness :
  _get_candidates ∅ (λ s, s)
    (ContinuousMiner_init (F := PrimFloat.float) "ER" (Some {["the"%string]}))
    ["the"; "estrogen"; "receptor"; "("; "ER"; ")"; "binds"]%string
  = Some ["estrogen"; "receptor"]%string.
Proof.
  refine (_get_candidates_found ∅ (λ s, s)
            (ContinuousMiner_init (F := PrimFloat.float) "ER" (Some {["the"%string]}))
            ["the"; "estrogen"; "receptor"; "("; "ER"; ")"; "binds"]%string
            3%nat ["the"%string] ["estrogen"; "receptor"]%string _ _ _ _ _ _).
  - simpl. lia.
  - reflexivity.
  - intros [|[|[|j]]] Hj; [reflexivity..|lia].
  - vm_compute. reflexivity.
  - intros token Hin Hex.
    change (token ∈ ({["the"%string]} : gset string)) in Hex.
    apply elem_of_singleton in Hex as ->.
    apply elem_of_cons in Hin as [Hin|Hin]; [done|].
    apply elem_of_cons in Hin as [Hin|Hin]; [done|].
    by apply elem_of_nil in Hin.
  - right. exists [], "the"%string. split; [done|].
    change ("the"%string ∈ ({["the"%string]} : gset string)).
    by apply elem_of_singleton.
Defined.

(** The shortform [IL 2] and the text [interleukin 2 (IL 2) binds]: the
    sentence holds [(IL 2)], so that [consume] keeps it, and the word
    tokenizer, which splits at white space, gives no token that is the
    shortform. *)
Lemma _add_raises_without_pattern_witness :
  "interleukin 2 (IL 2) binds"%string
    ∈ kept_sentences one_sentence "IL 2" ["interleukin 2 (IL 2) binds"%string] ∧
  paren_tokenize "interleukin 2 (IL 2) binds"
  = ["interleukin"; "2"; "("; "IL"; "2"; ")"; "binds"]%string ∧
  _get_candidates ∅ (λ s, s) (ContinuousMiner_init (F := PrimFloat.float) "IL 2" None)
    (paren_tokenize "interleukin 2 (IL 2) binds") = None ∧
  consume (λ s, s) ∅ (λ s, s) one_sentence paren_tokenize
          (ContinuousMiner_init (F := PrimFloat.float) "IL 2" None)
          ["interleukin 2 (IL 2) binds"%string]
  = Raise TypeError.
Proof.
  assert ("interleukin 2 (IL 2) binds"%string
            ∈ kept_sentences one_sentence "IL 2" ["interleukin 2 (IL 2) binds"%string])
    as Hin by (vm_compute; apply list_elem_of_here).
  split; [exact Hin|]. split; [vm_compute; reflexivity|].
  destruct (_add_raises_without_pattern (arith := Binary64.table_arithmetic)
              (λ s, s) ∅ (λ s, s) one_sentence paren_tokenize
              (ContinuousMiner_init (F := PrimFloat.float) "IL 2" None)
              ["interleukin 2 (IL 2) binds"%string] "interleukin 2 (IL 2) binds"
              (reachable_init _ _ _) Hin) as (Hnone & _ & Hconsume & _).
  - intros i. do 7 (destruct i as [|i]; [vm_compute; reflexivity|]).
    vm_compute. reflexivity.
  - by split.
Defined.

End ConsumeExamples.

Section SearchExamples.
Import Recognize RecognizeSpec TrieSpec CutSpec ExampleSpec.

Lemma _init_trie_search_round_trip_witness :
  AdeftRecognizer_search (λ s, s)
    (AdeftRecognizer_init (λ s, s) words_tokenize "ER"
       [("endoplasmic reticulum", "G1"); ("estrogen receptor", "G2")]%string None None)
    ["the"; "estrogen"; "receptor"]%string
  = Some "estrogen receptor"%string ∧
  _post_process (Recognizer := AdeftRecognizer_methods (λ s, s))
    (AdeftRecognizer_init (λ s, s) words_tokenize "ER"
       [("endoplasmic reticulum", "G1"); ("estrogen receptor", "G2")]%string None None)
    "estrogen receptor"
  = Ok "G2"%string.
Proof.
  refine (_init_trie_search_round_trip (λ s, s) words_tokenize "ER"
            [("endoplasmic reticulum", "G1"); ("estrogen receptor", "G2")]%string
            None None "estrogen receptor" "G2"
            ["the"; "estrogen"; "receptor"]%string ["the"%string] _ _ _).
  - change (prefix_free [["reticulum"; "endoplasmic"]; ["receptor"; "estrogen"]]%string).
    split; [done|]. split; [|by split].
    constructor; [|constructor].
    split; intros [k Hk]; discriminate.
  - apply list_elem_of_further, list_elem_of_here.
  - reflexivity.
Defined.

Lemma _search_returns_key_witness :
  (∃ g, ("estrogen receptor"%string, g)
          ∈ [("endoplasmic reticulum", "G1"); ("estrogen receptor", "G2")]%string) ∧
  words_tokenize "estrogen receptor" ≠ [] ∧
  ∃ before,
    map (λ s : string, s) ["the"; "estrogen"; "receptor"]%string
    = before ++ map (λ t : string * unit, fst t) (words_tokenize "estrogen receptor").
Proof.
  apply (_search_returns_key (λ s, s) words_tokenize "ER"
           [("endoplasmic reticulum", "G1"); ("estrogen receptor", "G2")]%string
           None None ["the"; "estrogen"; "receptor"]%string "estrogen receptor").
  vm_compute. reflexivity.
Defined.

(** The fragment [the estrogen receptor] of a text, with the longform
    [estrogen receptor]; the tokens are put together with spaces. *)
Lemma strip_step_cuts_longform_witness :
  ∃ k : nat,
    (k ≤ length (words_tokenize "the estrogen receptor"))%nat ∧
    word_count (drop k (words_tokenize "the estrogen receptor"))
      = Z.min (Z.of_nat (length (PyStr.split "estrogen receptor"))) 101 ∧
    (PyStr.split "estrogen receptor" ≠ [] →
     ∃ t, words_tokenize "the estrogen receptor" !! k = Some t ∧
          PyStr.match_word (fst t) = true) ∧
    strip_step words_tokenize (λ tokens, PyStr.join " " (map fst tokens))
      (H := AdeftRecognizer_methods (λ s, s))
      (AdeftRecognizer_init (λ s, s) words_tokenize "ER"
         [("estrogen receptor", "G2")]%string None None)
      "the estrogen receptor (ER) binds" "the estrogen receptor"
    = Ok (PyStr.replace "the estrogen receptor (ER) binds"
            (PyStr.strip "the estrogen receptor")
            (PyStr.join " " (map fst (take k (words_tokenize "the estrogen receptor"))))).
Proof.
  apply (strip_step_cuts_longform words_tokenize
           (λ tokens, PyStr.join " " (map fst tokens))
           (H := AdeftRecognizer_methods (λ s, s))
           (AdeftRecognizer_init (λ s, s) words_tokenize "ER"
              [("estrogen receptor", "G2")]%string None None)
           "the estrogen receptor (ER) binds" "the estrogen receptor"
           "estrogen receptor").
  - vm_compute. reflexivity.
  - apply Z.leb_le. vm_compute. reflexivity.
Defined.

(** A longform of three tokens of which one is a word, found in a fragment
    that has no other word. *)
Lemma strip_step_IndexError_witness :
  strip_step words_tokenize (λ _, ""%string)
    (H := AdeftRecognizer_methods (λ s, s))
    (AdeftRecognizer_init (λ s, s) words_tokenize "C"
       [("++ -- c", "G")]%string None None)
    "++ -- c (C)" "++ -- c"
  = Raise IndexError.
Proof.
  apply (strip_step_IndexError words_tokenize (λ _, ""%string)
           (H := AdeftRecognizer_methods (λ s, s))
           (AdeftRecognizer_init (λ s, s) words_tokenize "C"
              [("++ -- c", "G")]%string None None)
           "++ -- c (C)" "++ -- c" "++ -- c").
  - vm_compute. reflexivity.
  - apply Z.ltb_lt. vm_compute. reflexivity.
Defined.

Lemma BaseRecognizer_search_not_implemented_witness :
  strip_defining_patterns words_tokenize (λ _, ""%string) fragments_before
    (BaseRecognizer_init "ER" None None) "the estrogen receptor (ER) binds"
  = Raise NotImplementedError.
Proof.
  apply (proj2 (BaseRecognizer_search_not_implemented words_tokenize (λ _, ""%string)
                  fragments_before words_candidate (BaseRecognizer_init "ER" None None)
                  "the estrogen receptor (ER) binds")).
  vm_compute. discriminate.
Defined.

End SearchExamples.

Section CountExamples.
Import Mine MineSpec CountSpec.

#[local] Existing Instance Binary64.table_arithmetic.

(** The candidates [a b] and [b]: the node of [b] was seen twice. *)
Lemma count_is_number_of_candidates_witness :
  ∃ (self : ContinuousMiner PrimFloat.float) node st,
    for_each (_add (λ s, s)) (map Some [["a"; "b"]; ["b"]]%string)
             (ContinuousMiner_init "AB" None) = Ok self ∧
    node_at (_internal_trie self) ["b"%string] = Some node ∧
    stats node = Some st ∧ count st = 2.
Proof.
  destruct (count_is_number_of_candidates (arith := Binary64.table_arithmetic)
              (λ s, s) "AB" None [["a"; "b"]; ["b"]]%string)
    as (self & Hrun & Hcnt).
  specialize (Hcnt ["b"%string] ltac:(done)).
  destruct (node_at (_internal_trie self) ["b"%string]) as [node|] eqn:Hat.
  - destruct Hcnt as (st & Hs & Hc & _). exists self, node, st.
    do 3 (split; [done|]). rewrite Hc. vm_compute. reflexivity.
  - vm_compute in Hcnt. discriminate.
Defined.

End CountExamples.

Section SumExamples.
Import Mine MineSpec CountSpec SumSpec.

#[local] Existing Instance Binary64.table_arithmetic.

Lemma sums_over_children_witness :
  ∃ (self : ContinuousMiner PrimFloat.float) node st,
    node_at (_internal_trie self) ["b"%string] = Some node ∧
    stats node = Some st ∧
    sum_ft st = child_sum (λ c, c - 1) node ∧
    sum_ft2 st = child_sum (λ c, c * c - 1) node.
Proof.
  destruct (add_times_chain (F := PrimFloat.float) (λ s, s) ["a"; "b"]%string "AB" None 2)
    as (self & Hadd & Ht).
  assert (reachable (λ s, s) self) as Hr.
  { eapply add_times_reachable; [apply reachable_init|exact Hadd]. }
  assert (∃ node st, node_at (_internal_trie self) ["b"%string] = Some node ∧
                     stats node = Some st) as (node & st & Hat & Hs).
  { rewrite Ht. by eexists _, _. }
  exists self, node, st. split; [done|]. split; [done|].
  exact (sums_over_children (λ s, s) self ["b"%string] node st Hr Hat Hs).
Defined.

End SumExamples.

Section KeyExamples.
Import Mine MineSpec TableSpec.

#[local] Existing Instance Binary64.table_arithmetic.

Lemma longforms_only_nodes_witness :
  ∃ (self : ContinuousMiner PrimFloat.float) lh,
    _longforms self !! ["b"%string] = Some lh ∧
    ∃ path node st,
      path ≠ [] ∧ ["b"%string] = rev path ∧
      node_at (_internal_trie self) path = Some node ∧
      longform node = path ∧
      stats node = Some st ∧ lh = LH st.
Proof.
  destruct (add_times_chain (F := PrimFloat.float) (λ s, s) ["a"; "b"]%string "AB" None 1)
    as (self & Hadd & Ht).
  assert (reachable (λ s, s) self) as Hr.
  { eapply add_times_reachable; [apply reachable_init|exact Hadd]. }
  assert (∃ node st, node_at (_internal_trie self) ["b"%string] = Some node ∧
                     stats node = Some st) as (node & st & Hat & Hs).
  { rewrite Ht. by eexists _, _. }
  pose proof (proj2 (reachable_full (λ s, s) self Hr) ["b"%string] node st Hat Hs)
    as Hkey.
  exists self, (LH st). split; [exact Hkey|].
  exact (longforms_only_nodes (λ s, s) self ["b"%string] (LH st) Hr Hkey).
Defined.

End KeyExamples.

Section OneShotRecognitionExamples.
Import Recognize RecognizeSpec.

(** A scorer that gives [estrogen receptor] for every candidate. *)
Lemma OneShotRecognizer_recognize_witness :
  ∃ self expansions,
    OneShotRecognizer_init (Scorer := unit) (params := unit) (Some (λ _ _, Ok tt))
      "ER" None None tt = Ok (self, []) ∧
    recognize fragments_before words_candidate
      (H := OneShotRecognizer_methods (λ _ _, Ok (Some "estrogen receptor"%string)))
      self "the estrogen receptor (ER) binds" = Ok expansions ∧
    ∀ lf, lf ∈ expansions ↔
          ∃ fragment,
            fragment ∈ fragments_before "the estrogen receptor (ER) binds" "ER"
                         (Some (default 100 None)) ∧
            fragment ≠ ""%string ∧
            Ok (Some "estrogen receptor"%string) = Ok (Some lf) ∧
            lf ≠ ""%string.
Proof.
  refine (proj1 (OneShotRecognizer_recognize (Scorer := unit) (params := unit)
                   (Some (λ _ _, Ok tt))
                   (λ _ _, Ok (Some "estrogen receptor"%string))
                   fragments_before words_candidate "ER" None None tt
                   "the estrogen receptor (ER) binds") tt eq_refl _).
  intros tokens. by eexists.
Defined.

End OneShotRecognitionExamples.
